(** * NodePass panel: the live event log (src/components/nodepass/EventLog.tsx)

    A shallow embedding of the event-stream session of the [EventLog]
    component: frame splitting, frame decoding, the bounded event log and
    the connect / read / reconnect life cycle, followed by the properties
    the specification states about them.  Beside it, what the component
    shows of its log, the saved connections of the hook [useApiConfig]
    (src/hooks/use-api-key.ts) that the page takes the identity from, and
    the URL of an instance as the dialogs and the topology page build and
    read it, with further properties of this code. *)

From Stdlib Require Import NArith ZArith Lia Bool String Ascii.
From stdpp Require Import base list.

Local Open Scope N_scope.
Set Warnings "-register-all".

(** ** JavaScript strings

    A JavaScript string is a sequence of UTF-16 code units.  Literals of the
    source are written as UTF-8 text and converted by [utf16]. *)

Definition jsstring := list N.

Module JS.

(** Bytes of a literal. *)
Fixpoint bytes_of (s : string) : list N :=
  match s with
  | EmptyString => []
  | String c r => N_of_ascii c :: bytes_of r
  end.

(** Code points of a well-formed UTF-8 byte sequence. *)
Fixpoint utf8_decode (bs : list N) : list N :=
  match bs with
  | [] => []
  | b0 :: r0 =>
    if b0 <? 128 then b0 :: utf8_decode r0
    else if b0 <? 224 then
      match r0 with
      | b1 :: r1 => ((b0 - 192) * 64 + (b1 - 128)) :: utf8_decode r1
      | _ => []
      end
    else if b0 <? 240 then
      match r0 with
      | b1 :: b2 :: r2 =>
        ((b0 - 224) * 4096 + (b1 - 128) * 64 + (b2 - 128)) :: utf8_decode r2
      | _ => []
      end
    else
      match r0 with
      | b1 :: b2 :: b3 :: r3 =>
        ((b0 - 240) * 262144 + (b1 - 128) * 4096 + (b2 - 128) * 64 + (b3 - 128))
          :: utf8_decode r3
      | _ => []
      end
  end.

(** UTF-16 code units of a list of code points. *)
Definition utf16_encode (cps : list N) : jsstring :=
  flat_map (fun cp =>
    if cp <? 65536 then [cp]
    else [55296 + (cp - 65536) / 1024; 56320 + (cp - 65536) mod 1024]) cps.

End JS.

Definition utf16 (s : string) : jsstring := JS.utf16_encode (JS.utf8_decode (JS.bytes_of s)).

(** A literal in which the apostrophe stands for the double quote, used to
    write JSON text. *)
Definition utf16q (s : string) : jsstring :=
  map (fun c => if c =? 39 then 34 else c) (utf16 s).

(** The line feed, [\n]. *)
Definition LF : jsstring := [10].

(** [s === t] on strings. *)
Definition str_eqb (s t : jsstring) : bool := bool_decide (s = t).

(** [s.startsWith(p)] *)
Fixpoint startsWith (s p : jsstring) {struct p} : bool :=
  match p, s with
  | [], _ => true
  | c :: p', d :: s' => (c =? d) && startsWith s' p'
  | _ :: _, [] => false
  end.

(** [s.includes(p)] *)
Fixpoint includes (s p : jsstring) : bool :=
  startsWith s p ||
  match s with
  | [] => false
  | _ :: s' => includes s' p
  end.

(** [s.substring(start, end)]: both indices are clamped to the length and
    swapped when out of order. *)
Definition substring (s : jsstring) (start end_ : nat) : jsstring :=
  let a := Nat.min start (length s) in
  let b := Nat.min end_ (length s) in
  take (Nat.max a b - Nat.min a b) (drop (Nat.min a b) s).

(** [s.substring(start)] *)
Definition substring_from (s : jsstring) (start : nat) : jsstring :=
  substring s start (length s).

(** White space and line terminators, the code units [trim] strips. *)
Definition is_white_space (c : N) : bool :=
  (c =? 9) || (c =? 10) || (c =? 11) || (c =? 12) || (c =? 13) || (c =? 32)
  || (c =? 160) || (c =? 5760) || ((8192 <=? c) && (c <=? 8202))
  || (c =? 8232) || (c =? 8233) || (c =? 8239) || (c =? 8287)
  || (c =? 12288) || (c =? 65279).

Fixpoint trimStart (s : jsstring) : jsstring :=
  match s with
  | c :: s' => if is_white_space c then trimStart s' else s
  | [] => []
  end.

Definition trimEnd (s : jsstring) : jsstring := rev (trimStart (rev s)).

(** [s.trim()] *)
Definition trim (s : jsstring) : jsstring := trimEnd (trimStart s).

(** [s.split(sep)] for a non-empty separator: the pieces between the
    successive leftmost occurrences of [sep].  [skip] counts the code units
    of an occurrence already recognised that are still to be passed over. *)
Fixpoint split_aux (sep : jsstring) (skip : nat) (s : jsstring) : list jsstring :=
  match s with
  | [] => [[]]
  | c :: s' =>
    match skip with
    | S k => split_aux sep k s'
    | O =>
      if startsWith s sep then [] :: split_aux sep (length sep - 1) s'
      else match split_aux sep 0 s' with
           | p :: ps => (c :: p) :: ps
           | [] => [[c]]
           end
    end
  end.

(** [s.split(sep)]; with the empty separator the string falls apart into its
    code units. *)
Definition split (s sep : jsstring) : list jsstring :=
  match sep with
  | [] => map (fun c => [c]) s
  | _ => split_aux sep 0 s
  end.

(** [blocks.pop() || ''] reads the last piece, [removelast] is the array
    that [pop] leaves behind. *)
Definition pop_or_empty (blocks : list jsstring) : jsstring := List.last blocks [].

(** ** JSON values

    A number keeps the decimal value its literal denotes,
    [(-1)^neg * mantissa * 10^exponent]. *)

Record jsnumber := { neg : bool; mantissa : N; exponent : Z }.

Inductive JSON :=
| JNull
| JBool (b : bool)
| JNumber (n : jsnumber)
| JString (s : jsstring)
| JArray (elements : list JSON)
| JObject (members : list (jsstring * JSON)).

(** A number literal denotes zero as a double when its digits are all zero
    or when its value is at most 2^-1075, half the least positive double,
    which rounds to zero. *)
Definition number_is_zero (n : jsnumber) : bool :=
  (mantissa n =? 0) ||
  ((exponent n <? 0)%Z && (mantissa n * 2 ^ 1075 <=? 10 ^ Z.to_N (- exponent n))).

(** Truthiness of a value, as [||] and [if] test it. *)
Definition truthy (v : JSON) : bool :=
  match v with
  | JNull => false
  | JBool b => b
  | JNumber n => negb (number_is_zero n)
  | JString s => negb (str_eqb s [])
  | JArray _ | JObject _ => true
  end.

(** A property read that found nothing is [undefined], here [None]. *)
Definition truthy_opt (v : option JSON) : bool :=
  match v with
  | Some j => truthy j
  | None => false
  end.

(** [a || b] when [b] is always defined. *)
Definition or_else (a : option JSON) (b : JSON) : JSON :=
  match a with
  | Some j => if truthy j then j else b
  | None => b
  end.

(** [a || b] when [b] may be undefined as well. *)
Definition or_opt (a b : option JSON) : option JSON :=
  if truthy_opt a then a else b.

(** The value of an own property: the last member with that key wins, as
    [JSON.parse] overwrites a repeated key. *)
Fixpoint lookup_member (key : jsstring) (members : list (jsstring * JSON)) : option JSON :=
  match members with
  | [] => None
  | (k, v) :: rest =>
    match lookup_member key rest with
    | Some w => Some w
    | None => if str_eqb k key then Some v else None
    end
  end.

(** [payload.key] for the keys the component reads ([type], [instance],
    [data], [logs], [time]): none of them is inherited from a prototype, so
    every value but an object answers [undefined]; reading a property of
    [null] throws a TypeError, the outer [None]. *)
Definition get_property (payload : JSON) (key : jsstring) : option (option JSON) :=
  match payload with
  | JNull => None
  | JObject members => Some (lookup_member key members)
  | _ => Some None
  end.

(** ** [JSON.parse]

    The text is cut into tokens, then the tokens are assembled by a
    push-down automaton; both passes read their input once, left to right. *)

Module Json.

Inductive token :=
| TLBrace | TRBrace | TLBracket | TRBracket | TColon | TComma
| TString (s : jsstring)
| TNumber (n : jsnumber)
| TTrue | TFalse | TNull.

(** Where the scanner is inside a number literal. *)
Inductive num_phase :=
| NMinus        (* after [-], a digit must follow *)
| NZero         (* after a leading [0] *)
| NInt          (* in the digits of the integer part *)
| NDot          (* after [.], a digit must follow *)
| NFrac         (* in the digits of the fraction *)
| NExp          (* after [e] or [E], a sign or a digit must follow *)
| NExpSign      (* after the sign of the exponent, a digit must follow *)
| NExpDigits.   (* in the digits of the exponent *)

Record num_acc := {
  acc_neg : bool;          (* a leading [-] was read *)
  acc_digits : N;          (* the digits of integer part and fraction *)
  acc_frac : N;            (* how many of them belong to the fraction *)
  acc_exp_neg : bool;      (* the exponent has a [-] *)
  acc_exp : N              (* the digits of the exponent *)
}.

Inductive lex_state :=
| LStart
| LString (acc : jsstring)                        (* reversed contents so far *)
| LEscape (acc : jsstring)                        (* after a backslash *)
| LUnicode (acc : jsstring) (todo : nat) (v : N)  (* in the digits of \uXXXX *)
| LWord (rest : jsstring) (t : token)             (* inside true, false, null *)
| LNumber (p : num_phase) (a : num_acc).

Definition is_digit (c : N) : bool := (48 <=? c) && (c <=? 57).

Definition hex_value (c : N) : option N :=
  if (48 <=? c) && (c <=? 57) then Some (c - 48)
  else if (65 <=? c) && (c <=? 70) then Some (c - 55)
  else if (97 <=? c) && (c <=? 102) then Some (c - 87)
  else None.

Definition is_json_space (c : N) : bool :=
  (c =? 9) || (c =? 10) || (c =? 13) || (c =? 32).

Definition finish_number (a : num_acc) : jsnumber :=
  {| neg := acc_neg a;
     mantissa := acc_digits a;
     exponent := ((if acc_exp_neg a then - Z.of_N (acc_exp a) else Z.of_N (acc_exp a))
                  - Z.of_N (acc_frac a))%Z |}.

Definition num_accepting (p : num_phase) : bool :=
  match p with
  | NZero | NInt | NFrac | NExpDigits => true
  | _ => false
  end.

Definition push_digit (a : num_acc) (c : N) (in_frac : bool) : num_acc :=
  {| acc_neg := acc_neg a;
     acc_digits := acc_digits a * 10 + (c - 48);
     acc_frac := if in_frac then acc_frac a + 1 else acc_frac a;
     acc_exp_neg := acc_exp_neg a;
     acc_exp := acc_exp a |}.

Definition push_exp_digit (a : num_acc) (c : N) : num_acc :=
  {| acc_neg := acc_neg a;
     acc_digits := acc_digits a;
     acc_frac := acc_frac a;
     acc_exp_neg := acc_exp_neg a;
     acc_exp := acc_exp a * 10 + (c - 48) |}.

Definition with_exp_neg (a : num_acc) : num_acc :=
  {| acc_neg := acc_neg a;
     acc_digits := acc_digits a;
     acc_frac := acc_frac a;
     acc_exp_neg := true;
     acc_exp := acc_exp a |}.

Definition empty_acc (negative : bool) : num_acc :=
  {| acc_neg := negative; acc_digits := 0; acc_frac := 0; acc_exp_neg := false; acc_exp := 0 |}.

(** The next phase of a number on one more code unit, [None] when the code
    unit does not continue the literal. *)
Definition num_step (p : num_phase) (a : num_acc) (c : N) : option (num_phase * num_acc) :=
  let is_e := (c =? 101) || (c =? 69) in
  match p with
  | NMinus =>
    if c =? 48 then Some (NZero, a)
    else if is_digit c then Some (NInt, push_digit a c false)
    else None
  | NZero =>
    if c =? 46 then Some (NDot, a)
    else if is_e then Some (NExp, a)
    else None
  | NInt =>
    if is_digit c then Some (NInt, push_digit a c false)
    else if c =? 46 then Some (NDot, a)
    else if is_e then Some (NExp, a)
    else None
  | NDot => if is_digit c then Some (NFrac, push_digit a c true) else None
  | NFrac =>
    if is_digit c then Some (NFrac, push_digit a c true)
    else if is_e then Some (NExp, a)
    else None
  | NExp =>
    if c =? 43 then Some (NExpSign, a)
    else if c =? 45 then Some (NExpSign, with_exp_neg a)
    else if is_digit c then Some (NExpDigits, push_exp_digit a c)
    else None
  | NExpSign => if is_digit c then Some (NExpDigits, push_exp_digit a c) else None
  | NExpDigits => if is_digit c then Some (NExpDigits, push_exp_digit a c) else None
  end.

(** A code unit met between tokens. *)
Definition start_step (c : N) : option (lex_state * list token) :=
  if is_json_space c then Some (LStart, [])
  else if c =? 123 then Some (LStart, [TLBrace])
  else if c =? 125 then Some (LStart, [TRBrace])
  else if c =? 91 then Some (LStart, [TLBracket])
  else if c =? 93 then Some (LStart, [TRBracket])
  else if c =? 58 then Some (LStart, [TColon])
  else if c =? 44 then Some (LStart, [TComma])
  else if c =? 34 then Some (LString [], [])
  else if c =? 116 then Some (LWord (utf16 "rue") TTrue, [])
  else if c =? 102 then Some (LWord (utf16 "alse") TFalse, [])
  else if c =? 110 then Some (LWord (utf16 "ull") TNull, [])
  else if c =? 45 then Some (LNumber NMinus (empty_acc true), [])
  else if c =? 48 then Some (LNumber NZero (empty_acc false), [])
  else if is_digit c then Some (LNumber NInt (push_digit (empty_acc false) c false), [])
  else None.

(** One code unit: the next state and the tokens completed by it. *)
Definition lex_step (st : lex_state) (c : N) : option (lex_state * list token) :=
  match st with
  | LStart => start_step c
  | LString acc =>
    if c =? 34 then Some (LStart, [TString (rev acc)])
    else if c =? 92 then Some (LEscape acc, [])
    else if c <? 32 then None
    else Some (LString (c :: acc), [])
  | LEscape acc =>
    if c =? 34 then Some (LString (34 :: acc), [])
    else if c =? 92 then Some (LString (92 :: acc), [])
    else if c =? 47 then Some (LString (47 :: acc), [])
    else if c =? 98 then Some (LString (8 :: acc), [])
    else if c =? 102 then Some (LString (12 :: acc), [])
    else if c =? 110 then Some (LString (10 :: acc), [])
    else if c =? 114 then Some (LString (13 :: acc), [])
    else if c =? 116 then Some (LString (9 :: acc), [])
    else if c =? 117 then Some (LUnicode acc 4 0, [])
    else None
  | LUnicode acc todo v =>
    match hex_value c with
    | None => None
    | Some h =>
      match todo with
      | 1%nat => Some (LString ((v * 16 + h) :: acc), [])
      | S k => Some (LUnicode acc k (v * 16 + h), [])
      | O => None
      end
    end
  | LWord rest t =>
    match rest with
    | [d] => if c =? d then Some (LStart, [t]) else None
    | d :: rest' => if c =? d then Some (LWord rest' t, []) else None
    | [] => None
    end
  | LNumber p a =>
    match num_step p a c with
    | Some (p', a') => Some (LNumber p' a', [])
    | None =>
      if num_accepting p then
        match start_step c with
        | Some (st', ts) => Some (st', TNumber (finish_number a) :: ts)
        | None => None
        end
      else None
    end
  end.

Fixpoint lex_from (st : lex_state) (s : jsstring) : option (list token) :=
  match s with
  | [] =>
    match st with
    | LStart => Some []
    | LNumber p a => if num_accepting p then Some [TNumber (finish_number a)] else None
    | _ => None
    end
  | c :: s' =>
    match lex_step st c with
    | None => None
    | Some (st', ts) =>
      match lex_from st' s' with
      | None => None
      | Some rest => Some (ts ++ rest)
      end
    end
  end.

Definition lex (s : jsstring) : option (list token) := lex_from LStart s.

(** The containers that are open around the value being read. *)
Inductive context :=
| CArray (done : list JSON)                               (* elements so far, reversed *)
| CObject (done : list (jsstring * JSON)) (key : jsstring). (* members so far, reversed, and the key awaiting its value *)

Inductive parse_state :=
| PValue (stack : list context)                 (* a value must follow *)
| PArrayOpen (stack : list context)             (* after [[]: a value or []] *)
| PObjectOpen (stack : list context)            (* after [{]: a key or [}] *)
| PAfterElement (done : list JSON) (stack : list context)
| PKey (done : list (jsstring * JSON)) (stack : list context)
| PColon (done : list (jsstring * JSON)) (key : jsstring) (stack : list context)
| PAfterMember (done : list (jsstring * JSON)) (stack : list context)
| PDone (v : JSON).

(** A value is complete: it goes into the innermost open container. *)
Definition complete (v : JSON) (stack : list context) : parse_state :=
  match stack with
  | [] => PDone v
  | CArray done :: stack' => PAfterElement (v :: done) stack'
  | CObject done key :: stack' => PAfterMember ((key, v) :: done) stack'
  end.

(** A token where a value must start. *)
Definition value_step (t : token) (stack : list context) : option parse_state :=
  match t with
  | TLBracket => Some (PArrayOpen stack)
  | TLBrace => Some (PObjectOpen stack)
  | TString s => Some (complete (JString s) stack)
  | TNumber n => Some (complete (JNumber n) stack)
  | TTrue => Some (complete (JBool true) stack)
  | TFalse => Some (complete (JBool false) stack)
  | TNull => Some (complete JNull stack)
  | TRBrace | TRBracket | TColon | TComma => None
  end.

Definition parse_step (st : parse_state) (t : token) : option parse_state :=
  match st with
  | PValue stack => value_step t stack
  | PArrayOpen stack =>
    match t with
    | TRBracket => Some (complete (JArray []) stack)
    | _ => value_step t (CArray [] :: stack)
    end
  | PAfterElement done stack =>
    match t with
    | TComma => Some (PValue (CArray done :: stack))
    | TRBracket => Some (complete (JArray (rev done)) stack)
    | _ => None
    end
  | PObjectOpen stack =>
    match t with
    | TRBrace => Some (complete (JObject []) stack)
    | TString k => Some (PColon [] k stack)
    | _ => None
    end
  | PKey done stack =>
    match t with
    | TString k => Some (PColon done k stack)
    | _ => None
    end
  | PColon done key stack =>
    match t with
    | TColon => Some (PValue (CObject done key :: stack))
    | _ => None
    end
  | PAfterMember done stack =>
    match t with
    | TComma => Some (PKey done stack)
    | TRBrace => Some (complete (JObject (rev done)) stack)
    | _ => None
    end
  | PDone _ => None
  end.

Fixpoint parse_from (st : parse_state) (ts : list token) : option JSON :=
  match ts with
  | [] =>
    match st with
    | PDone v => Some v
    | _ => None
    end
  | t :: ts' =>
    match parse_step st t with
    | None => None
    | Some st' => parse_from st' ts'
    end
  end.

End Json.

(** [JSON.parse(text)]; [None] stands for the SyntaxError it throws. *)
Definition JSON_parse (text : jsstring) : option JSON :=
  match Json.lex text with
  | None => None
  | Some ts => Json.parse_from (Json.PValue []) ts
  end.

(** ** The log level of a message *)

Definition ALL_LOG_LEVELS : list jsstring :=
  [utf16 "DEBUG"; utf16 "INFO"; utf16 "WARN"; utf16 "ERROR"; utf16 "FATAL"].

(** The class [\w] of the pattern: letters, digits and the underscore. *)
Definition is_word_char (c : N) : bool :=
  ((65 <=? c) && (c <=? 90)) || ((97 <=? c) && (c <=? 122))
  || ((48 <=? c) && (c <=? 57)) || (c =? 95).

(** Case folding of the [i] flag: a lower-case letter becomes its capital
    and no code unit from 128 on is folded onto a letter below 128. *)
Definition canonicalize (c : N) : N :=
  if (97 <=? c) && (c <=? 122) then c - 32 else c.

(** [\b]: exactly one of the two neighbours is a word character; beyond
    either end of the text there is none. *)
Definition word_boundary (before after : option N) : bool :=
  xorb (from_option is_word_char false before) (from_option is_word_char false after).

(** One alternative of the group tried at the head of [s]: the code units
    it captures and the text left, when [s] starts with [tok] up to case. *)
Fixpoint match_ignore_case (tok s : jsstring) : option (jsstring * jsstring) :=
  match tok with
  | [] => Some ([], s)
  | t :: tok' =>
    match s with
    | [] => None
    | c :: s' =>
      if canonicalize c =? canonicalize t then
        match match_ignore_case tok' s' with
        | Some (captured, rest) => Some (c :: captured, rest)
        | None => None
        end
      else None
    end
  end.

(** The alternatives in order, each followed by the closing [\b]. *)
Fixpoint match_group (toks : list jsstring) (before : option N) (s : jsstring) : option jsstring :=
  match toks with
  | [] => None
  | tok :: toks' =>
    match match_ignore_case tok s with
    | Some (captured, rest) =>
      if word_boundary (List.last (map Some captured) before) (head rest)
      then Some captured
      else match_group toks' before s
    | None => match_group toks' before s
    end
  end.

(** The pattern tried at every position from the left; [before] is the code
    unit in front of [s]. *)
Fixpoint regexp_exec (before : option N) (s : jsstring) : option jsstring :=
  let here :=
    if word_boundary before (head s) then match_group ALL_LOG_LEVELS before s else None in
  match here with
  | Some captured => Some captured
  | None =>
    match s with
    | [] => None
    | c :: s' => regexp_exec (Some c) s'
    end
  end.

(** [toUpperCase] on the text captured by the group, which holds letters
    below 128 only. *)
Definition toUpperCase (s : jsstring) : jsstring := map canonicalize s.

(** [parseLogLevel]: the match of [/\b(DEBUG|INFO|WARN|ERROR|FATAL)\b/i],
    capitalised.  The argument is a string at every call, so the [typeof]
    guard of the source never answers.  *)
Definition parseLogLevel (logMessage : jsstring) : option jsstring :=
  match regexp_exec None logMessage with
  | Some captured => Some (toUpperCase captured)
  | None => None
  end.

(** ** Events and the event log *)

Inductive EventType := initial | create | update | delete | log | shutdown | error.

Record InstanceEvent := {
  type : EventType;
  data : JSON;
  instanceDetails : option JSON;
  level : option jsstring;
  timestamp : JSON
}.

Definition RECONNECT_DELAY_MS : nat := 5000.

Definition STATUS_MESSAGE_KEYWORDS : list jsstring :=
  [utf16 "正在初始化"; utf16 "错误"; utf16 "已连接"; utf16 "已禁用"; utf16 "无法建立";
   utf16 "服务器关闭"; utf16 "事件流连接已由服务器关闭"; utf16 "连接已断开"].

(** [typeof d === 'string' && STATUS_MESSAGE_KEYWORDS.some(kw => d.includes(kw))] *)
Definition is_status_message (d : JSON) : bool :=
  match d with
  | JString s => existsb (fun kw => includes s kw) STATUS_MESSAGE_KEYWORDS
  | _ => false
  end.

(** [a.slice(0, n)] *)
Definition slice0 {A} (n : nat) (a : list A) : list A := take n a.

(** The update [addEventToLog] applies to the log. *)
Definition addEventToLog (newEvent : InstanceEvent) (prevEvents : list InstanceEvent)
  : list InstanceEvent :=
  let filteredPrevEvents :=
    if is_status_message (data newEvent)
    then List.filter (fun e => negb (is_status_message (data e))) prevEvents
    else prevEvents in
  newEvent :: slice0 199 filteredPrevEvents.

(** The own property [key] of a parsed value, for values other than
    [null]: what [get_property] answers without throwing. *)
Definition own_property (payload : JSON) (key : jsstring) : option JSON :=
  match payload with
  | JObject members => lookup_member key members
  | _ => None
  end.

(** The string each event type is in the source. *)
Definition type_name (t : EventType) : jsstring :=
  match t with
  | initial => utf16 "initial"
  | create => utf16 "create"
  | update => utf16 "update"
  | delete => utf16 "delete"
  | log => utf16 "log"
  | shutdown => utf16 "shutdown"
  | error => utf16 "error"
  end.

(** ** What the component takes from its surroundings

    [getEventsUrl] is imported from [@/lib/api]; the other members are
    services of the JavaScript platform whose results the component only
    passes on. *)

Class Host := {
  getEventsUrl : jsstring -> jsstring;
  toLowerCase : jsstring -> jsstring;        (* String.prototype.toLowerCase *)
  JSON_stringify : JSON -> jsstring;         (* JSON.stringify *)
  ToString : JSON -> jsstring;               (* a value inside a template literal *)
  clock : nat -> jsstring                    (* the k-th [new Date().toISOString()] *)
}.

(** A non-negative integer inside a template literal. *)
Fixpoint uint_digits (u : Decimal.uint) : jsstring :=
  match u with
  | Decimal.Nil => []
  | Decimal.D0 r => 48 :: uint_digits r
  | Decimal.D1 r => 49 :: uint_digits r
  | Decimal.D2 r => 50 :: uint_digits r
  | Decimal.D3 r => 51 :: uint_digits r
  | Decimal.D4 r => 52 :: uint_digits r
  | Decimal.D5 r => 53 :: uint_digits r
  | Decimal.D6 r => 54 :: uint_digits r
  | Decimal.D7 r => 55 :: uint_digits r
  | Decimal.D8 r => 56 :: uint_digits r
  | Decimal.D9 r => 57 :: uint_digits r
  end.

Definition Number_toString (n : nat) : jsstring := uint_digits (Nat.to_uint n).

(** ** The state of the component *)

(** The props: each is a string or [null]. *)
Record EventLogProps := {
  apiId : option jsstring;
  apiRoot : option jsstring;
  apiToken : option jsstring;
  apiName : option jsstring
}.

(** Truthiness of a prop: [null] and the empty string are falsy. *)
Definition present (x : option jsstring) : bool :=
  match x with
  | Some (_ :: _) => true
  | _ => false
  end.

Inductive UiConnectionStatus :=
| ui_connecting | ui_connected | ui_disconnected | ui_error | ui_idle.

(** A timer made by [setTimeout]; the callback of every timer of the
    component is [connectWithFetch(false)].  A timer is named by its place
    in the list of the timers made so far, and the handle [setTimeout]
    returns is truthy. *)
Inductive Timer := Pending (delay : nat) | Cleared | Fired.

(** The state hooks, the refs, and the objects the refs point to: the
    [AbortController]s (each with the [aborted] flag of its signal) and the
    timers, both named by the order of their creation.  A state setter is
    applied at once.  The retry counter is a JavaScript number, exact on the
    integers below 2^53, which no count of retries comes near.
    [clock_reads] counts the readings of the clock. *)
Record Session := {
  events : list InstanceEvent;
  isConnected : bool;
  isConnecting : bool;
  uiConnectionStatus : UiConnectionStatus;
  abortControllerRef : option nat;
  reconnectTimeoutRef : option nat;
  retryCountRef : nat;
  hasLoggedInitialConnectionRef : bool;
  currentApiIdRef : option jsstring;
  controllers : list bool;
  timers : list Timer;
  clock_reads : nat
}.

Definition setEvents (f : list InstanceEvent -> list InstanceEvent) (st : Session) : Session :=
  {| events := f (events st); isConnected := isConnected st; isConnecting := isConnecting st;
     uiConnectionStatus := uiConnectionStatus st; abortControllerRef := abortControllerRef st;
     reconnectTimeoutRef := reconnectTimeoutRef st; retryCountRef := retryCountRef st;
     hasLoggedInitialConnectionRef := hasLoggedInitialConnectionRef st;
     currentApiIdRef := currentApiIdRef st; controllers := controllers st;
     timers := timers st; clock_reads := clock_reads st |}.

Definition setIsConnected (b : bool) (st : Session) : Session :=
  {| events := events st; isConnected := b; isConnecting := isConnecting st;
     uiConnectionStatus := uiConnectionStatus st; abortControllerRef := abortControllerRef st;
     reconnectTimeoutRef := reconnectTimeoutRef st; retryCountRef := retryCountRef st;
     hasLoggedInitialConnectionRef := hasLoggedInitialConnectionRef st;
     currentApiIdRef := currentApiIdRef st; controllers := controllers st;
     timers := timers st; clock_reads := clock_reads st |}.

Definition setIsConnecting (b : bool) (st : Session) : Session :=
  {| events := events st; isConnected := isConnected st; isConnecting := b;
     uiConnectionStatus := uiConnectionStatus st; abortControllerRef := abortControllerRef st;
     reconnectTimeoutRef := reconnectTimeoutRef st; retryCountRef := retryCountRef st;
     hasLoggedInitialConnectionRef := hasLoggedInitialConnectionRef st;
     currentApiIdRef := currentApiIdRef st; controllers := controllers st;
     timers := timers st; clock_reads := clock_reads st |}.

Definition setUiConnectionStatus (u : UiConnectionStatus) (st : Session) : Session :=
  {| events := events st; isConnected := isConnected st; isConnecting := isConnecting st;
     uiConnectionStatus := u; abortControllerRef := abortControllerRef st;
     reconnectTimeoutRef := reconnectTimeoutRef st; retryCountRef := retryCountRef st;
     hasLoggedInitialConnectionRef := hasLoggedInitialConnectionRef st;
     currentApiIdRef := currentApiIdRef st; controllers := controllers st;
     timers := timers st; clock_reads := clock_reads st |}.

Definition set_abortControllerRef (r : option nat) (st : Session) : Session :=
  {| events := events st; isConnected := isConnected st; isConnecting := isConnecting st;
     uiConnectionStatus := uiConnectionStatus st; abortControllerRef := r;
     reconnectTimeoutRef := reconnectTimeoutRef st; retryCountRef := retryCountRef st;
     hasLoggedInitialConnectionRef := hasLoggedInitialConnectionRef st;
     currentApiIdRef := currentApiIdRef st; controllers := controllers st;
     timers := timers st; clock_reads := clock_reads st |}.

Definition set_reconnectTimeoutRef (r : option nat) (st : Session) : Session :=
  {| events := events st; isConnected := isConnected st; isConnecting := isConnecting st;
     uiConnectionStatus := uiConnectionStatus st; abortControllerRef := abortControllerRef st;
     reconnectTimeoutRef := r; retryCountRef := retryCountRef st;
     hasLoggedInitialConnectionRef := hasLoggedInitialConnectionRef st;
     currentApiIdRef := currentApiIdRef st; controllers := controllers st;
     timers := timers st; clock_reads := clock_reads st |}.

Definition set_retryCountRef (n : nat) (st : Session) : Session :=
  {| events := events st; isConnected := isConnected st; isConnecting := isConnecting st;
     uiConnectionStatus := uiConnectionStatus st; abortControllerRef := abortControllerRef st;
     reconnectTimeoutRef := reconnectTimeoutRef st; retryCountRef := n;
     hasLoggedInitialConnectionRef := hasLoggedInitialConnectionRef st;
     currentApiIdRef := currentApiIdRef st; controllers := controllers st;
     timers := timers st; clock_reads := clock_reads st |}.

Definition set_hasLoggedInitialConnectionRef (b : bool) (st : Session) : Session :=
  {| events := events st; isConnected := isConnected st; isConnecting := isConnecting st;
     uiConnectionStatus := uiConnectionStatus st; abortControllerRef := abortControllerRef st;
     reconnectTimeoutRef := reconnectTimeoutRef st; retryCountRef := retryCountRef st;
     hasLoggedInitialConnectionRef := b;
     currentApiIdRef := currentApiIdRef st; controllers := controllers st;
     timers := timers st; clock_reads := clock_reads st |}.

Definition set_currentApiIdRef (r : option jsstring) (st : Session) : Session :=
  {| events := events st; isConnected := isConnected st; isConnecting := isConnecting st;
     uiConnectionStatus := uiConnectionStatus st; abortControllerRef := abortControllerRef st;
     reconnectTimeoutRef := reconnectTimeoutRef st; retryCountRef := retryCountRef st;
     hasLoggedInitialConnectionRef := hasLoggedInitialConnectionRef st;
     currentApiIdRef := r; controllers := controllers st;
     timers := timers st; clock_reads := clock_reads st |}.

Definition set_controllers (c : list bool) (st : Session) : Session :=
  {| events := events st; isConnected := isConnected st; isConnecting := isConnecting st;
     uiConnectionStatus := uiConnectionStatus st; abortControllerRef := abortControllerRef st;
     reconnectTimeoutRef := reconnectTimeoutRef st; retryCountRef := retryCountRef st;
     hasLoggedInitialConnectionRef := hasLoggedInitialConnectionRef st;
     currentApiIdRef := currentApiIdRef st; controllers := c;
     timers := timers st; clock_reads := clock_reads st |}.

Definition set_timers (t : list Timer) (st : Session) : Session :=
  {| events := events st; isConnected := isConnected st; isConnecting := isConnecting st;
     uiConnectionStatus := uiConnectionStatus st; abortControllerRef := abortControllerRef st;
     reconnectTimeoutRef := reconnectTimeoutRef st; retryCountRef := retryCountRef st;
     hasLoggedInitialConnectionRef := hasLoggedInitialConnectionRef st;
     currentApiIdRef := currentApiIdRef st; controllers := controllers st;
     timers := t; clock_reads := clock_reads st |}.

Definition set_clock_reads (n : nat) (st : Session) : Session :=
  {| events := events st; isConnected := isConnected st; isConnecting := isConnecting st;
     uiConnectionStatus := uiConnectionStatus st; abortControllerRef := abortControllerRef st;
     reconnectTimeoutRef := reconnectTimeoutRef st; retryCountRef := retryCountRef st;
     hasLoggedInitialConnectionRef := hasLoggedInitialConnectionRef st;
     currentApiIdRef := currentApiIdRef st; controllers := controllers st;
     timers := timers st; clock_reads := n |}.

(** The component as it mounts. *)
Definition mount : Session :=
  {| events := []; isConnected := false; isConnecting := false;
     uiConnectionStatus := ui_idle; abortControllerRef := None;
     reconnectTimeoutRef := None; retryCountRef := 0;
     hasLoggedInitialConnectionRef := false; currentApiIdRef := None;
     controllers := []; timers := []; clock_reads := 0 |}.

(** [signal.aborted] of the controller [c]. *)
Definition aborted (st : Session) (c : nat) : bool :=
  default false (controllers st !! c).

(** [if (abortControllerRef.current && !abortControllerRef.current.signal.aborted)
      abortControllerRef.current.abort(...)] *)
Definition abort_current (st : Session) : Session :=
  match abortControllerRef st with
  | Some c => if aborted st c then st else set_controllers (<[c := true]> (controllers st)) st
  | None => st
  end.

(** [clearTimeout(t)]: a timer still pending is struck out. *)
Definition clearTimeout (t : nat) (st : Session) : Session :=
  match timers st !! t with
  | Some (Pending _) => set_timers (<[t := Cleared]> (timers st)) st
  | _ => st
  end.

(** [if (reconnectTimeoutRef.current) { clearTimeout(reconnectTimeoutRef.current);
      reconnectTimeoutRef.current = null; }] *)
Definition clear_reconnect_timeout (st : Session) : Session :=
  match reconnectTimeoutRef st with
  | Some t => set_reconnectTimeoutRef None (clearTimeout t st)
  | None => st
  end.

(** A value thrown or a rejection reason, as the [catch] block reads it:
    [error.name] and [error.message], either of which may be undefined (an
    abort reason given as a string has neither). *)
Record JsError := { error_name : option jsstring; error_message : option jsstring }.

(** [new Error(text)] *)
Definition new_Error (text : jsstring) : JsError :=
  {| error_name := Some (utf16 "Error"); error_message := Some text |}.

(** [error.message || "未知错误"] *)
Definition reason_of (e : JsError) : jsstring :=
  match error_message e with
  | Some (c :: m) => c :: m
  | _ => utf16 "未知错误"
  end.

(** Where a call of [connectWithFetch] is suspended. *)
Inductive Task :=
| AwaitingFetch (signal : nat)
| AwaitingText (signal : nat) (status : nat) (statusText : jsstring)
| AwaitingRead (signal : nat) (buffer : jsstring).

(** What [await fetch(...)] resumes with. *)
Inductive FetchResult :=
| FetchResponse (ok : bool) (status : nat) (statusText : jsstring) (hasBody : bool)
| FetchRejected (e : JsError).

(** What [await response.text()] resumes with. *)
Inductive TextResult :=
| TextResolved (errorText : jsstring)
| TextRejected (e : JsError).

(** What [await reader.read()] resumes with; a chunk is given as the text
    [decoder.decode(value, { stream: true })] returns for it. *)
Inductive ReadResult :=
| ReadChunk (text : jsstring)
| ReadDone
| ReadRejected (e : JsError).

(** [{ type: 'log', data: text, timestamp: now, level }] *)
Definition log_event (text : jsstring) (lvl : option jsstring) (now : jsstring) : InstanceEvent :=
  {| type := log; data := JString text; instanceDetails := None; level := lvl;
     timestamp := JString now |}.

(** The [case] labels of the [switch] on [serverEventPayload.type]; [None]
    is the [default] branch. *)
Definition switch_type (t : option JSON) : option EventType :=
  match t with
  | Some (JString s) =>
    if str_eqb s (utf16 "initial") then Some initial
    else if str_eqb s (utf16 "create") then Some create
    else if str_eqb s (utf16 "update") then Some update
    else if str_eqb s (utf16 "delete") then Some delete
    else if str_eqb s (utf16 "log") then Some log
    else if str_eqb s (utf16 "shutdown") then Some shutdown
    else None
  | _ => None
  end.

(** The scan of the lines of a block for [event:] and [data:]. *)
Definition scan_lines (messageBlock : jsstring) : jsstring * jsstring :=
  fold_left
    (fun (acc : jsstring * jsstring) (line : jsstring) =>
       let (eventTypeFromServer, eventDataLine) := acc in
       if startsWith line (utf16 "event:")
       then (trim (substring_from line (length (utf16 "event:"))), eventDataLine)
       else if startsWith line (utf16 "data:")
       then (eventTypeFromServer, trim (substring_from line (length (utf16 "data:"))))
       else acc)
    (split messageBlock LF) (utf16 "message", []).

Section Component.

Context `{Host}.

(** [new Date().toISOString()] *)
Definition Date_now (st : Session) : jsstring * Session :=
  (clock (clock_reads st), set_clock_reads (S (clock_reads st)) st).

(** [addEventToLog({ type: 'log', data: text, timestamp: new Date().toISOString(), level })] *)
Definition add_log (text : jsstring) (lvl : option jsstring) (st : Session) : Session :=
  let (now, st1) := Date_now st in
  setEvents (addEventToLog (log_event text lvl now)) st1.

(** A value inside a template literal. *)
Definition template (v : option JSON) : jsstring :=
  match v with
  | Some j => ToString j
  | None => utf16 "undefined"
  end.

(** [typeof d === 'string' ? parseLogLevel(d) : undefined] *)
Definition level_of (d : JSON) : option jsstring :=
  match d with
  | JString s => parseLogLevel s
  | _ => None
  end.

(** The body of the [try] of [processSseMessageData]; [None] when it
    throws, which it can do only before anything is changed. *)
Definition try_decode (eventDataLine : jsstring) (st : Session) : option Session :=
  serverEventPayload ← JSON_parse eventDataLine;
  instanceDetailsPayload ← get_property serverEventPayload (utf16 "instance");
  payload_type ← get_property serverEventPayload (utf16 "type");
  payload_data ← get_property serverEventPayload (utf16 "data");
  payload_logs ← get_property serverEventPayload (utf16 "logs");
  payload_time ← get_property serverEventPayload (utf16 "time");
  let '(frontendEventType, frontendEventData, parsedLevel, st1) :=
    match switch_type payload_type with
    | Some ((initial | create | update | delete) as lifecycle) =>
      (lifecycle, or_else (or_opt instanceDetailsPayload payload_data) (JObject []), None, st)
    | Some log =>
      let d := or_else payload_logs
                 (JString (utf16 "日志事件，但缺少 .logs 字段: " ++ JSON_stringify serverEventPayload)) in
      (log, d, level_of d, st)
    | Some shutdown =>
      (shutdown, JString (utf16 "主控服务即将关闭。事件流已停止。"), None, abort_current st)
    | Some error | None =>
      let d := JString (utf16 "未知事件 " ++ template payload_type ++ utf16 ": "
                        ++ JSON_stringify
                             (or_else (or_opt payload_data instanceDetailsPayload)
                                serverEventPayload)) in
      (log, d, level_of d, st)
    end in
  let (time, st2) :=
    if truthy_opt payload_time then (default JNull payload_time, st1)
    else let (now, st') := Date_now st1 in (JString now, st') in
  Some (setEvents
          (addEventToLog
             {| type := frontendEventType; data := frontendEventData;
                instanceDetails := instanceDetailsPayload; level := parsedLevel;
                timestamp := time |})
          st2).

Definition processSseMessageData (messageBlock : jsstring) (st : Session) : Session :=
  let (eventTypeFromServer, eventDataLine) := scan_lines messageBlock in
  if str_eqb eventTypeFromServer (utf16 "instance") && negb (str_eqb eventDataLine []) then
    match try_decode eventDataLine st with
    | Some st' => st'
    | None => add_log (utf16 "解析事件错误 (fetch): " ++ eventDataLine) None st
    end
  else if negb (str_eqb eventDataLine []) then
    if startsWith eventDataLine (utf16 "retry:") then st
    else add_log (utf16 "通用消息 (fetch): " ++ eventDataLine) None st
  else st.

(** [apiId && apiRoot && apiToken && apiName] *)
Definition identity_valid (p : EventLogProps) : bool :=
  present (apiId p) && present (apiRoot p) && present (apiToken p) && present (apiName p).

Definition corsHint (reason : jsstring) : jsstring :=
  if includes (toLowerCase reason) (utf16 "failed to fetch")
     || includes (toLowerCase reason) (utf16 "networkerror")
  then utf16 "这通常由于目标服务器的CORS策略阻止了请求 (缺少 Access-Control-Allow-Origin 头部), 或网络连接问题。"
  else [].

(** [apiRoot ? getEventsUrl(apiRoot) : '未知目标'] *)
Definition eventsUrl_or_unknown (p : EventLogProps) : jsstring :=
  if present (apiRoot p) then getEventsUrl (default [] (apiRoot p)) else utf16 "未知目标".

(** The text [scheduleReconnect] composes for the log;
    [RECONNECT_DELAY_MS / 1000] is the exact quotient 5. *)
Definition uiErrorMessage (p : EventLogProps) (reason : jsstring) (retry : nat) : jsstring :=
  let eventsUrl := eventsUrl_or_unknown p in
  if startsWith reason (utf16 "服务器关闭") then
    utf16 "事件流连接已由服务器关闭。" ++ Number_toString (RECONNECT_DELAY_MS / 1000)
    ++ utf16 "秒后尝试第 " ++ Number_toString retry ++ utf16 " 次重连... (目标: "
    ++ eventsUrl ++ utf16 ")"
  else
    utf16 "无法建立 SSE 连接 (fetch) 到 " ++ eventsUrl ++ utf16 ". 原因: "
    ++ substring reason 0 100 ++ utf16 "... " ++ corsHint reason ++ utf16 " "
    ++ Number_toString (RECONNECT_DELAY_MS / 1000) ++ utf16 "秒后尝试第 "
    ++ Number_toString retry ++ utf16 " 次重连...".

(** [setTimeout(() => connectWithFetch(false), delay)]: the new timer. *)
Definition setTimeout (delay : nat) (st : Session) : nat * Session :=
  (length (timers st), set_timers (timers st ++ [Pending delay]) st).

Definition scheduleReconnect (p : EventLogProps) (reason : jsstring) (st : Session) : Session :=
  if match abortControllerRef st with
     | Some c => aborted st c
     | None => false
     end
  then st
  else
    let st := set_retryCountRef (S (retryCountRef st)) st in
    let st := setIsConnected false st in
    let st := setUiConnectionStatus ui_disconnected st in
    let st :=
      if (1 <? retryCountRef st)%nat
      then add_log (uiErrorMessage p reason (retryCountRef st)) (Some (utf16 "ERROR")) st
      else st in
    let st :=
      match reconnectTimeoutRef st with
      | Some t => clearTimeout t st
      | None => st
      end in
    let (t, st) := setTimeout RECONNECT_DELAY_MS st in
    set_reconnectTimeoutRef (Some t) st.

(** The [catch] block of [connectWithFetch]. *)
Definition catch_block (p : EventLogProps) (signal : nat) (e : JsError) (st : Session) : Session :=
  let st := setIsConnected false st in
  let st := setIsConnecting false st in
  if aborted st signal && bool_decide (error_name e = Some (utf16 "AbortError")) then st
  else if negb (aborted st signal) then
    scheduleReconnect p (reason_of e) st
  else st.

(** [connectWithFetch] up to [await fetch(...)]. *)
Definition connectWithFetch (p : EventLogProps) (isInitialAttemptForCurrentApi : bool)
    (st : Session) : Session * option Task :=
  if negb (identity_valid p) then
    (add_log (utf16 "API 配置无效，事件流禁用。") None (setUiConnectionStatus ui_idle st), None)
  else
    let st := abort_current st in
    let signal := length (controllers st) in
    let st := set_abortControllerRef (Some signal) (set_controllers (controllers st ++ [false]) st) in
    let eventsUrl := getEventsUrl (default [] (apiRoot p)) in
    let st :=
      if isInitialAttemptForCurrentApi then
        add_log (utf16 "正在初始化事件流 (fetch) 到 " ++ eventsUrl ++ utf16 " (携带 X-API-Key)...") None
          (setUiConnectionStatus ui_connecting (setIsConnecting true st))
      else st in
    let st := clear_reconnect_timeout st in
    (st, Some (AwaitingFetch signal)).

(** From the answer of [fetch] to the first [reader.read()]. *)
Definition after_fetch (p : EventLogProps) (signal : nat) (r : FetchResult) (st : Session)
  : Session * option Task :=
  match r with
  | FetchRejected e => (catch_block p signal e st, None)
  | FetchResponse ok status statusText hasBody =>
    if negb ok then (st, Some (AwaitingText signal status statusText))
    else if negb hasBody then
      (catch_block p signal (new_Error (utf16 "响应体为空，无法读取事件流。")) st, None)
    else
      let st := setIsConnected true st in
      let st := setIsConnecting false st in
      let st := setUiConnectionStatus ui_connected st in
      let st := set_retryCountRef 0 st in
      let st :=
        if negb (hasLoggedInitialConnectionRef st) then
          set_hasLoggedInitialConnectionRef true
            (add_log (utf16 "事件流 (fetch) 已连接。等待事件... (目标: "
                      ++ getEventsUrl (default [] (apiRoot p)) ++ utf16 ")") None st)
        else st in
      (st, Some (AwaitingRead signal []))
  end.

(** The response was not [ok]: its text is read and the error thrown. *)
Definition after_text (p : EventLogProps) (signal : nat) (status : nat) (statusText : jsstring)
    (r : TextResult) (st : Session) : Session :=
  match r with
  | TextRejected e => catch_block p signal e st
  | TextResolved errorText =>
    catch_block p signal
      (new_Error (utf16 "HTTP错误 " ++ Number_toString status ++ utf16 ": " ++ statusText
                  ++ utf16 ". 详情: " ++ substring errorText 0 200)) st
  end.

(** [for (const block of messageBlocks) if (block.trim() !== '') processSseMessageData(block)] *)
Definition process_blocks (messageBlocks : list jsstring) (st : Session) : Session :=
  fold_left
    (fun st block => if negb (str_eqb (trim block) []) then processSseMessageData block st else st)
    messageBlocks st.

(** One turn of the read loop, from the answer of [reader.read()] on; the
    loop goes on with the new [buffer] or ends. *)
Definition after_read (p : EventLogProps) (signal : nat) (buffer : jsstring) (r : ReadResult)
    (st : Session) : Session * option Task :=
  match r with
  | ReadRejected e => (catch_block p signal e st, None)
  | ReadDone =>
    if aborted st signal then (st, None)
    else
      let st := setIsConnected false st in
      (if negb (aborted st signal) then scheduleReconnect p (utf16 "服务器关闭") st else st, None)
  | ReadChunk text =>
    if aborted st signal then (st, None)
    else
      let buffer := buffer ++ text in
      let messageBlocks := split buffer (LF ++ LF) in
      let buffer := pop_or_empty messageBlocks in
      let messageBlocks := removelast messageBlocks in
      (process_blocks messageBlocks st, Some (AwaitingRead signal buffer))
  end.

(** A suspended call resumed by what it awaited. *)
Inductive Resumption :=
| ByFetch (r : FetchResult)
| ByText (r : TextResult)
| ByRead (r : ReadResult).

Definition resume (p : EventLogProps) (task : Task) (r : Resumption) (st : Session)
  : Session * option Task :=
  match task, r with
  | AwaitingFetch signal, ByFetch r => after_fetch p signal r st
  | AwaitingText signal status statusText, ByText r =>
    (after_text p signal status statusText r st, None)
  | AwaitingRead signal buffer, ByRead r => after_read p signal buffer r st
  | _, _ => (st, Some task)
  end.

(** The read loop over the successive answers of [reader.read()]. *)
Fixpoint read_loop (p : EventLogProps) (signal : nat) (buffer : jsstring)
    (rs : list ReadResult) (st : Session) : Session * option Task :=
  match rs with
  | [] => (st, Some (AwaitingRead signal buffer))
  | r :: rs' =>
    match after_read p signal buffer r st with
    | (st', Some (AwaitingRead signal' buffer')) => read_loop p signal' buffer' rs' st'
    | (st', other) => (st', other)
    end
  end.

(** A timer comes due: its callback runs [connectWithFetch(false)]. *)
Definition timer_fires (p : EventLogProps) (t : nat) (st : Session) : Session * option Task :=
  match timers st !! t with
  | Some (Pending _) => connectWithFetch p false (set_timers (<[t := Fired]> (timers st)) st)
  | _ => (st, None)
  end.

(** The body of the effect that runs on mount and whenever a prop changes.
    [isConnected] and [isConnecting] are the values of the two state hooks
    in the render that made the effect, which its closure holds together
    with the props; the refs are read as they are when the effect runs. *)
Definition useEffect_body (p : EventLogProps) (isConnected isConnecting : bool) (st : Session)
  : Session * option Task :=
  if identity_valid p then
    if bool_decide (currentApiIdRef st ≠ apiId p) then
      let st := abort_current st in
      let st := clear_reconnect_timeout st in
      let st := setEvents (fun _ => []) st in
      let st := setIsConnected false st in
      let st := setIsConnecting true st in
      let st := setUiConnectionStatus ui_connecting st in
      let st := set_retryCountRef 0 st in
      let st := set_hasLoggedInitialConnectionRef false st in
      let st := set_currentApiIdRef (apiId p) st in
      connectWithFetch p true st
    else if negb isConnected && negb isConnecting
            && bool_decide (reconnectTimeoutRef st = None) then
      let st := setIsConnecting true st in
      let st := setUiConnectionStatus ui_connecting st in
      let st := set_retryCountRef 0 st in
      connectWithFetch p true st
    else (st, None)
  else
    let st := setEvents (fun _ => []) st in
    let st := setIsConnected false st in
    let st := setIsConnecting false st in
    let st := setUiConnectionStatus ui_idle st in
    let st := abort_current st in
    let st := clear_reconnect_timeout st in
    let st := set_currentApiIdRef None st in
    (st, None).

(** The cleanup the effect returns. *)
Definition useEffect_cleanup (st : Session) : Session :=
  clear_reconnect_timeout (abort_current st).

End Component.

(** ** The component with its suspended calls

    A call of [connectWithFetch] stays suspended at an [await] while other
    callbacks run, and an aborted call may still be resumed later.  A step
    is any callback of the component, run with the props its closure holds
    (and, for the effect, the values of [isConnected] and [isConnecting] it
    holds, which may be those of an earlier render): the effect or its
    cleanup, a timer coming due, or a suspended call resumed by what it
    awaited. *)

Record System := { session : Session; tasks : list Task }.

Definition task_signal (k : Task) : nat :=
  match k with
  | AwaitingFetch signal => signal
  | AwaitingText signal _ _ => signal
  | AwaitingRead signal _ => signal
  end.

(** The system after a callback that left the session and, possibly, a new
    suspended call. *)
Definition spawn (r : Session * option Task) (others : list Task) : System :=
  {| session := fst r; tasks := others ++ option_list (snd r) |}.

Inductive step `{Host} : System -> System -> Prop :=
| step_effect p connected connecting sys :
    step sys (spawn (useEffect_body p connected connecting (session sys)) (tasks sys))
| step_cleanup sys :
    step sys {| session := useEffect_cleanup (session sys); tasks := tasks sys |}
| step_timer p t sys :
    step sys (spawn (timer_fires p t (session sys)) (tasks sys))
| step_resume p i k r sys :
    tasks sys !! i = Some k ->
    step sys (spawn (resume p k r (session sys)) (base.delete i (tasks sys))).

Inductive reachable `{Host} : System -> Prop :=
| reachable_mount : reachable {| session := mount; tasks := [] |}
| reachable_step sys sys' : reachable sys -> step sys sys' -> reachable sys'.

(** What every reachable session satisfies: the ref to the controller
    points to a controller, every controller but that one is aborted, and a
    pending timer is the one the ref to the timer points to. *)
Definition well_formed (st : Session) : Prop :=
  (forall c, abortControllerRef st = Some c -> (c < length (controllers st))%nat)
  /\ (forall c b, controllers st !! c = Some b -> abortControllerRef st <> Some c -> b = true)
  /\ (forall t d, timers st !! t = Some (Pending d) -> reconnectTimeoutRef st = Some t).

(** The part of the session [well_formed] speaks of. *)
Definition connection (st : Session) : option nat * list bool * option nat * list Timer :=
  (abortControllerRef st, controllers st, reconnectTimeoutRef st, timers st).

(** [st'] comes after [st]: it is well formed if [st] is, and holds at
    least the controllers of [st]. *)
Definition follows (st st' : Session) : Prop :=
  (well_formed st -> well_formed st')
  /\ (length (controllers st) <= length (controllers st'))%nat.

(** A system is in order when its session is well formed and the signal
    of every suspended call is that of a controller. *)
Definition in_order (sys : System) : Prop :=
  well_formed (session sys)
  /\ Forall (fun k => (task_signal k < length (controllers (session sys)))%nat) (tasks sys).

(** The event a parsed payload other than [null] is turned into: its type,
    data and level, beside the [instance] field it always carries. *)
Definition decoded `{Host} (j : JSON) : EventType * JSON * option jsstring :=
  let inst := own_property j (utf16 "instance") in
  let dat := own_property j (utf16 "data") in
  match switch_type (own_property j (utf16 "type")) with
  | Some ((initial | create | update | delete) as lifecycle) =>
    (lifecycle, or_else (or_opt inst dat) (JObject []), None)
  | Some log =>
    let d := or_else (own_property j (utf16 "logs"))
               (JString (utf16 "日志事件，但缺少 .logs 字段: " ++ JSON_stringify j)) in
    (log, d, level_of d)
  | Some shutdown => (shutdown, JString (utf16 "主控服务即将关闭。事件流已停止。"), None)
  | Some error | None =>
    let d := JString (utf16 "未知事件 " ++ template (own_property j (utf16 "type")) ++ utf16 ": "
                      ++ JSON_stringify (or_else (or_opt dat inst) j)) in
    (log, d, level_of d)
  end.

(** A capital letter. *)
Definition is_upper (c : N) : bool := (65 <=? c) && (c <=? 90).

(** *** The level as the specification words it

    The level is the first whole-word match, whatever the case of its
    letters, of one of the five level names, in capitals; there is none when
    nothing matches.  A word [w] of the text [pre ++ w ++ post] is whole when
    no word character stands next to it on either side. *)

Definition no_word_char (c : option N) : Prop :=
  from_option is_word_char false c = false.

Definition level_word (w : jsstring) : Prop := In (toUpperCase w) ALL_LOG_LEVELS.

Definition whole_word_at (s pre w post : jsstring) : Prop :=
  s = pre ++ w ++ post /\ no_word_char (last pre) /\ no_word_char (head post).

Definition first_level_word (s w : jsstring) : Prop :=
  exists pre post,
    whole_word_at s pre w post /\ level_word w /\
    forall pre' w' post',
      whole_word_at s pre' w' post' -> level_word w' -> (length pre <= length pre')%nat.

Definition level_as_specified (s : jsstring) (lvl : option jsstring) : Prop :=
  match lvl with
  | Some l => exists w, first_level_word s w /\ l = toUpperCase w
  | None => forall pre w post, whole_word_at s pre w post -> ~ level_word w
  end.

(** *** The payload of a life-cycle event as the specification words it:
    the [instance] field when present, else the [data] field when present,
    else an empty object. *)
Definition payload_as_specified (j : JSON) : JSON :=
  match own_property j (utf16 "instance") with
  | Some i => i
  | None =>
    match own_property j (utf16 "data") with
    | Some d => d
    | None => JObject []
    end
  end.

(** A property that is there and truthy, as the left operand of [||] must be
    to be chosen. *)
Definition truthy_property (j : JSON) (key : jsstring) : option JSON :=
  match own_property j key with
  | Some v => if truthy v then Some v else None
  | None => None
  end.

(** The two chunks of a frame cut in the middle of its [data:] line. *)
Definition example_chunk1 : jsstring := utf16 "event: instance" ++ LF ++ utf16 "dat".

Definition example_chunk2 : jsstring :=
  utf16q "a: {'type':'log','logs':'hello'}" ++ LF ++ LF.

(** A reconnection is scheduled by a step from [st] to [st']: the ref
    points to a timer made by the step that is pending with the delay of
    [RECONNECT_DELAY_MS]. *)
Definition reconnection_scheduled (st st' : Session) : Prop :=
  exists t, reconnectTimeoutRef st' = Some t
            /\ timers st !! t = None
            /\ timers st' !! t = Some (Pending RECONNECT_DELAY_MS).



(** An event that is not a status line. *)
Definition plain (e : InstanceEvent) : bool := negb (is_status_message (data e)).

(** ** A host to run the component on concrete inputs

    The theorems below hold for every [Host]; this one serves to evaluate
    the component: the events URL is the root followed by [/events], letters
    below 128 are put in lower case, a value is shown by a fixed token and
    every reading of the clock gives the same instant. *)

Definition sample_host : Host :=
  {| getEventsUrl := fun root => root ++ utf16 "/events";
     toLowerCase := map (fun c => if (65 <=? c) && (c <=? 90) then c + 32 else c);
     JSON_stringify := fun _ => utf16 "{}";
     ToString := fun _ => utf16 "[object Object]";
     clock := fun _ => utf16 "2025-01-01T00:00:00.000Z" |}.

Definition sample_props : EventLogProps :=
  {| apiId := Some (utf16 "api-1");
     apiRoot := Some (utf16 "https://node.example/api");
     apiToken := Some (utf16 "secret");
     apiName := Some (utf16 "node") |}.

(** The session once the sample identity is mounted and [fetch] has
    answered with a readable body: the read loop waits for its first chunk
    on the signal of controller 0. *)
Definition sample_connected : Session :=
  match @useEffect_body sample_host sample_props false false mount with
  | (st, Some (AwaitingFetch signal)) =>
    fst (@after_fetch sample_host sample_props signal (FetchResponse true 200 (utf16 "OK") true) st)
  | (st, _) => st
  end.

(** The sample session with the call suspended in its read loop. *)
Definition sample_system : System :=
  {| session := sample_connected; tasks := [AwaitingRead 0 []] |}.

(** *** Sample frames and runs *)

(** An [instance] frame with the given data line. *)
Definition instance_frame (json : jsstring) : jsstring :=
  utf16 "event: instance" ++ LF ++ utf16 "data: " ++ json.

Definition json_log_hello : jsstring := utf16q "{'type':'log','logs':'hello'}".


Definition json_update_instance : jsstring :=
  utf16q "{'type':'update','instance':{'id':'a1','status':'running'}}".

Definition json_update_zero : jsstring := utf16q "{'type':'update','data':0}".


Definition json_shutdown : jsstring := utf16q "{'type':'shutdown'}".

Definition json_cut_short : jsstring := utf16q "{'type':'lo".


(** The props once the configuration is cleared. *)
Definition cleared_props : EventLogProps :=
  {| apiId := None; apiRoot := None; apiToken := None; apiName := None |}.

Definition sample_event (text : string) : InstanceEvent :=
  log_event (utf16 text) None (utf16 "2025-01-01T00:00:00.000Z").

(** ** Arrays of strings *)

(** [pieces.join(sep)] *)
Fixpoint join (pieces : list jsstring) (sep : jsstring) : jsstring :=
  match pieces with
  | [] => []
  | [p] => p
  | p :: (_ :: _) as ps => p ++ sep ++ join ps sep
  end.

(** ** What the component shows

    The filter of the events, the test for an event that can be expanded
    and the status text of the card, from the same component. *)

#[global] Instance EventType_eq_dec : EqDecision EventType.
Proof. solve_decision. Defined.

(** A [Set], as the list of its members in the order they were added;
    [size > 0] is [negb (is_empty s)]. *)
Definition has {A} `{EqDecision A} (s : list A) (x : A) : bool := bool_decide (x ∈ s).

Definition is_empty {A} (s : list A) : bool :=
  match s with
  | [] => true
  | _ => false
  end.

(** The events shown under the selected event types and log levels. *)
Definition filteredEvents (selectedEventTypes : list EventType)
    (selectedLogLevels : list jsstring) (events : list InstanceEvent) : list InstanceEvent :=
  List.filter
    (fun event =>
       if negb (is_empty selectedEventTypes) && negb (has selectedEventTypes (type event))
       then false
       else if negb (is_empty selectedLogLevels) && bool_decide (type event = log)
       then if negb (present (level event))
               || negb (has selectedLogLevels (default [] (level event)))
            then false
            else true
       else true)
    events.

(** [Object.keys(d).length > 0] for a value with [typeof d === 'object']
    other than [null]: an array has its indices as keys, an object the keys
    of its members. *)
Definition has_keys (d : JSON) : bool :=
  match d with
  | JArray (_ :: _) => true
  | JObject (_ :: _) => true
  | _ => false
  end.

Definition isExpandable (event : InstanceEvent) : bool :=
  if truthy_opt (instanceDetails event) then true
  else if bool_decide (type event = log)
          && match data event with
             | JString s => (100 <? length s)%nat
             | _ => false
             end
  then true
  else if has [initial; create; update; delete] (type event)
          && match data event with
             | JArray _ | JObject _ => true
             | _ => false
             end
          && has_keys (data event)
          && negb (truthy_opt (instanceDetails event))
  then true
  else false.

(** The text beside the title of the card. *)
Definition statusText (p : EventLogProps) (st : Session) : jsstring :=
  if present (apiId p) && present (apiRoot p) && present (apiToken p) then
    match uiConnectionStatus st with
    | ui_connecting => utf16 "连接中..."
    | ui_connected => utf16 "已连接"
    | ui_disconnected | ui_error =>
      if (1 <? retryCountRef st)%nat then utf16 "连接已断开" else utf16 "尝试连接..."
    | ui_idle => utf16 "未连接"
    end
  else utf16 "等待配置...".

(** ** Notions the further properties are stated with *)

(** The suspended calls wait on controllers that differ from one another. *)
Definition distinct_signals (sys : System) : Prop := NoDup (map task_signal (tasks sys)).

(** The controllers [abort_current] leaves, from the ref and the controllers
    it finds. *)
Definition abort_controllers (ref : option nat) (cs : list bool) : list bool :=
  match ref with
  | Some c => if default false (cs !! c) then cs else <[c := true]> cs
  | None => cs
  end.


(** A session in which nothing is left to run: every controller is aborted
    and no timer is pending. *)
Definition quiet (st : Session) : Prop :=
  (forall c b, controllers st !! c = Some b -> b = true)
  /\ (forall t d, timers st !! t <> Some (Pending d)).

(** A property of the log that holds of the empty log and is kept by
    [addEventToLog]. *)
Definition log_invariant (P : list InstanceEvent -> Prop) : Prop :=
  P [] /\ forall ev l, P l -> P (addEventToLog ev l).

(** The status lines of a log. *)
Definition status_lines (l : list InstanceEvent) : list InstanceEvent :=
  List.filter (fun e => is_status_message (data e)) l.

(** ** The saved connections (src/hooks/use-api-key.ts)

    The state of the hook [useApiConfig]: the list of the configurations
    and the id of the active one.  What [localStorage] holds is left out;
    of a write to it the model keeps whether it was accepted or threw.  The
    list is loaded when the hook mounts, which is not modelled. *)

Module ApiConfig.

Record ApiConfig := {
  apiUrl : jsstring;
  token : jsstring;
  prefixPath : option jsstring
}.

(** [NamedApiConfig extends ApiConfig] *)
Record NamedApiConfig := {
  config : ApiConfig;
  id : jsstring;
  name : jsstring
}.

(** [Omit<NamedApiConfig, 'id'> & { id?: string }] *)
Record ConfigToSave := {
  save_config : ApiConfig;
  save_id : option jsstring;
  save_name : jsstring
}.

Record State := {
  apiConfigsList : list NamedApiConfig;
  activeConfigId : option jsstring
}.

(** [l.findIndex(f)]; [None] stands for -1. *)
Fixpoint findIndex {A} (f : A -> bool) (l : list A) : option nat :=
  match l with
  | [] => None
  | x :: l' => if f x then Some 0%nat else option_map S (findIndex f l')
  end.

(** [saveActiveConfigId]: the state is set only after the write to the
    storage went through. *)
Definition saveActiveConfigId (accepted : bool) (i : option jsstring) (s : State) : State :=
  if accepted then {| apiConfigsList := apiConfigsList s; activeConfigId := i |} else s.

(** [addOrUpdateApiConfig]; [uuid] is what [uuidv4()] answers when it is
    called.  The updater returns the new list whether or not the storage
    took it. *)
Definition addOrUpdateApiConfig (uuid : jsstring) (c : ConfigToSave) (s : State)
  : NamedApiConfig * State :=
  let newId := if present (save_id c) then default [] (save_id c) else uuid in
  let newConfigWithId := {| config := save_config c; id := newId; name := save_name c |} in
  let prevList := apiConfigsList s in
  let newList :=
    match findIndex (fun c => str_eqb (id c) newId) prevList with
    | Some existingIndex => <[existingIndex := newConfigWithId]> prevList
    | None => prevList ++ [newConfigWithId]
    end in
  (newConfigWithId, {| apiConfigsList := newList; activeConfigId := activeConfigId s |}).

Definition deleteApiConfig (accepted : bool) (i : jsstring) (s : State) : State :=
  let newList := List.filter (fun c => negb (str_eqb (id c) i)) (apiConfigsList s) in
  let s' := {| apiConfigsList := newList; activeConfigId := activeConfigId s |} in
  if bool_decide (activeConfigId s = Some i)
  then saveActiveConfigId accepted (option_map id (head newList)) s'
  else s'.

Definition clearActiveApiConfig (accepted : bool) (s : State) : State :=
  saveActiveConfigId accepted None s.

(** [apiConfigsList.find(c => c.id === id) || null] *)
Definition getApiConfigById (s : State) (i : jsstring) : option NamedApiConfig :=
  List.find (fun c => str_eqb (id c) i) (apiConfigsList s).

Definition activeApiConfig (s : State) : option NamedApiConfig :=
  if present (activeConfigId s) then getApiConfigById s (default [] (activeConfigId s))
  else None.

(** [/\/+$/] matches at the first place from which the text is slashes, one
    at least, up to its end; [s.replace(/\/+$/, '')] cuts the text there. *)
Fixpoint strip_trailing_slashes (s : jsstring) : jsstring :=
  match s with
  | [] => []
  | c :: s' =>
    if (c =? 47) && forallb (N.eqb 47) s' then [] else c :: strip_trailing_slashes s'
  end.

(** The first alternative of [/^\/+|\/+$/g] matches at the start only and
    takes every slash there. *)
Fixpoint strip_leading_slashes (s : jsstring) : jsstring :=
  match s with
  | c :: s' => if c =? 47 then strip_leading_slashes s' else s
  | [] => []
  end.

(** [s.replace(/^\/+|\/+$/g, '')]: the search goes on after the first match
    and finds the second alternative where the rest is slashes to the end. *)
Definition strip_slashes (s : jsstring) : jsstring :=
  strip_trailing_slashes (strip_leading_slashes s).

Definition getApiRootUrl (s : State) (i : jsstring) : option jsstring :=
  match getApiConfigById s i with
  | None => None
  | Some c =>
    match apiUrl (config c) with
    | [] => None
    | _ :: _ =>
      let base := strip_trailing_slashes (apiUrl (config c)) in
      Some (if present (prefixPath (config c))
               && negb (str_eqb (trim (default [] (prefixPath (config c)))) [])
            then base ++ utf16 "/" ++ trim (strip_slashes (default [] (prefixPath (config c))))
            else base)
    end
  end.

(** [config?.token || null] *)
Definition getToken (s : State) (i : jsstring) : option jsstring :=
  match getApiConfigById s i with
  | Some c => if present (Some (token (config c))) then Some (token (config c)) else None
  | None => None
  end.

(** The props [HomePage] renders [EventLog] with, once the configurations
    are loaded; [None] when there is no active configuration and the
    component is not rendered. *)
Definition EventLog_props (s : State) : option EventLogProps :=
  match activeApiConfig s with
  | Some c =>
    Some {| apiId := Some (id c); apiName := Some (name c);
            apiRoot := getApiRootUrl s (id c); apiToken := getToken s (id c) |}
  | None => None
  end.

End ApiConfig.

(** ** The URL of an instance

    [parseNodePassUrl] and [buildUrl] of the dialog that modifies an
    instance, and the two parsers of the topology page. *)

(** [s.indexOf(p)]; [None] stands for -1. *)
Fixpoint indexOf (s p : jsstring) : option nat :=
  if startsWith s p then Some 0%nat
  else match s with
       | [] => None
       | _ :: s' => option_map S (indexOf s' p)
       end.

Definition is_ascii_letter (c : N) : bool :=
  ((65 <=? c) && (c <=? 90)) || ((97 <=? c) && (c <=? 122)).

(** The longest run of letters at the head of a text, and what follows. *)
Fixpoint span_letters (s : jsstring) : jsstring * jsstring :=
  match s with
  | c :: s' =>
    if is_ascii_letter c then let (letters, rest) := span_letters s' in (c :: letters, rest)
    else ([], s)
  | [] => ([], [])
  end.

(** [url.match(/^([a-zA-Z]+):\/\//)]: the group and the whole match.  The
    group is the whole run of letters at the head, since what follows a
    shorter one is a letter and not the colon. *)
Definition match_scheme (url : jsstring) : option (jsstring * jsstring) :=
  let (letters, rest) := span_letters url in
  if negb (is_empty letters) && startsWith rest (utf16 "://")
  then Some (letters, letters ++ utf16 "://")
  else None.

Module ModifyInstanceDialog.

Record ParsedNodePassUrl := {
  instanceType : option jsstring;
  tunnelAddress : jsstring;
  targetAddress : jsstring;
  logLevel : jsstring;
  tlsMode : option jsstring;
  certPath : jsstring;
  keyPath : jsstring
}.

(** The values of the form, as [buildUrl] reads them; [tlsMode], [certPath]
    and [keyPath] may be undefined. *)
Record ModifyInstanceFormValues := {
  form_instanceType : jsstring;
  form_tunnelAddress : jsstring;
  form_targetAddress : jsstring;
  form_logLevel : jsstring;
  form_tlsMode : option jsstring;
  form_certPath : option jsstring;
  form_keyPath : option jsstring
}.

(** [x || ''] *)
Definition or_empty (x : option jsstring) : jsstring := default [] x.

(** [parseNodePassUrl]; [get query name] is
    [new URLSearchParams(query).get(name)].  Nothing in the [try] block
    throws. *)
Definition parseNodePassUrl (get : jsstring -> jsstring -> option jsstring) (url : jsstring)
  : ParsedNodePassUrl :=
  let result :=
    {| instanceType := None; tunnelAddress := []; targetAddress := [];
       logLevel := utf16 "info"; tlsMode := None; certPath := []; keyPath := [] |} in
  if is_empty url then result
  else
    match match_scheme url with
    | Some (scheme, whole) =>
      if str_eqb scheme (utf16 "server") || str_eqb scheme (utf16 "client") then
        let restOfUrl := substring_from url (length whole) in
        let parts := split restOfUrl (utf16 "?") in
        let pathPart := default [] (parts !! 0%nat) in
        let queryPart := parts !! 1%nat in
        let addresses := split pathPart (utf16 "/") in
        let tunnel :=
          if (0 <? length addresses)%nat then or_empty (addresses !! 0%nat) else [] in
        let target :=
          if (1 <? length addresses)%nat then join (drop 1 addresses) (utf16 "/") else [] in
        let is_server := str_eqb scheme (utf16 "server") in
        if present queryPart then
          let query := default [] queryPart in
          let log := get query (utf16 "log") in
          let level :=
            if present log
               && has [utf16 "debug"; utf16 "info"; utf16 "warn"; utf16 "error"; utf16 "fatal"]
                      (default [] log)
            then default [] log else utf16 "info" in
          let tls := get query (utf16 "tls") in
          let mode :=
            if is_server then
              Some (if present tls && has [utf16 "0"; utf16 "1"; utf16 "2"] (default [] tls)
                    then default [] tls else utf16 "0")
            else None in
          let with_paths := is_server && bool_decide (mode = Some (utf16 "2")) in
          {| instanceType := Some scheme; tunnelAddress := tunnel; targetAddress := target;
             logLevel := level; tlsMode := mode;
             certPath := if with_paths then or_empty (get query (utf16 "crt")) else [];
             keyPath := if with_paths then or_empty (get query (utf16 "key")) else [] |}
        else
          {| instanceType := Some scheme; tunnelAddress := tunnel; targetAddress := target;
             logLevel := utf16 "info";
             tlsMode := if is_server then Some (utf16 "0") else None;
             certPath := []; keyPath := [] |}
      else result
    | None => result
    end.

Definition buildUrl (values : ModifyInstanceFormValues) : jsstring :=
  let url := form_instanceType values ++ utf16 "://" ++ form_tunnelAddress values ++ utf16 "/"
             ++ form_targetAddress values ++ utf16 "?log=" ++ form_logLevel values in
  if str_eqb (form_instanceType values) (utf16 "server") && present (form_tlsMode values) then
    let url := url ++ utf16 "&tls=" ++ default [] (form_tlsMode values) in
    if str_eqb (default [] (form_tlsMode values)) (utf16 "2") then
      url ++ utf16 "&crt=" ++ or_empty (form_certPath values)
          ++ utf16 "&key=" ++ or_empty (form_keyPath values)
    else url
  else url.

End ModifyInstanceDialog.

Module Topology.

(** [parseTunnelAddr]; [URL_host s] is [new URL(s).host], [None] when the
    constructor throws. *)
Definition parseTunnelAddr (URL_host : jsstring -> option jsstring) (urlString : jsstring)
  : option jsstring :=
  match URL_host urlString with
  | Some host => Some host
  | None =>
    let schemeSeparator := utf16 "://" in
    match indexOf urlString schemeSeparator with
    | None => None
    | Some schemeIndex =>
      let restOfString := substring_from urlString (schemeIndex + length schemeSeparator) in
      let endOfTunnelAddr :=
        match indexOf restOfString (utf16 "/"), indexOf restOfString (utf16 "?") with
        | Some pathSeparatorIndex, Some querySeparatorIndex =>
          Some (Nat.min pathSeparatorIndex querySeparatorIndex)
        | Some pathSeparatorIndex, None => Some pathSeparatorIndex
        | None, Some querySeparatorIndex => Some querySeparatorIndex
        | None, None => None
        end in
      match endOfTunnelAddr with
      | Some e => Some (substring restOfString 0 e)
      | None => Some restOfString
      end
    end
  end.

Definition parseTargetAddr (urlString : jsstring) : option jsstring :=
  let schemeSeparator := utf16 "://" in
  match indexOf urlString schemeSeparator with
  | None => None
  | Some schemeIndex =>
    let restOfString := substring_from urlString (schemeIndex + length schemeSeparator) in
    match indexOf restOfString (utf16 "/") with
    | None => None
    | Some pathSeparatorIndex =>
      let targetAndQuery := substring_from restOfString (pathSeparatorIndex + 1) in
      match indexOf targetAndQuery (utf16 "?") with
      | Some querySeparatorIndex => Some (substring targetAndQuery 0 querySeparatorIndex)
      | None => Some targetAndQuery
      end
    end
  end.

End Topology.

(** ** Further samples *)

(** The props of another configuration. *)
Definition other_props : EventLogProps :=
  {| apiId := Some (utf16 "api-2");
     apiRoot := Some (utf16 "https://other.example");
     apiToken := Some (utf16 "secret-2");
     apiName := Some (utf16 "other") |}.

(** The sample system once the props have changed to [other_props]: the
    read loop of the first configuration is still suspended, beside the new
    call. *)
Definition sample_superseded : System :=
  spawn (@useEffect_body sample_host other_props true false (session sample_system))
    (tasks sample_system).

(** The sample system once its stream has ended: a reconnection is
    pending. *)
Definition sample_disconnected : System :=
  spawn (@resume sample_host sample_props (AwaitingRead 0 []) (ByRead ReadDone)
           (session sample_system))
        (base.delete 0%nat (tasks sample_system)).



(** The sample identity just mounted: the first attempt is suspended at
    [fetch]. *)
Definition sample_mounted : System :=
  spawn (@useEffect_body sample_host sample_props false false mount) [].

(** The sample props with another name and token for the same id. *)
Definition renamed_props : EventLogProps :=
  {| apiId := Some (utf16 "api-1");
     apiRoot := Some (utf16 "https://node.example/api");
     apiToken := Some (utf16 "secret-2");
     apiName := Some (utf16 "renamed") |}.

(** A block that holds a comment and an [event:] line but no [data:] line. *)
Definition keep_alive_block : jsstring := utf16 ": keep-alive" ++ LF ++ utf16 "event: instance".

(** A frame whose payload is the JSON [null]. *)
Definition json_null : jsstring := utf16 "null".

(** A life-cycle frame whose payload is in its [data] field. *)
Definition json_create_data : jsstring := utf16q "{'type':'create','data':{'id':'b2'}}".

(** A saved connection to run the hook on. *)
Definition sample_config : ApiConfig.NamedApiConfig :=
  {| ApiConfig.config :=
       {| ApiConfig.apiUrl := utf16 "https://node.example";
          ApiConfig.token := utf16 "secret";
          ApiConfig.prefixPath := Some (utf16 "api") |};
     ApiConfig.id := utf16 "api-1";
     ApiConfig.name := utf16 "node" |}.

Definition sample_store : ApiConfig.State :=
  {| ApiConfig.apiConfigsList := [sample_config];
     ApiConfig.activeConfigId := Some (utf16 "api-1") |}.

(** The sample connection written with slashes to spare. *)
Definition sample_config_slashed : ApiConfig.NamedApiConfig :=
  {| ApiConfig.config :=
       {| ApiConfig.apiUrl := utf16 "https://node.example//";
          ApiConfig.token := utf16 "secret";
          ApiConfig.prefixPath := Some (utf16 "/api/") |};
     ApiConfig.id := utf16 "api-1";
     ApiConfig.name := utf16 "node" |}.

Definition sample_store_slashed : ApiConfig.State :=
  {| ApiConfig.apiConfigsList := [sample_config_slashed];
     ApiConfig.activeConfigId := Some (utf16 "api-1") |}.

(** The values of a form to run [buildUrl] on. *)
Definition sample_values : ModifyInstanceDialog.ModifyInstanceFormValues :=
  {| ModifyInstanceDialog.form_instanceType := utf16 "server";
     ModifyInstanceDialog.form_tunnelAddress := utf16 "0.0.0.0:10101";
     ModifyInstanceDialog.form_targetAddress := utf16 "10.0.0.5:8080/app";
     ModifyInstanceDialog.form_logLevel := utf16 "debug";
     ModifyInstanceDialog.form_tlsMode := Some (utf16 "2");
     ModifyInstanceDialog.form_certPath := Some (utf16 "/etc/cert.pem");
     ModifyInstanceDialog.form_keyPath := None |}.

(** * Properties *)

(** ** The model on small inputs *)

Example utf16_ascii : utf16 "data:" = [100; 97; 116; 97; 58].
Proof. vm_compute; reflexivity. Qed.

Example utf16_cjk : utf16 "错误" = [38169; 35823].
Proof. vm_compute; reflexivity. Qed.

Example split_overlap :
  split (utf16 "a" ++ LF ++ LF ++ LF ++ utf16 "b") (LF ++ LF) = [utf16 "a"; LF ++ utf16 "b"].
Proof. vm_compute; reflexivity. Qed.

Example split_trailing : split (utf16 "a" ++ LF ++ LF) (LF ++ LF) = [utf16 "a"; []].
Proof. vm_compute; reflexivity. Qed.

Example trim_carriage_return : trim (utf16 "  instance " ++ [13]) = utf16 "instance".
Proof. vm_compute; reflexivity. Qed.

Example parse_object :
  JSON_parse json_log_hello
  = Some (JObject [(utf16 "type", JString (utf16 "log")); (utf16 "logs", JString (utf16 "hello"))]).
Proof. vm_compute; reflexivity. Qed.

Example parse_nested :
  JSON_parse (utf16q " [1, -2.50e+3, true, null, {'a': [], 'a': 'x\u0041'}] ")
  = Some (JArray [JNumber {| neg := false; mantissa := 1; exponent := 0 |};
                  JNumber {| neg := true; mantissa := 250; exponent := 1 |};
                  JBool true; JNull;
                  JObject [(utf16 "a", JArray []); (utf16 "a", JString (utf16 "xA"))]]).
Proof. vm_compute; reflexivity. Qed.

Example parse_rejects :
  map JSON_parse [utf16 "01"; utf16 "1."; utf16 "[1,]"; utf16q "{'a' 1}"; utf16 "nul"; utf16 ""]
  = [None; None; None; None; None; None].
Proof. vm_compute; reflexivity. Qed.

Example repeated_key_last_wins :
  option_map (fun j => own_property j (utf16 "a")) (JSON_parse (utf16q "{'a':1,'a':2}"))
  = Some (Some (JNumber {| neg := false; mantissa := 2; exponent := 0 |})).
Proof. vm_compute; reflexivity. Qed.

Example tiny_number_is_zero :
  map number_is_zero [ {| neg := false; mantissa := 24; exponent := -325 |};
                       {| neg := false; mantissa := 25; exponent := -325 |} ]
  = [true; false].
Proof. vm_compute; reflexivity. Qed.

Example level_examples :
  map parseLogLevel [utf16 "2024 [error] disk"; utf16 "errors WARNing some Fatal!";
                     utf16 "_ERROR ERROR_ 1ERROR warn"; utf16 "hello"]
  = [Some (utf16 "ERROR"); Some (utf16 "FATAL"); Some (utf16 "WARN"); None].
Proof. vm_compute; reflexivity. Qed.

Example sample_connected_state :
  (abortControllerRef sample_connected, controllers sample_connected, timers sample_connected,
   retryCountRef sample_connected, uiConnectionStatus sample_connected,
   map data (events sample_connected))
  = (Some 0%nat, [false], [], 0%nat, ui_connected,
     [JString (utf16 "事件流 (fetch) 已连接。等待事件... (目标: https://node.example/api/events)")]).
Proof. vm_compute; reflexivity. Qed.

(** ** Strings *)

Section Strings.

Implicit Types s t p sep : jsstring.

Lemma startsWith_length s p : startsWith s p = true -> (length p <= length s)%nat.
Proof.
  revert s; induction p as [|c p IH]; intros s Hp; simpl; [lia|].
  destruct s as [|d s]; simpl in Hp; [done|].
  apply andb_prop in Hp as [_ Hs]. specialize (IH _ Hs). simpl. lia.
Qed.

Lemma startsWith_app s t p : startsWith s p = true -> startsWith (s ++ t) p = true.
Proof.
  revert s; induction p as [|c p IH]; intros s Hp; [done|].
  destruct s as [|d s]; simpl in Hp; [done|].
  apply andb_prop in Hp as [Hc Hs]. simpl. rewrite Hc. simpl. auto.
Qed.

Lemma startsWith_app_inv s t p :
  startsWith (s ++ t) p = true -> (length p <= length s)%nat -> startsWith s p = true.
Proof.
  revert s; induction p as [|c p IH]; intros s Hp Hl; [done|].
  destruct s as [|d s]; simpl in Hl; [lia|]. simpl in Hp.
  apply andb_prop in Hp as [Hc Hs]. simpl. rewrite Hc. simpl. apply IH; [done | lia].
Qed.

Lemma startsWith_refl s : startsWith s s = true.
Proof. induction s as [|c s IH]; simpl; [done|]. by rewrite N.eqb_refl. Qed.

Lemma startsWith_prefix s t : startsWith (s ++ t) s = true.
Proof. apply startsWith_app, startsWith_refl. Qed.

Lemma includes_app_r s t p : includes t p = true -> includes (s ++ t) p = true.
Proof.
  induction s as [|c s IH]; simpl; [done|].
  intros Ht. rewrite (IH Ht). apply orb_true_r.
Qed.

Lemma includes_refl s : includes s s = true.
Proof. destruct s as [|c s]; [done|]. simpl. by rewrite N.eqb_refl, startsWith_refl. Qed.


Lemma split_aux_nonempty sep k s : split_aux sep k s <> [].
Proof.
  revert k; induction s as [|c s IH]; intros k; simpl; [done|].
  destruct k; [|apply IH].
  destruct (startsWith _ _); [done|].
  destruct (split_aux sep 0 s); done.
Qed.

Lemma split_aux_short sep s :
  (length s < length sep)%nat -> split_aux sep 0 s = [s].
Proof.
  induction s as [|c s IH]; intros Hl; [done|].
  simpl in Hl. cbn [split_aux].
  destruct (startsWith (c :: s) sep) eqn:Hp.
  - apply startsWith_length in Hp. simpl in Hp. lia.
  - rewrite IH by lia. done.
Qed.

Lemma split_aux_single sep s p : split_aux sep 0 s = [p] -> p = s.
Proof.
  revert p; induction s as [|c s IH]; intros p; cbn [split_aux].
  - by intros [= <-].
  - destruct (startsWith (c :: s) sep).
    + intros [= _ Hx]. by destruct (split_aux_nonempty sep (length sep - 1) s).
    + destruct (split_aux sep 0 s) as [|q qs] eqn:Hq;
        [by destruct (split_aux_nonempty sep 0 s)|].
      intros [= <- ->]. by rewrite (IH q).
Qed.

Lemma split_aux_no_separator sep s : includes s sep = false -> split_aux sep 0 s = [s].
Proof.
  induction s as [|c s IH]; [done|].
  intros [Hp Hs]%orb_false_elim. cbn [split_aux]. rewrite Hp, (IH Hs). done.
Qed.

(** The pieces of a text that goes on: those complete so far stay, and the
    rest is split as if the last piece so far came first. *)
Lemma split_aux_app sep s t k :
  sep <> [] -> (k <= length s)%nat ->
  split_aux sep k (s ++ t)
  = removelast (split_aux sep k s) ++ split_aux sep 0 (List.last (split_aux sep k s) [] ++ t).
Proof.
  intros Hsep. revert k; induction s as [|c s IH]; intros k Hk.
  - simpl in Hk. assert (k = 0%nat) as -> by lia. done.
  - destruct k as [|k].
    + cbn [split_aux app]. change (c :: s ++ t) with ((c :: s) ++ t).
      destruct (startsWith (c :: s) sep) eqn:Hp.
      * rewrite (startsWith_app _ t _ Hp).
        pose proof (startsWith_length _ _ Hp) as Hl. simpl in Hl.
        destruct sep as [|x sep]; [done|]. simpl in Hl.
        rewrite IH by (simpl; lia).
        pose proof (split_aux_nonempty (x :: sep) (length (x :: sep) - 1) s) as Hne.
        destruct (split_aux (x :: sep) (length (x :: sep) - 1) s) as [|q qs] eqn:Hq; [done|].
        done.
      * destruct (startsWith ((c :: s) ++ t) sep) eqn:Hpt.
        -- assert (length (c :: s) < length sep)%nat as Hl.
           { destruct (Nat.le_gt_cases (length sep) (length (c :: s))) as [Hle|]; [|done].
             rewrite (startsWith_app_inv _ _ _ Hpt Hle) in Hp. done. }
           assert (Hs' : (length s < length sep)%nat) by (simpl in Hl; lia).
           rewrite (split_aux_short sep s Hs'). cbn [removelast List.last app].
           change ((c :: s) ++ t) with (c :: s ++ t) in Hpt.
           cbn [split_aux]. rewrite Hpt. done.
        -- rewrite IH by lia.
           destruct (split_aux sep 0 s) as [|q qs] eqn:Hq;
             [by destruct (split_aux_nonempty sep 0 s)|].
           destruct qs as [|q' qs].
           ++ apply split_aux_single in Hq as ->.
              cbn [removelast List.last app].
              change ((c :: s) ++ t) with (c :: s ++ t) in Hpt.
              cbn [split_aux]. rewrite Hpt. done.
           ++ done.
    + simpl in Hk. cbn [split_aux app]. apply IH. lia.
Qed.

(** The last piece holds no separator. *)
Lemma split_aux_last_clean sep s k :
  sep <> [] -> (k <= length s)%nat ->
  includes (List.last (split_aux sep k s) []) sep = false.
Proof.
  intros Hsep. revert k; induction s as [|c s IH]; intros k Hk.
  - simpl in Hk. assert (k = 0%nat) as -> by lia. by destruct sep.
  - destruct k as [|k]; [|simpl in Hk; cbn [split_aux]; apply IH; lia].
    cbn [split_aux].
    destruct (startsWith (c :: s) sep) eqn:Hp.
    + pose proof (startsWith_length _ _ Hp) as Hl. simpl in Hl.
      pose proof (split_aux_nonempty sep (length sep - 1) s) as Hne.
      specialize (IH (length sep - 1)%nat).
      destruct (split_aux sep (length sep - 1) s) as [|q qs]; [done|].
      apply IH. lia.
    + specialize (IH 0%nat).
      destruct (split_aux sep 0 s) as [|q qs] eqn:Hq;
        [by destruct (split_aux_nonempty sep 0 s)|].
      destruct qs as [|q' qs].
      * apply split_aux_single in Hq as ->. simpl in IH.
        change (startsWith (c :: s) sep || includes s sep = false).
        rewrite Hp, IH by lia. done.
      * apply IH. lia.
Qed.

End Strings.

(** ** The read loop and its buffer *)

Section ReadLoop.

Context `{Host}.

Lemma split_frames s t :
  split (s ++ t) (LF ++ LF)
  = removelast (split s (LF ++ LF)) ++ split (pop_or_empty (split s (LF ++ LF)) ++ t) (LF ++ LF).
Proof. apply split_aux_app; [done | simpl; lia]. Qed.

Lemma split_frames_nonempty s : split s (LF ++ LF) <> [].
Proof. apply split_aux_nonempty. Qed.

Lemma last_app_nonempty {A} (l1 l2 : list A) d : l2 <> [] -> List.last (l1 ++ l2) d = List.last l2 d.
Proof.
  intros Hne. induction l1 as [|x l1 IH]; [done|].
  simpl. rewrite IH. destruct (l1 ++ l2) eqn:E; [|done].
  apply app_eq_nil in E as [_ ->]. done.
Qed.

Lemma pop_or_empty_app (l1 l2 : list jsstring) :
  l2 <> [] -> pop_or_empty (l1 ++ l2) = pop_or_empty l2.
Proof. apply last_app_nonempty. Qed.

Lemma process_blocks_app a b st :
  process_blocks (a ++ b) st = process_blocks b (process_blocks a st).
Proof. apply fold_left_app. Qed.

(** The read loop over chunks, from any buffer. *)
Lemma read_loop_chunks p signal chunks : forall buffer st,
  aborted (read_loop p signal buffer (map ReadChunk chunks) st).1 signal = false ->
  aborted st signal = false /\
  (chunks <> [] ->
   read_loop p signal buffer (map ReadChunk chunks) st
   = (process_blocks (removelast (split (buffer ++ concat chunks) (LF ++ LF))) st,
      Some (AwaitingRead signal (pop_or_empty (split (buffer ++ concat chunks) (LF ++ LF)))))).
Proof.
  induction chunks as [|c chunks IH]; intros buffer st Hfinal; [done|].
  cbn [map read_loop after_read] in Hfinal |- *.
  destruct (aborted st signal) eqn:Hst; [simpl in Hfinal; congruence|].
  split; [done|]. intros _.
  destruct (IH _ _ Hfinal) as [_ Hrest].
  destruct chunks as [|c' chunks].
  - cbn [map read_loop concat]. by rewrite app_nil_r.
  - rewrite Hrest by done.
    change (concat (c :: c' :: chunks)) with (c ++ concat (c' :: chunks)).
    rewrite (app_assoc buffer c), (split_frames (buffer ++ c) (concat (c' :: chunks))).
    rewrite removelast_app by apply split_frames_nonempty.
    rewrite process_blocks_app.
    rewrite pop_or_empty_app by apply split_frames_nonempty.
    done.
Qed.

(** A chunk delivered to a live read loop that completes no frame leaves
    the session as it was. *)
Lemma after_read_no_separator p signal buffer text st :
  aborted st signal = false ->
  includes (buffer ++ text) (LF ++ LF) = false ->
  after_read p signal buffer (ReadChunk text) st = (st, Some (AwaitingRead signal (buffer ++ text))).
Proof.
  intros Hst Hno. cbn [after_read]. rewrite Hst.
  change (split (buffer ++ text) (LF ++ LF)) with (split_aux (LF ++ LF) 0 (buffer ++ text)).
  by rewrite (split_aux_no_separator _ _ Hno).
Qed.

(** C1.  Whatever the chunks a text arrives in, a read loop that is not
    cancelled has fed to [processSseMessageData] exactly the blocks of the
    text received so far that a blank line ([\n\n]) closes, in order, and
    keeps the text after the last blank line, which holds no blank line.  As
    long as no blank line has been received nothing is fed and the whole
    text is kept.  In particular the frame of [example_chunk1] and
    [example_chunk2] yields no event after the first chunk and exactly one
    event, a [log] with payload [hello], after the second. *)
Theorem read_loop_buffers_until_separator p signal chunks st :
  aborted (read_loop p signal [] (map ReadChunk chunks) st).1 signal = false ->
  let text := concat chunks in
  let blocks := split text (LF ++ LF) in
  read_loop p signal [] (map ReadChunk chunks) st
  = (process_blocks (removelast blocks) st, Some (AwaitingRead signal (pop_or_empty blocks)))
  /\ includes (pop_or_empty blocks) (LF ++ LF) = false
  /\ (includes text (LF ++ LF) = false ->
      removelast blocks = [] /\ pop_or_empty blocks = text)
  /\ read_loop p signal [] [ReadChunk example_chunk1] st
     = (st, Some (AwaitingRead signal example_chunk1))
  /\ exists st2,
       read_loop p signal [] [ReadChunk example_chunk1; ReadChunk example_chunk2] st
       = (st2, Some (AwaitingRead signal []))
       /\ events st2
          = addEventToLog
              {| type := log; data := JString (utf16 "hello"); instanceDetails := None;
                 level := None; timestamp := JString (clock (clock_reads st)) |}
              (events st).
Proof.
  intros Hfinal text blocks.
  destruct (read_loop_chunks _ _ _ _ _ Hfinal) as [Hst Hloop].
  split; [|split; [|split; [|split]]].
  - destruct chunks as [|c chunks]; [done|]. by apply Hloop.
  - apply split_aux_last_clean; [done | simpl; lia].
  - intros Hno. subst blocks.
    change (split text (LF ++ LF)) with (split_aux (LF ++ LF) 0 text).
    by rewrite (split_aux_no_separator _ _ Hno).
  - cbn [read_loop]. by rewrite after_read_no_separator.
  - cbn [read_loop]. rewrite after_read_no_separator by done.
    cbn [after_read]. rewrite Hst.
    eexists. split; [vm_compute; reflexivity|].
    vm_compute. reflexivity.
Qed.

End ReadLoop.

(** ** Decoding a frame *)

Section Decoding.

Context `{Host}.

Lemma str_eqb_refl s : str_eqb s s = true.
Proof. unfold str_eqb. by apply bool_decide_eq_true. Qed.

Lemma str_eqb_false s t : s <> t -> str_eqb s t = false.
Proof. unfold str_eqb. by apply bool_decide_eq_false. Qed.

Lemma null_or_not j : j = JNull \/ j <> JNull.
Proof. destruct j; [by left | by right ..]. Qed.

Lemma get_property_own j key : j <> JNull -> get_property j key = Some (own_property j key).
Proof. by destruct j. Qed.

Lemma events_abort_current st : events (abort_current st) = events st.
Proof. unfold abort_current. destruct (abortControllerRef st); [|done]. by destruct (aborted st n). Qed.

(** What [try_decode] does with a payload other than [null]. *)
Lemma try_decode_parsed dl j st :
  JSON_parse dl = Some j -> j <> JNull ->
  exists st' time,
    try_decode dl st = Some st'
    /\ events st'
       = addEventToLog
           {| type := (decoded j).1.1; data := (decoded j).1.2;
              instanceDetails := own_property j (utf16 "instance");
              level := (decoded j).2; timestamp := time |}
           (events st)
    /\ controllers st'
       = controllers (match (decoded j).1.1 with shutdown => abort_current st | _ => st end)
    /\ timers st' = timers st
    /\ reconnectTimeoutRef st' = reconnectTimeoutRef st
    /\ abortControllerRef st' = abortControllerRef st
    /\ retryCountRef st' = retryCountRef st.
Proof.
  intros Hparse Hnull. unfold try_decode. rewrite Hparse. cbn [mbind option_bind].
  rewrite !get_property_own by done. cbn [mbind option_bind].
  unfold decoded.
  destruct (switch_type (own_property j (utf16 "type"))) as [[]|];
    destruct (truthy_opt (own_property j (utf16 "time")));
    cbn [Date_now fst snd];
    eexists _, _; (split; [reflexivity|]); cbn [events setEvents set_clock_reads];
    rewrite ?events_abort_current; (split; [reflexivity|]); try done.
  all: cbn [controllers timers reconnectTimeoutRef abortControllerRef retryCountRef setEvents
            set_clock_reads].
  all: unfold abort_current; destruct (abortControllerRef st) as [c|] eqn:Hc.
  all: try destruct (aborted st c); repeat split; done.
Qed.

Lemma processSseMessageData_instance block dl st :
  scan_lines block = (utf16 "instance", dl) -> dl <> [] ->
  processSseMessageData block st
  = match try_decode dl st with
    | Some st' => st'
    | None => add_log (utf16 "解析事件错误 (fetch): " ++ dl) None st
    end.
Proof.
  intros Hscan Hdl. unfold processSseMessageData. rewrite Hscan.
  by rewrite str_eqb_refl, (str_eqb_false dl []).
Qed.

Lemma events_add_log text lvl st :
  events (add_log text lvl st)
  = addEventToLog (log_event text lvl (clock (clock_reads st))) (events st).
Proof. done. Qed.


(** A block that is blank after trimming has no [event:] or [data:] line. *)
Lemma trimStart_nil s : trimStart s = [] -> forallb is_white_space s = true.
Proof.
  induction s as [|c s IH]; [done|]. simpl.
  destruct (is_white_space c); [exact IH | done].
Qed.

Lemma trimStart_white s :
  forallb is_white_space (trimStart s) = true -> forallb is_white_space s = true.
Proof.
  induction s as [|c s IH]; [done|]. simpl.
  destruct (is_white_space c) eqn:Hc; [exact IH|].
  simpl. by rewrite Hc.
Qed.

Lemma forallb_rev {A} (f : A -> bool) (l : list A) : forallb f (rev l) = forallb f l.
Proof.
  induction l as [|x l IH]; [done|]. simpl.
  rewrite forallb_app, IH. simpl. rewrite andb_true_r. apply andb_comm.
Qed.

Lemma trim_nil s : trim s = [] -> forallb is_white_space s = true.
Proof.
  unfold trim, trimEnd. intros Hs.
  apply trimStart_white. rewrite <- forallb_rev. apply trimStart_nil.
  apply (f_equal (@rev N)) in Hs. by rewrite rev_involutive in Hs.
Qed.

Lemma split_aux_white sep k s :
  forallb is_white_space s = true ->
  Forall (fun piece => forallb is_white_space piece = true) (split_aux sep k s).
Proof.
  revert k; induction s as [|c s IH]; intros k Hs.
  - by repeat constructor.
  - simpl in Hs. apply andb_prop in Hs as [Hc Hs]. cbn [split_aux].
    destruct k; [|by apply IH].
    destruct (startsWith (c :: s) sep).
    + constructor; [done | by apply IH].
    + specialize (IH 0%nat Hs).
      destruct (split_aux sep 0 s) as [|q qs]; [by repeat constructor; simpl; rewrite Hc|].
      inversion IH; subst. constructor; [|done]. simpl. by rewrite Hc.
Qed.

Lemma startsWith_white line c p :
  forallb is_white_space line = true -> is_white_space c = false ->
  startsWith line (c :: p) = false.
Proof.
  destruct line as [|d line]; [done|]. simpl.
  intros [Hd _]%andb_prop Hc.
  destruct (c =? d) eqn:E; [|done].
  apply N.eqb_eq in E as ->. congruence.
Qed.

Lemma scan_lines_blank block : trim block = [] -> scan_lines block = (utf16 "message", []).
Proof.
  intros Hb%trim_nil. unfold scan_lines.
  pose proof (split_aux_white LF 0 block Hb) as Hlines.
  change (split block LF) with (split_aux LF 0 block).
  generalize (utf16 "message", @nil N).
  induction Hlines as [|line lines Hline _ IH]; intros acc; [done|].
  cbn [fold_left]. destruct acc as [e d].
  assert (startsWith line (utf16 "event:") = false) as ->
    by exact (startsWith_white line 101 (utf16 "vent:") Hline eq_refl).
  assert (startsWith line (utf16 "data:") = false) as ->
    by exact (startsWith_white line 100 (utf16 "ata:") Hline eq_refl).
  apply IH.
Qed.

Lemma scan_lines_not_blank block e dl :
  scan_lines block = (e, dl) -> dl <> [] -> str_eqb (trim block) [] = false.
Proof.
  intros Hscan Hdl. apply str_eqb_false. intros Hb.
  rewrite (scan_lines_blank _ Hb) in Hscan. by injection Hscan as _ <-.
Qed.

(** C7.  An [instance] frame whose data line is not JSON: [JSON.parse]
    throws inside the [try], the [catch] appends exactly one [log] event
    whose payload is a fixed prefix followed by the data line as received,
    nothing else of the session changes, and the blocks after it are
    processed as they would be after any other block. *)
Theorem malformed_json_is_logged block dl st :
  scan_lines block = (utf16 "instance", dl) -> dl <> [] -> JSON_parse dl = None ->
  let text := utf16 "解析事件错误 (fetch): " ++ dl in
  try_decode dl st = None
  /\ processSseMessageData block st = add_log text None st
  /\ events (processSseMessageData block st)
     = addEventToLog
         {| type := log; data := JString text; instanceDetails := None; level := None;
            timestamp := JString (clock (clock_reads st)) |}
         (events st)
  /\ includes text dl = true
  /\ forall before after,
       process_blocks (before ++ block :: after) st
       = process_blocks after (add_log text None (process_blocks before st)).
Proof.
  intros Hscan Hdl Hparse text.
  assert (Htry : forall st', try_decode dl st' = None).
  { intros st'. unfold try_decode. by rewrite Hparse. }
  assert (Hproc : forall st', processSseMessageData block st' = add_log text None st').
  { intros st'. by rewrite (processSseMessageData_instance _ _ _ Hscan Hdl), Htry. }
  split; [apply Htry|]. split; [apply Hproc|]. split; [by rewrite Hproc|].
  split.
  - subst text. apply includes_app_r, includes_refl.
  - intros before after. rewrite process_blocks_app. cbn [process_blocks fold_left].
    by rewrite (scan_lines_not_blank _ _ _ Hscan Hdl), Hproc.
Qed.

End Decoding.

(** ** The log level *)

Section LogLevel.

Implicit Types s w pre post tok : jsstring.

Lemma canonicalize_upper_word c : is_upper (canonicalize c) = true -> is_word_char c = true.
Proof.
  unfold is_upper, canonicalize, is_word_char.
  destruct (N.leb_spec 97 c), (N.leb_spec c 122); cbn [andb];
    destruct (N.leb_spec 65 c), (N.leb_spec c 90); cbn [andb orb]; intros Hu; try done;
    repeat match type of Hu with
           | context [?a <=? ?b] => destruct (N.leb_spec a b); cbn [andb] in Hu
           end; try done; lia.
Qed.

Lemma levels_upper :
  Forall (fun tok => tok <> [] /\ forallb is_upper tok = true /\ map canonicalize tok = tok)
         ALL_LOG_LEVELS.
Proof. repeat constructor; done. Qed.

Lemma level_word_chars w :
  level_word w -> w <> [] /\ Forall (fun c => is_word_char c = true) w.
Proof.
  unfold level_word, toUpperCase. intros Hin.
  pose proof levels_upper as Hall. rewrite Forall_forall in Hall.
  destruct (Hall _ (proj2 (list_elem_of_In _ _) Hin)) as (Hne & Hup & _).
  split; [by destruct w|].
  apply Forall_forall. intros c Hc. apply canonicalize_upper_word.
  rewrite forallb_forall in Hup. apply Hup. apply in_map. by apply list_elem_of_In.
Qed.

Lemma match_ignore_case_spec tok : forall s w rest,
  match_ignore_case tok s = Some (w, rest)
  <-> s = w ++ rest /\ map canonicalize w = map canonicalize tok.
Proof.
  induction tok as [|t tok IH]; intros s w rest; cbn [match_ignore_case].
  - split.
    + by intros [= <- <-].
    + intros [-> Hw]. by destruct w.
  - destruct s as [|c s].
    + split; [done|]. intros [Hs Hw]. destruct w; [done|]. done.
    + destruct (canonicalize c =? canonicalize t) eqn:Hc.
      * apply N.eqb_eq in Hc.
        destruct (match_ignore_case tok s) as [[w' rest']|] eqn:Hm.
        -- apply IH in Hm as [-> Hw']. split.
           ++ intros [= <- <-]. simpl. by rewrite Hc, Hw'.
           ++ intros [Hs Hw]. destruct w as [|d w]; [done|].
              simpl in Hs, Hw. injection Hs as <- Hs. injection Hw as _ Hw.
              assert (Hm' : match_ignore_case tok (w' ++ rest') = Some (w, rest))
                by (apply IH; done).
              assert (Hm'' : match_ignore_case tok (w' ++ rest') = Some (w', rest'))
                by (apply IH; done).
              rewrite Hm' in Hm''. by injection Hm'' as -> ->.
        -- split; [done|]. intros [Hs Hw]. destruct w as [|d w]; [done|].
           simpl in Hs, Hw. injection Hs as <- Hs. injection Hw as _ Hw.
           assert (Hm' : match_ignore_case tok s = Some (w, rest)) by (apply IH; done).
           by rewrite Hm' in Hm.
      * split; [done|]. intros [Hs Hw]. destruct w as [|d w]; [done|].
        simpl in Hs, Hw. injection Hs as <- Hs. injection Hw as Hd Hw.
        apply N.eqb_neq in Hc. done.
Qed.

Lemma last_captured w before :
  w <> [] -> Forall (fun c => is_word_char c = true) w ->
  from_option is_word_char false (List.last (map Some w) before) = true.
Proof.
  intros Hne Hall. induction Hall as [|c w Hc Hall IH]; [done|].
  destruct w as [|d w]; [done|]. apply IH. done.
Qed.

Lemma match_group_some toks before s w :
  match_group toks before s = Some w ->
  exists tok rest,
    In tok toks /\ match_ignore_case tok s = Some (w, rest)
    /\ word_boundary (List.last (map Some w) before) (head rest) = true.
Proof.
  induction toks as [|tok toks IH]; [done|]. cbn [match_group].
  destruct (match_ignore_case tok s) as [[w' rest]|] eqn:Hm.
  - destruct (word_boundary _ _) eqn:Hb.
    + intros [= <-]. exists tok, rest. by repeat split; [left|..].
    + intros (tok' & rest' & ? & ? & ?)%IH. exists tok', rest'. by repeat split; [right|..].
  - intros (tok' & rest' & ? & ? & ?)%IH. exists tok', rest'. by repeat split; [right|..].
Qed.

Lemma match_group_none toks before s :
  match_group toks before s = None ->
  forall tok w rest,
    In tok toks -> match_ignore_case tok s = Some (w, rest) ->
    word_boundary (List.last (map Some w) before) (head rest) = false.
Proof.
  induction toks as [|tok toks IH]; [done|]. cbn [match_group].
  intros Hg tok' w rest [<-|Hin] Hm.
  - rewrite Hm in Hg. by destruct (word_boundary _ _).
  - apply IH with tok'; [|done..].
    destruct (match_ignore_case tok s) as [[w' rest']|]; [|done].
    by destruct (word_boundary _ _).
Qed.

(** The pattern tried at one position, after the text [b]. *)
Lemma match_here_some b s w :
  word_boundary (last b) (head s) = true ->
  match_group ALL_LOG_LEVELS (last b) s = Some w ->
  exists post, whole_word_at (b ++ s) b w post /\ level_word w.
Proof.
  intros Hb (tok & rest & Hin & Hm & He)%match_group_some.
  apply match_ignore_case_spec in Hm as [-> Hw].
  pose proof levels_upper as Hall. rewrite Forall_forall in Hall.
  destruct (Hall _ (proj2 (list_elem_of_In _ _) Hin)) as (_ & _ & Htok).
  assert (Hlw : level_word w).
  { unfold level_word, toUpperCase. by rewrite Hw, Htok. }
  destruct (level_word_chars w Hlw) as [Hne Hchars].
  exists rest. split; [|done]. split; [done|].
  unfold word_boundary in He. rewrite (last_captured w _ Hne Hchars) in He.
  destruct w as [|c w]; [done|]. inversion Hchars as [|? ? Hc _]; subst.
  unfold word_boundary in Hb. simpl in Hb. rewrite Hc in Hb.
  unfold no_word_char. split.
  - by destruct (from_option is_word_char false (last b)).
  - by destruct (from_option is_word_char false (head rest)).
Qed.

Lemma match_here_none b s :
  (if word_boundary (last b) (head s) then match_group ALL_LOG_LEVELS (last b) s else None)
  = None ->
  forall w post, whole_word_at (b ++ s) b w post -> ~ level_word w.
Proof.
  intros Hnone w post (Hs & Hpre & Hpost) Hlw.
  apply app_inv_head in Hs as ->.
  destruct (level_word_chars w Hlw) as [Hne Hchars].
  assert (Hb : word_boundary (last b) (head (w ++ post)) = true).
  { destruct w as [|c w]; [done|]. inversion Hchars as [|? ? Hc _]; subst.
    unfold word_boundary. simpl. rewrite Hc. unfold no_word_char in Hpre. by rewrite Hpre. }
  rewrite Hb in Hnone.
  assert (Hm : match_ignore_case (toUpperCase w) (w ++ post) = Some (w, post)).
  { apply match_ignore_case_spec. split; [done|].
    pose proof levels_upper as Hall. rewrite Forall_forall in Hall.
    destruct (Hall _ (proj2 (list_elem_of_In _ _) Hlw)) as (_ & _ & Htok).
    by rewrite Htok. }
  pose proof (match_group_none _ _ _ Hnone _ _ _ Hlw Hm) as He.
  unfold word_boundary in He. rewrite (last_captured w _ Hne Hchars) in He.
  unfold no_word_char in Hpost. by rewrite Hpost in He.
Qed.

(** The scan from the left finds the first whole level word, if any. *)
Lemma regexp_exec_spec s : forall b,
  match regexp_exec (last b) s with
  | Some w =>
    exists pre post,
      whole_word_at (b ++ s) (b ++ pre) w post /\ level_word w /\
      forall pre' w' post',
        whole_word_at (b ++ s) (b ++ pre') w' post' -> level_word w' ->
        (length pre <= length pre')%nat
  | None =>
    forall pre w post, whole_word_at (b ++ s) (b ++ pre) w post -> ~ level_word w
  end.
Proof.
  induction s as [|c s IH]; intros b; cbn [regexp_exec].
  - destruct (if word_boundary (last b) (head []) then _ else None) as [w|] eqn:Hhere.
    + destruct (word_boundary (last b) (head [])) eqn:Hb; [|done].
      destruct (match_here_some b [] w Hb Hhere) as (post & Hw & Hlw).
      exists [], post. rewrite app_nil_r. split; [done|]. split; [done|].
      intros; simpl; lia.
    + intros pre w post (Hs & _ & _) Hlw.
      destruct (level_word_chars w Hlw) as [Hne _].
      rewrite <- !app_assoc in Hs. apply app_inv_head in Hs.
      symmetry in Hs. apply app_eq_nil in Hs as [_ Hs]. apply app_eq_nil in Hs as [Hs _]. done.
  - destruct (if word_boundary (last b) (head (c :: s)) then _ else None) as [w|] eqn:Hhere.
    + destruct (word_boundary (last b) (head (c :: s))) eqn:Hb; [|done].
      destruct (match_here_some b (c :: s) w Hb Hhere) as (post & Hw & Hlw).
      exists [], post. rewrite app_nil_r. split; [done|]. split; [done|].
      intros; simpl; lia.
    + specialize (IH (b ++ [c])). rewrite last_snoc in IH.
      pose proof (match_here_none b (c :: s) Hhere) as Hnot.
      rewrite <- app_assoc in IH. cbn [app] in IH.
      destruct (regexp_exec (Some c) s) as [w|].
      * destruct IH as (pre & post & Hw & Hlw & Hmin).
        exists (c :: pre), post. rewrite <- app_assoc in Hw. split; [done|]. split; [done|].
        intros pre' w' post' Hw' Hlw'.
        destruct pre' as [|d pre'].
        -- rewrite app_nil_r in Hw'. by destruct (Hnot _ _ Hw').
        -- assert (d = c) as ->.
           { destruct Hw' as (Hs & _). rewrite <- !app_assoc in Hs.
             apply app_inv_head in Hs. by injection Hs. }
           specialize (Hmin pre' w' post'). rewrite <- app_assoc in Hmin.
           specialize (Hmin Hw' Hlw'). simpl. lia.
      * intros pre w post Hw Hlw.
        destruct pre as [|d pre].
        -- rewrite app_nil_r in Hw. by destruct (Hnot _ _ Hw).
        -- assert (d = c) as ->.
           { destruct Hw as (Hs & _). rewrite <- !app_assoc in Hs.
             apply app_inv_head in Hs. by injection Hs. }
           apply (IH pre w post); [|done]. by rewrite <- app_assoc.
Qed.

(** [parseLogLevel] computes the level the specification describes. *)
Lemma parseLogLevel_as_specified s : level_as_specified s (parseLogLevel s).
Proof.
  unfold parseLogLevel. pose proof (regexp_exec_spec s []) as Hspec.
  cbn [last app] in Hspec.
  destruct (regexp_exec None s) as [w|]; cbn [level_as_specified].
  - destruct Hspec as (pre & post & Hw & Hlw & Hmin).
    exists w. split; [|done]. by exists pre, post.
  - exact Hspec.
Qed.

End LogLevel.

(** ** The events decoded from a parsed payload *)

Section Classification.

Context `{Host}.

Lemma aborted_abort_current st c :
  aborted st c = true -> aborted (abort_current st) c = true.
Proof.
  unfold abort_current. destruct (abortControllerRef st) as [c'|]; [|done].
  destruct (aborted st c') eqn:Hc'; [done|].
  unfold aborted. cbn [controllers set_controllers].
  destruct (decide (c' = c)) as [->|Hne].
  - unfold aborted in Hc'. congruence.
  - by rewrite list_lookup_insert_ne.
Qed.

Lemma abort_current_aborts st c :
  abortControllerRef st = Some c -> (c < length (controllers st))%nat ->
  aborted (abort_current st) c = true.
Proof.
  intros Hc Hlt. unfold abort_current. rewrite Hc.
  destruct (aborted st c) eqn:Ha; [done|].
  unfold aborted. cbn [controllers set_controllers].
  by rewrite list_lookup_insert_eq.
Qed.

(** A block changes nothing of the connection but, on [shutdown], the
    [aborted] flag of the current controller. *)
Lemma processSseMessageData_frame block st :
  let st' := processSseMessageData block st in
  timers st' = timers st /\ reconnectTimeoutRef st' = reconnectTimeoutRef st
  /\ retryCountRef st' = retryCountRef st /\ abortControllerRef st' = abortControllerRef st
  /\ (controllers st' = controllers st \/ controllers st' = controllers (abort_current st)).
Proof.
  unfold processSseMessageData. destruct (scan_lines block) as [e dl].
  destruct (str_eqb e (utf16 "instance") && negb (str_eqb dl [])).
  - destruct (JSON_parse dl) as [j|] eqn:Hparse.
    + destruct (null_or_not j) as [->|Hnull].
      * unfold try_decode. rewrite Hparse. cbn. auto 10.
      * destruct (try_decode_parsed dl j st Hparse Hnull)
          as (st' & time & -> & _ & Hc & Ht & Hr & Ha & Hn).
        repeat split; try done. rewrite Hc. destruct (decoded j).1.1; auto.
    + unfold try_decode. rewrite Hparse. cbn. auto 10.
  - destruct (negb (str_eqb dl [])); [|cbn; auto 10].
    destruct (startsWith dl (utf16 "retry:")); cbn; auto 10.
Qed.

Lemma process_blocks_frame blocks : forall st,
  let st' := process_blocks blocks st in
  timers st' = timers st /\ reconnectTimeoutRef st' = reconnectTimeoutRef st
  /\ retryCountRef st' = retryCountRef st /\ abortControllerRef st' = abortControllerRef st
  /\ forall c, aborted st c = true -> aborted st' c = true.
Proof.
  induction blocks as [|block blocks IH]; intros st; [done|].
  cbn [process_blocks fold_left].
  destruct (negb (str_eqb (trim block) [])); [|apply IH].
  destruct (processSseMessageData_frame block st) as (Ht & Hr & Hn & Ha & Hc).
  destruct (IH (processSseMessageData block st)) as (Ht' & Hr' & Hn' & Ha' & Hc').
  unfold process_blocks in *. cbn zeta in *.
  rewrite Ht', Hr', Hn', Ha'. repeat split; try done.
  intros c Hab. apply Hc'. unfold aborted in *.
  destruct Hc as [-> | ->]; [done|]. by apply aborted_abort_current.
Qed.

Lemma switch_type_name kind :
  kind <> error -> switch_type (Some (JString (type_name kind))) = Some kind.
Proof. by destruct kind. Qed.

(** C6, as amended.  For an [instance] frame whose data parses as a JSON
    object with [type] one of initial, create, update, delete, the event
    has that type; its payload is the [instance] field when that is present
    and truthy (as every object is), else the [data] field when that is
    present and truthy, else an empty object. *)
Theorem lifecycle_event_payload block dl j kind st :
  scan_lines block = (utf16 "instance", dl) -> dl <> [] -> JSON_parse dl = Some j ->
  In kind [initial; create; update; delete] ->
  own_property j (utf16 "type") = Some (JString (type_name kind)) ->
  exists ev,
    events (processSseMessageData block st) = addEventToLog ev (events st)
    /\ type ev = kind
    /\ data ev
       = match truthy_property j (utf16 "instance") with
         | Some i => i
         | None =>
           match truthy_property j (utf16 "data") with
           | Some d => d
           | None => JObject []
           end
         end
    /\ forall members,
         own_property j (utf16 "instance") = Some (JObject members) ->
         data ev = JObject members.
Proof.
  intros Hscan Hdl Hparse Hkind Htype.
  assert (Hnull : j <> JNull) by (by destruct j).
  rewrite (processSseMessageData_instance _ _ _ Hscan Hdl).
  destruct (try_decode_parsed dl j st Hparse Hnull) as (st' & time & -> & Hev & _).
  eexists. split; [exact Hev|].
  assert (Hdec : decoded j
                 = (kind, or_else (or_opt (own_property j (utf16 "instance"))
                                          (own_property j (utf16 "data"))) (JObject []), None)).
  { unfold decoded. rewrite Htype.
    rewrite switch_type_name by (intros ->; simpl in Hkind; intuition discriminate).
    simpl in Hkind. by destruct Hkind as [<-|[<-|[<-|[<-|[]]]]]. }
  cbn [type data]. rewrite Hdec. cbn [fst snd].
  split; [done|]. unfold truthy_property, or_opt, or_else, truthy_opt. split.
  - destruct (own_property j (utf16 "instance")) as [i|];
      [destruct (truthy i) eqn:Hi; [by rewrite Hi|]|];
      destruct (own_property j (utf16 "data")) as [d|]; try done;
      by destruct (truthy d) eqn:Hd; rewrite ?Hd.
  - by intros members ->.
Qed.


(** The events made up for a data line that is no payload carry no level. *)
Lemma made_up_events_have_no_level text st :
  exists ev, events (add_log text None st) = addEventToLog ev (events st)
             /\ data ev = JString text /\ level ev = None.
Proof. eexists. split; [apply events_add_log|done]. Qed.

End Classification.

(** ** Timers *)

Section Timers.

Lemma timers_clearTimeout_length t st : length (timers (clearTimeout t st)) = length (timers st).
Proof.
  unfold clearTimeout. destruct (timers st !! t) as [[]|]; try done.
  cbn [timers set_timers]. apply length_insert.
Qed.

Lemma clearTimeout_frame t st :
  events (clearTimeout t st) = events st /\ retryCountRef (clearTimeout t st) = retryCountRef st
  /\ controllers (clearTimeout t st) = controllers st
  /\ abortControllerRef (clearTimeout t st) = abortControllerRef st.
Proof. unfold clearTimeout. by destruct (timers st !! t) as [[]|]. Qed.

Lemma clearTimeout_not_pending t st d : timers (clearTimeout t st) !! t <> Some (Pending d).
Proof.
  unfold clearTimeout. destruct (timers st !! t) as [[d'| |]|] eqn:Ht; cbn [timers set_timers];
    try (rewrite Ht; done).
  rewrite list_lookup_insert_eq; [done|]. by apply lookup_lt_Some in Ht.
Qed.

Lemma clearTimeout_pending t st t' d :
  timers (clearTimeout t st) !! t' = Some (Pending d) -> timers st !! t' = Some (Pending d).
Proof.
  unfold clearTimeout. destruct (timers st !! t) as [[d'| |]|] eqn:Ht; cbn [timers set_timers];
    try done.
  destruct (decide (t = t')) as [->|Hne].
  - rewrite list_lookup_insert_eq; [done|]. by apply lookup_lt_Some in Ht.
  - by rewrite list_lookup_insert_ne.
Qed.

End Timers.

(** ** What every reachable state satisfies *)

Section Invariant.

Context `{Host}.

Lemma follows_refl st : follows st st.
Proof. by split. Qed.

Lemma follows_trans st1 st2 st3 : follows st1 st2 -> follows st2 st3 -> follows st1 st3.
Proof. intros [? ?] [? ?]. split; [auto | lia]. Qed.

Lemma follows_connection st st' : connection st' = connection st -> follows st st'.
Proof.
  unfold connection. intros [= Ha Hc Hr Ht].
  split; [|by rewrite Hc]. unfold well_formed. by rewrite Ha, Hc, Hr, Ht.
Qed.

Lemma follows_abort_current st : follows st (abort_current st).
Proof.
  unfold abort_current. destruct (abortControllerRef st) as [c|] eqn:Hc; [|apply follows_refl].
  destruct (aborted st c); [apply follows_refl|].
  split; [|cbn [controllers set_controllers]; by rewrite length_insert].
  intros (H1 & H2 & H3).
  unfold well_formed. cbn [abortControllerRef controllers reconnectTimeoutRef timers set_controllers].
  rewrite length_insert. repeat split; try done.
  intros c' b Hl Hne. rewrite list_lookup_insert_ne in Hl by congruence. eauto.
Qed.

(** After [abort_current] every controller is aborted. *)
Lemma abort_current_all st :
  well_formed st -> forall c b, controllers (abort_current st) !! c = Some b -> b = true.
Proof.
  intros (H1 & H2 & H3) c b. unfold abort_current.
  destruct (abortControllerRef st) as [c0|] eqn:Hc0; [|intros Hl; apply (H2 c b Hl); done].
  destruct (aborted st c0) eqn:Hab.
  - intros Hl. destruct (decide (c = c0)) as [->|Hne].
    + unfold aborted in Hab. rewrite Hl in Hab. done.
    + apply (H2 c b Hl). congruence.
  - cbn [controllers set_controllers]. destruct (decide (c0 = c)) as [->|Hne].
    + rewrite list_lookup_insert_eq by auto. by intros [= <-].
    + rewrite list_lookup_insert_ne by done. intros Hl. apply (H2 c b Hl). congruence.
Qed.

Lemma follows_clearTimeout t st : follows st (clearTimeout t st).
Proof.
  split; [|by destruct (clearTimeout_frame t st) as (_ & _ & -> & _)].
  intros (H1 & H2 & H3).
  destruct (clearTimeout_frame t st) as (_ & _ & Hc & Ha).
  assert (Hr : reconnectTimeoutRef (clearTimeout t st) = reconnectTimeoutRef st).
  { unfold clearTimeout. by destruct (timers st !! t) as [[]|]. }
  unfold well_formed. rewrite Hc, Ha, Hr. repeat split; try done.
  intros t' d Hp%clearTimeout_pending. eauto.
Qed.

Lemma follows_clear_reconnect_timeout st : follows st (clear_reconnect_timeout st).
Proof.
  unfold clear_reconnect_timeout. destruct (reconnectTimeoutRef st) as [t|] eqn:Hr;
    [|apply follows_refl].
  destruct (clearTimeout_frame t st) as (_ & _ & Hc & Ha).
  split; [|cbn [controllers set_reconnectTimeoutRef]; by rewrite Hc].
  intros (H1 & H2 & H3). unfold well_formed.
  cbn [abortControllerRef controllers reconnectTimeoutRef timers set_reconnectTimeoutRef].
  rewrite Hc, Ha. repeat split; try done.
  intros t' d Hp. pose proof (clearTimeout_pending _ _ _ _ Hp) as Hp'.
  apply H3 in Hp'. rewrite Hr in Hp'. injection Hp' as <-.
  by destruct (clearTimeout_not_pending t st d).
Qed.

Lemma follows_processSseMessageData block st : follows st (processSseMessageData block st).
Proof.
  destruct (processSseMessageData_frame block st) as (Ht & Hr & _ & Ha & Hc).
  destruct Hc as [Hc|Hc].
  - apply follows_connection. unfold connection. by rewrite Ht, Hr, Ha, Hc.
  - apply follows_trans with (abort_current st); [apply follows_abort_current|].
    apply follows_connection. unfold connection. rewrite Ht, Hr, Ha, Hc.
    unfold abort_current. destruct (abortControllerRef st) as [c|] eqn:Hc0; [|by rewrite Hc0].
    destruct (aborted st c); cbn; by rewrite Hc0.
Qed.

Lemma follows_process_blocks blocks : forall st, follows st (process_blocks blocks st).
Proof.
  induction blocks as [|block blocks IH]; intros st; [apply follows_refl|].
  cbn [process_blocks fold_left].
  destruct (negb (str_eqb (trim block) [])); [|apply IH].
  eapply follows_trans; [apply follows_processSseMessageData | apply IH].
Qed.

Lemma follows_scheduleReconnect p reason st : follows st (scheduleReconnect p reason st).
Proof.
  unfold scheduleReconnect.
  destruct (match abortControllerRef st with Some c => aborted st c | None => false end);
    [apply follows_refl|].
  set (st1 := setUiConnectionStatus _ _).
  set (st2 := if (1 <? retryCountRef st1)%nat then _ else st1).
  assert (H2 : follows st st2).
  { subst st2. destruct (1 <? retryCountRef st1)%nat; by apply follows_connection. }
  set (st3 := match reconnectTimeoutRef st2 with Some t => clearTimeout t st2 | None => st2 end).
  assert (H3 : follows st2 st3
               /\ (forall t d, timers st3 !! t = Some (Pending d) -> well_formed st2 -> False)
               /\ controllers st3 = controllers st2
               /\ abortControllerRef st3 = abortControllerRef st2).
  { subst st3. destruct (reconnectTimeoutRef st2) as [t|] eqn:Hr.
    - destruct (clearTimeout_frame t st2) as (_ & _ & Hc & Ha).
      split; [apply follows_clearTimeout|]. split; [|done].
      intros t' d Hp (_ & _ & Hw). pose proof (clearTimeout_pending _ _ _ _ Hp) as Hp'.
      apply Hw in Hp'. rewrite Hr in Hp'. injection Hp' as <-.
      by destruct (clearTimeout_not_pending t st2 d).
    - split; [apply follows_refl|]. split; [|done].
      intros t d Hp (_ & _ & Hw). apply Hw in Hp. congruence. }
  destruct H3 as (H3 & Hnone & Hc3 & Ha3).
  unfold setTimeout. cbn [set_reconnectTimeoutRef set_timers].
  split.
  - intros Hwf. pose proof (proj1 H2 Hwf) as Hwf2. pose proof (proj1 H3 Hwf2) as (W1 & W2 & W3).
    unfold well_formed.
    cbn [abortControllerRef controllers set_reconnectTimeoutRef set_timers].
    repeat split; try done.
    intros t d Hp.
    cbn [reconnectTimeoutRef timers set_reconnectTimeoutRef set_timers] in Hp |- *.
    destruct (decide (t < length (timers st3))%nat) as [Hlt|Hge].
    + rewrite lookup_app_l in Hp by done. by destruct (Hnone t d Hp Hwf2).
    + apply lookup_lt_Some in Hp. rewrite length_app in Hp. simpl in Hp.
      f_equal. lia.
  - cbn [controllers set_reconnectTimeoutRef set_timers]. rewrite Hc3. apply H2.
Qed.

Lemma follows_catch_block p signal e st : follows st (catch_block p signal e st).
Proof.
  unfold catch_block.
  destruct (_ && _); [by apply follows_connection|].
  destruct (negb _); [|by apply follows_connection].
  eapply follows_trans; [|apply follows_scheduleReconnect]. by apply follows_connection.
Qed.

Lemma follows_connectWithFetch p b st : follows st (connectWithFetch p b st).1.
Proof.
  unfold connectWithFetch. destruct (negb (identity_valid p)); [by apply follows_connection|].
  cbn [fst].
  eapply follows_trans; [|apply follows_clear_reconnect_timeout].
  set (st1 := abort_current st).
  set (st2 := set_abortControllerRef (Some (length (controllers st1)))
                (set_controllers (controllers st1 ++ [false]) st1)).
  apply follows_trans with st2.
  - split.
    + intros Hwf. pose proof (abort_current_all st Hwf) as Hall. fold st1 in Hall.
      pose proof (proj1 (follows_abort_current st) Hwf) as (W1 & W2 & W3). fold st1 in W1, W2, W3.
      unfold well_formed, st2.
      cbn [abortControllerRef controllers reconnectTimeoutRef timers
           set_abortControllerRef set_controllers].
      rewrite length_app. simpl. repeat split; try done.
      * intros c [= <-]. lia.
      * intros c b' Hl Hne. destruct (decide (c < length (controllers st1))%nat) as [Hlt|Hge].
        -- rewrite lookup_app_l in Hl by done. eauto.
        -- apply lookup_lt_Some in Hl. rewrite length_app in Hl. simpl in Hl.
           destruct Hne. f_equal. lia.
    + unfold st2. cbn [controllers set_abortControllerRef set_controllers].
      rewrite length_app. pose proof (proj2 (follows_abort_current st)) as Hlen.
      fold st1 in Hlen. lia.
  - destruct b; [|apply follows_refl]. by apply follows_connection.
Qed.

Lemma follows_after_fetch p signal r st : follows st (after_fetch p signal r st).1.
Proof.
  destruct r as [ok status statusText hasBody|e]; cbn [after_fetch];
    [|apply follows_catch_block].
  destruct ok; cbn [negb]; [|apply follows_refl].
  destruct hasBody; cbn [negb fst]; [|apply follows_catch_block].
  destruct (negb _); by apply follows_connection.
Qed.

Lemma follows_after_text p signal status statusText r st :
  follows st (after_text p signal status statusText r st).
Proof. destruct r; apply follows_catch_block. Qed.

Lemma follows_after_read p signal buffer r st : follows st (after_read p signal buffer r st).1.
Proof.
  destruct r as [text| |e]; cbn [after_read]; [| |apply follows_catch_block].
  - destruct (aborted st signal); [apply follows_refl|]. apply follows_process_blocks.
  - destruct (aborted st signal); [apply follows_refl|]. cbn [fst].
    destruct (negb _); [|by apply follows_connection].
    eapply follows_trans; [|apply follows_scheduleReconnect]. by apply follows_connection.
Qed.

Lemma follows_resume p k r st : follows st (resume p k r st).1.
Proof.
  destruct k, r; cbn [resume fst]; try apply follows_refl.
  - apply follows_after_fetch.
  - apply follows_after_text.
  - apply follows_after_read.
Qed.

Lemma follows_timer_fires p t st : follows st (timer_fires p t st).1.
Proof.
  unfold timer_fires. destruct (timers st !! t) as [[d| |]|] eqn:Ht; try apply follows_refl.
  eapply follows_trans; [|apply follows_connectWithFetch].
  split; [|done]. intros (W1 & W2 & W3). unfold well_formed.
  cbn [abortControllerRef controllers reconnectTimeoutRef timers set_timers].
  repeat split; try done.
  intros t' d' Hp. destruct (decide (t = t')) as [->|Hne].
  - rewrite list_lookup_insert_eq in Hp; [done|]. by apply lookup_lt_Some in Ht.
  - rewrite list_lookup_insert_ne in Hp by done. eauto.
Qed.

Lemma follows_useEffect_cleanup st : follows st (useEffect_cleanup st).
Proof.
  unfold useEffect_cleanup.
  eapply follows_trans; [apply follows_abort_current | apply follows_clear_reconnect_timeout].
Qed.

Lemma follows_useEffect_body p connected connecting st :
  follows st (useEffect_body p connected connecting st).1.
Proof.
  unfold useEffect_body. destruct (identity_valid p).
  - destruct (bool_decide _).
    + eapply follows_trans; [|apply follows_connectWithFetch].
      eapply follows_trans; [apply follows_abort_current|].
      eapply follows_trans; [apply follows_clear_reconnect_timeout|].
      by apply follows_connection.
    + destruct (_ && _); [|apply follows_refl].
      eapply follows_trans; [|apply follows_connectWithFetch]. by apply follows_connection.
  - cbn [fst].
    apply follows_trans with (setUiConnectionStatus ui_idle
                                (setIsConnecting false
                                   (setIsConnected false (setEvents (fun _ => []) st))));
      [by apply follows_connection|].
    eapply follows_trans; [apply follows_abort_current|].
    eapply follows_trans; [apply follows_clear_reconnect_timeout|].
    by apply follows_connection.
Qed.

Lemma connectWithFetch_task p b st k :
  (connectWithFetch p b st).2 = Some k ->
  (task_signal k < length (controllers (connectWithFetch p b st).1))%nat.
Proof.
  unfold connectWithFetch. destruct (negb (identity_valid p)); [done|].
  cbn [fst snd]. intros [= <-]. cbn [task_signal].
  set (st1 := abort_current st).
  match goal with |- (_ < length (controllers (clear_reconnect_timeout ?x)))%nat => set (st2 := x) end.
  assert (Hc : controllers st2 = controllers st1 ++ [false]) by (subst st2; by destruct b).
  pose proof (proj2 (follows_clear_reconnect_timeout st2)) as Hlen.
  rewrite Hc, length_app in Hlen. simpl in Hlen. lia.
Qed.

Lemma resume_task p k r st k' :
  (resume p k r st).2 = Some k' -> task_signal k' = task_signal k.
Proof.
  destruct k as [signal|signal status statusText|signal buffer], r as [r|r|r];
    cbn [resume snd]; try by intros [= <-].
  - destruct r as [ok status statusText hasBody|e]; cbn [after_fetch]; [|done].
    destruct ok; cbn [negb snd]; [|by intros [= <-]].
    destruct hasBody; cbn [negb snd]; [|done]. by intros [= <-].
  - destruct r as [text| |e]; cbn [after_read]; [| |done].
    + destruct (aborted st signal); [done|]. by intros [= <-].
    + by destruct (aborted st signal).
Qed.

Lemma spawn_in_order st tasks0 (r : Session * option Task) :
  well_formed st ->
  Forall (fun k => (task_signal k < length (controllers st))%nat) tasks0 ->
  follows st r.1 ->
  (forall k, r.2 = Some k -> (task_signal k < length (controllers r.1))%nat) ->
  in_order (spawn r tasks0).
Proof.
  intros Hwf Htasks [Hfw Hlen] Hnew. split; [by apply Hfw|].
  unfold spawn. cbn [session tasks]. apply Forall_app. split.
  - eapply Forall_impl; [exact Htasks|]. intros k Hk. simpl in Hk. lia.
  - destruct r.2 as [k|] eqn:Hk; [|by constructor].
    repeat constructor. by apply Hnew.
Qed.

Lemma step_in_order sys sys' : in_order sys -> step sys sys' -> in_order sys'.
Proof.
  intros [Hwf Htasks] Hstep. destruct Hstep as [p connected connecting sys|sys|p t sys|p i k r sys Hk].
  - apply (spawn_in_order (session sys)); [done | done | apply follows_useEffect_body|].
    intros k. unfold useEffect_body. destruct (identity_valid p); [|done].
    destruct (bool_decide _); [apply connectWithFetch_task|].
    destruct (_ && _); [apply connectWithFetch_task | done].
  - destruct (follows_useEffect_cleanup (session sys)) as [Hfw Hlen].
    split; [by apply Hfw|]. cbn [session tasks].
    eapply Forall_impl; [exact Htasks|]. intros k Hk'. simpl in Hk'. lia.
  - apply (spawn_in_order (session sys)); [done | done | apply follows_timer_fires|].
    intros k. unfold timer_fires. destruct (timers (session sys) !! t) as [[]|]; try done.
    apply connectWithFetch_task.
  - apply (spawn_in_order (session sys)); [done | by apply Forall_delete | apply follows_resume|].
    intros k' Hk'. rewrite (resume_task _ _ _ _ _ Hk').
    rewrite Forall_forall in Htasks.
    pose proof (Htasks k (list_elem_of_lookup_2 _ _ _ Hk)) as Hlt.
    pose proof (proj2 (follows_resume p k r (session sys))). lia.
Qed.

Lemma reachable_in_order sys : reachable sys -> in_order sys.
Proof.
  induction 1 as [|sys sys' _ IH Hstep]; [|by apply (step_in_order sys)].
  split; [|by constructor]. unfold well_formed, mount. cbn. repeat split; try done.
Qed.

(** In a reachable state, a suspended call whose signal is not aborted is
    the call of the current controller. *)
Lemma live_call_is_current sys k :
  reachable sys -> In k (tasks sys) -> aborted (session sys) (task_signal k) = false ->
  abortControllerRef (session sys) = Some (task_signal k)
  /\ (task_signal k < length (controllers (session sys)))%nat.
Proof.
  intros [(W1 & W2 & W3) Htasks]%reachable_in_order Hin Hlive.
  rewrite Forall_forall in Htasks.
  pose proof (Htasks k (proj2 (list_elem_of_In _ _) Hin)) as Hlt.
  split; [|done].
  destruct (lookup_lt_is_Some_2 _ _ Hlt) as [b Hb].
  unfold aborted in Hlive. rewrite Hb in Hlive. simpl in Hlive. subst b.
  destruct (decide (abortControllerRef (session sys) = Some (task_signal k))) as [|Hne];
    [done|]. by pose proof (W2 _ _ Hb Hne).
Qed.

End Invariant.

(** ** Disconnection and reconnection *)

Section Reconnection.

Context `{Host}.

(** Once its signal is aborted, a read loop ends at its next turn whatever
    it is resumed with, and schedules nothing. *)
Lemma after_read_aborted p signal buffer r st :
  aborted st signal = true ->
  exists st',
    after_read p signal buffer r st = (st', None)
    /\ events st' = events st /\ timers st' = timers st
    /\ reconnectTimeoutRef st' = reconnectTimeoutRef st
    /\ retryCountRef st' = retryCountRef st.
Proof.
  intros Hab. destruct r as [text| |e]; cbn [after_read].
  - rewrite Hab. by eexists.
  - rewrite Hab. by eexists.
  - eexists. split; [reflexivity|]. unfold catch_block.
    change (aborted (setIsConnecting false (setIsConnected false st)) signal)
      with (aborted st signal).
    rewrite Hab. cbn [andb negb].
    by destruct (bool_decide _).
Qed.

(** A [shutdown] frame met while the current controller is [signal]. *)
Lemma shutdown_frame_aborts p signal block dl j st :
  scan_lines block = (utf16 "instance", dl) -> dl <> [] -> JSON_parse dl = Some j ->
  own_property j (utf16 "type") = Some (JString (utf16 "shutdown")) ->
  abortControllerRef st = Some signal -> (signal < length (controllers st))%nat ->
  let st1 := processSseMessageData block st in
  (exists ev,
     events st1 = addEventToLog ev (events st)
     /\ type ev = shutdown
     /\ data ev = JString (utf16 "主控服务即将关闭。事件流已停止。"))
  /\ aborted st1 signal = true
  /\ forall blocks buffer r,
       let st2 := process_blocks blocks st1 in
       exists st3,
         after_read p signal buffer r st2 = (st3, None)
         /\ events st3 = events st2
         /\ timers st3 = timers st
         /\ reconnectTimeoutRef st3 = reconnectTimeoutRef st
         /\ retryCountRef st3 = retryCountRef st
         /\ ~ reconnection_scheduled st st3.
Proof.
  intros Hscan Hdl Hparse Htype Href Hlt st1.
  assert (Hnull : j <> JNull) by (by destruct j).
  assert (Hdec : decoded j = (shutdown, JString (utf16 "主控服务即将关闭。事件流已停止。"), None)).
  { unfold decoded. by rewrite Htype. }
  assert (Hst1 : aborted st1 signal = true).
  { subst st1. rewrite (processSseMessageData_instance _ _ _ Hscan Hdl).
    destruct (try_decode_parsed dl j st Hparse Hnull) as (st' & time & -> & _ & Hc & _).
    rewrite Hdec in Hc. cbn [fst] in Hc. unfold aborted. rewrite Hc.
    by apply abort_current_aborts. }
  split; [|split; [done|]].
  - subst st1. rewrite (processSseMessageData_instance _ _ _ Hscan Hdl).
    destruct (try_decode_parsed dl j st Hparse Hnull) as (st' & time & -> & Hev & _).
    eexists. split; [exact Hev|]. cbn [type data]. by rewrite Hdec.
  - intros blocks buffer r st2.
    destruct (processSseMessageData_frame block st) as (Ht1 & Hr1 & Hn1 & _).
    destruct (process_blocks_frame blocks st1) as (Ht2 & Hr2 & Hn2 & _ & Hab2).
    fold st1 in Ht1, Hr1, Hn1. fold st2 in Ht2, Hr2, Hn2, Hab2.
    destruct (after_read_aborted p signal buffer r st2 (Hab2 _ Hst1))
      as (st3 & Hread & He3 & Ht3 & Hr3 & Hn3).
    exists st3. split; [done|]. split; [done|].
    assert (Ht : timers st3 = timers st) by congruence.
    repeat split; try congruence.
    intros (t & _ & Hnone & Hsome). rewrite Ht in Hsome. congruence.
Qed.

Lemma process_blocks_cons block blocks st :
  str_eqb (trim block) [] = false ->
  process_blocks (block :: blocks) st = process_blocks blocks (processSseMessageData block st).
Proof. intros Hb. cbn [process_blocks fold_left]. by rewrite Hb. Qed.

(** C2, as amended.  In a reachable state, let a chunk reach the read loop
    of a call that is not cancelled and complete, after the blocks
    [before], an [instance] frame of type [shutdown].  Processing the frame
    appends a [shutdown] event with the fixed message and aborts the
    controller of the call; the blocks [after] it are still processed, and
    the loop then ends at its next turn, however [reader.read()] answers,
    with the timers, the ref to the timer and the retry counter as they
    were before the chunk: no reconnection is scheduled. *)
Theorem shutdown_frame_ends_the_stream sys p signal buffer text before block after dl j :
  reachable sys -> In (AwaitingRead signal buffer) (tasks sys) ->
  aborted (session sys) signal = false ->
  removelast (split (buffer ++ text) (LF ++ LF)) = before ++ block :: after ->
  scan_lines block = (utf16 "instance", dl) -> dl <> [] -> JSON_parse dl = Some j ->
  own_property j (utf16 "type") = Some (JString (utf16 "shutdown")) ->
  let st := session sys in
  let st0 := process_blocks before st in
  let st1 := fst (after_read p signal buffer (ReadChunk text) st) in
  (exists ev,
     events (processSseMessageData block st0) = addEventToLog ev (events st0)
     /\ type ev = shutdown
     /\ data ev = JString (utf16 "主控服务即将关闭。事件流已停止。"))
  /\ st1 = process_blocks after (processSseMessageData block st0)
  /\ aborted st1 signal = true
  /\ forall buffer' r,
       exists st2,
         after_read p signal buffer' r st1 = (st2, None)
         /\ events st2 = events st1
         /\ timers st2 = timers st
         /\ reconnectTimeoutRef st2 = reconnectTimeoutRef st
         /\ retryCountRef st2 = retryCountRef st
         /\ ~ reconnection_scheduled st st2.
Proof.
  intros Hreach Hin Hlive Hblocks Hscan Hdl Hparse Htype st st0 st1.
  destruct (live_call_is_current sys _ Hreach Hin Hlive) as [Href Hlt].
  cbn [task_signal] in Href, Hlt. fold st in Href, Hlt, Hlive.
  destruct (process_blocks_frame before st) as (Ht0 & Hr0 & Hn0 & Ha0 & _).
  fold st0 in Ht0, Hr0, Hn0, Ha0.
  assert (Hlt0 : (signal < length (controllers st0))%nat).
  { pose proof (proj2 (follows_process_blocks before st)) as Hlen. fold st0 in Hlen. lia. }
  rewrite <- Ha0 in Href.
  destruct (shutdown_frame_aborts p signal block dl j st0 Hscan Hdl Hparse Htype Href Hlt0)
    as (Hev & Haborted & Hend).
  assert (Hst1 : st1 = process_blocks after (processSseMessageData block st0)).
  { subst st1. cbn [after_read]. rewrite Hlive. cbn [fst]. rewrite Hblocks.
    rewrite process_blocks_app. fold st0.
    by rewrite (process_blocks_cons _ _ _ (scan_lines_not_blank _ _ _ Hscan Hdl)). }
  split; [exact Hev|]. split; [exact Hst1|].
  assert (Hlast : forall buffer' r,
             exists st2,
               after_read p signal buffer' r st1 = (st2, None)
               /\ events st2 = events st1 /\ timers st2 = timers st
               /\ reconnectTimeoutRef st2 = reconnectTimeoutRef st
               /\ retryCountRef st2 = retryCountRef st
               /\ ~ reconnection_scheduled st st2).
  { intros buffer' r. rewrite Hst1.
    destruct (Hend after buffer' r) as (st2 & Hread & He & Ht & Hr & Hn & _).
    exists st2. split; [exact Hread|]. split; [exact He|].
    assert (Ht' : timers st2 = timers st) by congruence.
    repeat split; try congruence.
    intros (t & _ & Hnone & Hsome). rewrite Ht' in Hsome. congruence. }
  split; [|exact Hlast].
  rewrite Hst1.
  destruct (process_blocks_frame after (processSseMessageData block st0)) as (_ & _ & _ & _ & Hmono).
  by apply Hmono.
Qed.

(** What [scheduleReconnect] does when the current controller is not
    aborted. *)
Lemma scheduleReconnect_live p reason st c :
  abortControllerRef st = Some c -> aborted st c = false ->
  let retry := S (retryCountRef st) in
  let st' := scheduleReconnect p reason st in
  retryCountRef st' = retry
  /\ reconnectTimeoutRef st' = Some (length (timers st))
  /\ timers st' !! length (timers st) = Some (Pending 5000)
  /\ events st'
     = if (1 <? retry)%nat
       then addEventToLog
              (log_event (uiErrorMessage p reason retry) (Some (utf16 "ERROR"))
                 (clock (clock_reads st)))
              (events st)
       else events st.
Proof.
  intros Href Hlive retry st'. subst st'. unfold scheduleReconnect.
  rewrite Href, Hlive.
  cbn [retryCountRef set_retryCountRef setIsConnected setUiConnectionStatus].
  fold retry.
  set (st1 := if (1 <? retry)%nat then _ else _).
  assert (Hst1 : events st1
                 = (if (1 <? retry)%nat
                    then addEventToLog
                           (log_event (uiErrorMessage p reason retry) (Some (utf16 "ERROR"))
                              (clock (clock_reads st))) (events st)
                    else events st)
                 /\ retryCountRef st1 = retry /\ timers st1 = timers st
                 /\ reconnectTimeoutRef st1 = reconnectTimeoutRef st).
  { subst st1. by destruct (1 <? retry)%nat. }
  destruct Hst1 as (He1 & Hn1 & Ht1 & Hr1).
  set (st2 := match reconnectTimeoutRef st1 with Some t => clearTimeout t st1 | None => st1 end).
  assert (Hst2 : events st2 = events st1 /\ retryCountRef st2 = retryCountRef st1
                 /\ length (timers st2) = length (timers st1)).
  { subst st2. destruct (reconnectTimeoutRef st1) as [t|]; [|done].
    destruct (clearTimeout_frame t st1) as (? & ? & _).
    by rewrite timers_clearTimeout_length. }
  destruct Hst2 as (He2 & Hn2 & Hl2).
  unfold setTimeout.
  cbn [retryCountRef reconnectTimeoutRef timers events set_reconnectTimeoutRef set_timers].
  rewrite Hn2, Hn1, Hl2, Ht1, He2, He1. repeat split; try done.
  rewrite <- Ht1, <- Hl2. rewrite lookup_app_r by done.
  by rewrite Nat.sub_diag.
Qed.


Lemma after_read_disconnected p signal buffer r st :
  aborted st signal = false -> (forall text, r <> ReadChunk text) ->
  after_read p signal buffer r st
  = (scheduleReconnect p
       match r with
       | ReadRejected e => reason_of e
       | _ => utf16 "服务器关闭"
       end
       match r with
       | ReadRejected e => setIsConnecting false (setIsConnected false st)
       | _ => setIsConnected false st
       end, None).
Proof.
  intros Hlive Hr. destruct r as [text| |e]; cbn [after_read].
  - by destruct (Hr text).
  - rewrite Hlive.
    change (aborted (setIsConnected false st) signal) with (aborted st signal).
    by rewrite Hlive.
  - unfold catch_block.
    change (aborted (setIsConnecting false (setIsConnected false st)) signal)
      with (aborted st signal).
    by rewrite Hlive.
Qed.

(** The effect run with an identity that lacks a prop, from any session. *)
Lemma idle_entry p connected connecting st :
  identity_valid p = false ->
  (exists st',
    useEffect_body p connected connecting st = (st', None)
    /\ uiConnectionStatus st' = ui_idle /\ isConnected st' = false /\ isConnecting st' = false
    /\ events st' = []
    /\ (forall c, abortControllerRef st = Some c -> (c < length (controllers st))%nat ->
                  aborted st' c = true)
    /\ reconnectTimeoutRef st' = None
    /\ (forall t d, reconnectTimeoutRef st = Some t -> timers st' !! t <> Some (Pending d))
    /\ (forall t d, timers st' !! t = Some (Pending d) -> timers st !! t = Some (Pending d))
    /\ retryCountRef st' = retryCountRef st
    /\ currentApiIdRef st' = None)
  /\ forall isInitialAttemptForCurrentApi,
       connectWithFetch p isInitialAttemptForCurrentApi st
       = (add_log (utf16 "API 配置无效，事件流禁用。") None (setUiConnectionStatus ui_idle st), None).
Proof.
  intros Hinvalid. split; [|intros b; unfold connectWithFetch; by rewrite Hinvalid].
  unfold useEffect_body. rewrite Hinvalid.
  eexists. split; [reflexivity|].
  set (st1 := setUiConnectionStatus ui_idle
                (setIsConnecting false (setIsConnected false (setEvents (fun _ => []) st)))).
  assert (Hst1 : abortControllerRef st1 = abortControllerRef st
                 /\ controllers st1 = controllers st) by done.
  destruct Hst1 as (Ha1 & Hc1).
  set (st2 := abort_current st1).
  assert (Hst2 : reconnectTimeoutRef st2 = reconnectTimeoutRef st /\ timers st2 = timers st
                 /\ retryCountRef st2 = retryCountRef st /\ events st2 = []
                 /\ uiConnectionStatus st2 = ui_idle /\ isConnected st2 = false
                 /\ isConnecting st2 = false
                 /\ controllers st2 = controllers (abort_current st1)).
  { subst st2. unfold abort_current. destruct (abortControllerRef st1) as [c|]; [|done].
    by destruct (aborted st1 c). }
  destruct Hst2 as (Hr2 & Ht2 & Hn2 & He2 & Hu2 & Hi2 & Hj2 & Hc2).
  unfold clear_reconnect_timeout. rewrite Hr2.
  destruct (reconnectTimeoutRef st) as [t|] eqn:Hr.
  - cbn [uiConnectionStatus isConnected isConnecting events reconnectTimeoutRef timers
         retryCountRef currentApiIdRef set_currentApiIdRef set_reconnectTimeoutRef].
    destruct (clearTimeout_frame t st2) as (He & Hn & Hc & _).
    assert (Hflags : uiConnectionStatus (clearTimeout t st2) = ui_idle
                     /\ isConnected (clearTimeout t st2) = false
                     /\ isConnecting (clearTimeout t st2) = false).
    { unfold clearTimeout. by destruct (timers st2 !! t) as [[]|]. }
    destruct Hflags as (-> & -> & ->). rewrite He, Hn, He2, Hn2.
    repeat split; try done.
    + intros c Hc' Hlt. unfold aborted. cbn [controllers set_currentApiIdRef set_reconnectTimeoutRef].
      rewrite Hc, Hc2.
      apply (abort_current_aborts st1 c); [by rewrite Ha1 | by rewrite Hc1].
    + intros t' d [= <-]. apply clearTimeout_not_pending.
    + intros t' d Hp%clearTimeout_pending. by rewrite <- Ht2.
  - cbn [uiConnectionStatus isConnected isConnecting events reconnectTimeoutRef timers
         retryCountRef currentApiIdRef set_currentApiIdRef].
    rewrite Hu2, Hi2, Hj2, He2, Hn2, Ht2, Hr2.
    repeat split; try done.
    intros c Hc' Hlt. unfold aborted. cbn [controllers set_currentApiIdRef]. rewrite Hc2.
    apply (abort_current_aborts st1 c); [by rewrite Ha1 | by rewrite Hc1].
Qed.

(** C9, as amended.  When a prop of the identity is missing, the effect
    takes the session to idle from any reachable state: it starts no
    attempt, empties the log and leaves it empty, leaves every suspended
    call with its signal aborted, leaves no timer pending and forgets the
    reconnection timer, and does not touch the retry counter.  The
    diagnostic that the feed is disabled is appended, once, only by a call
    of [connectWithFetch] with such an identity, which sets the status to
    idle and changes nothing else. *)
Theorem invalid_identity_enters_idle sys p connected connecting :
  reachable sys -> identity_valid p = false ->
  let st := session sys in
  (exists st',
    useEffect_body p connected connecting st = (st', None)
    /\ uiConnectionStatus st' = ui_idle /\ isConnected st' = false /\ isConnecting st' = false
    /\ events st' = []
    /\ Forall (fun k => aborted st' (task_signal k) = true) (tasks sys)
    /\ reconnectTimeoutRef st' = None
    /\ (forall t d, timers st' !! t <> Some (Pending d))
    /\ retryCountRef st' = retryCountRef st
    /\ currentApiIdRef st' = None)
  /\ forall isInitialAttemptForCurrentApi,
       connectWithFetch p isInitialAttemptForCurrentApi st
       = (add_log (utf16 "API 配置无效，事件流禁用。") None (setUiConnectionStatus ui_idle st), None).
Proof.
  intros Hreach Hinvalid st.
  destruct (idle_entry p connected connecting st Hinvalid)
    as ((st' & Hbody & Hidle & Hc & Hg & Hev & Hab & Href & _ & _ & Hn & Hid) & Hguard).
  split; [|exact Hguard].
  destruct (reachable_in_order sys Hreach) as [Hwf Htasks]. fold st in Hwf, Htasks.
  pose proof (follows_useEffect_body p connected connecting st) as [Hfw Hlen].
  rewrite Hbody in Hfw, Hlen.
  cbn [fst] in Hfw, Hlen. destruct (Hfw Hwf) as (W1 & W2 & W3).
  assert (Hsame : abortControllerRef st' = abortControllerRef st).
  { unfold useEffect_body in Hbody. rewrite Hinvalid in Hbody. injection Hbody as <-.
    cbn [abortControllerRef set_currentApiIdRef]. unfold clear_reconnect_timeout.
    set (st2 := abort_current _).
    assert (Ha2 : abortControllerRef st2 = abortControllerRef st).
    { subst st2. unfold abort_current. cbn [abortControllerRef setUiConnectionStatus
        setIsConnecting setIsConnected setEvents].
      destruct (abortControllerRef st) as [c|] eqn:Hc0; [|done].
      by destruct (aborted _ c). }
    destruct (reconnectTimeoutRef st2) as [t|]; [|done].
    cbn [abortControllerRef set_reconnectTimeoutRef].
    by destruct (clearTimeout_frame t st2) as (_ & _ & _ & ->). }
  exists st'. repeat split; try done.
  - apply Forall_forall. intros k Hk. rewrite Forall_forall in Htasks.
    pose proof (Htasks k Hk) as Hlt. simpl in Hlt.
    destruct (decide (abortControllerRef st = Some (task_signal k))) as [Hcur|Hne];
      [by apply Hab|].
    assert (Hlt' : (task_signal k < length (controllers st'))%nat) by lia.
    destruct (lookup_lt_is_Some_2 _ _ Hlt') as [b Hb].
    unfold aborted. rewrite Hb. simpl. apply (W2 _ _ Hb). by rewrite Hsame.
  - intros t d Hp. apply W3 in Hp. congruence.
Qed.

End Reconnection.

(** ** The event log *)

Section EventLog.

Implicit Types new e : InstanceEvent.
Implicit Types prev : list InstanceEvent.

Lemma filter_take_plain n prev :
  List.filter plain (take n (List.filter plain prev)) = take n (List.filter plain prev).
Proof.
  revert n; induction prev as [|e prev IH]; intros n; [by destruct n|]. simpl.
  destruct (plain e) eqn:He; [|apply IH].
  destruct n; [done|]. simpl. by rewrite He, IH.
Qed.

Lemma filter_status_take_plain n prev :
  List.filter (fun e => is_status_message (data e)) (take n (List.filter plain prev)) = [].
Proof.
  revert n; induction prev as [|e prev IH]; intros n; [by destruct n|]. simpl.
  destruct (plain e) eqn:He; [|apply IH].
  destruct n; [done|]. simpl. unfold plain in He.
  destruct (is_status_message (data e)); [done|]. apply IH.
Qed.

Lemma take_removelast {A} (l : list A) : take (length l - 1) l = removelast l.
Proof.
  induction l as [|x l IH]; [done|].
  destruct l as [|y l]; [done|].
  cbn [length] in *. replace (S (S (length l)) - 1)%nat with (S (S (length l) - 1)) by lia.
  cbn [take]. by rewrite IH.
Qed.

(** C4, as amended.  Inserting an event whose payload is a status line
    first removes every buffered status line: the new log is the new event
    followed by the newest 199 of the buffered events that are not status
    lines, in their order, so the new event is its only status line, and
    the buffered events that are not status lines all stay, untouched,
    when there are at most 199 of them. *)
Theorem status_line_replaces_the_earlier_ones new prev :
  is_status_message (data new) = true ->
  addEventToLog new prev = new :: take 199 (List.filter plain prev)
  /\ List.filter (fun e => is_status_message (data e)) (addEventToLog new prev) = [new]
  /\ List.filter plain (addEventToLog new prev) = take 199 (List.filter plain prev)
  /\ ((length (List.filter plain prev) <= 199)%nat ->
      List.filter plain (addEventToLog new prev) = List.filter plain prev).
Proof.
  intros Hnew. unfold addEventToLog, slice0. rewrite Hnew. fold plain.
  split; [done|]. split; [|split].
  - cbn [List.filter]. rewrite Hnew. by rewrite filter_status_take_plain.
  - cbn [List.filter]. unfold plain at 1. rewrite Hnew. cbn [negb]. apply filter_take_plain.
  - intros Hlen. cbn [List.filter]. unfold plain at 1. rewrite Hnew. cbn [negb].
    rewrite filter_take_plain. by apply take_ge.
Qed.

(** C5, as amended.  The log never holds more than 200 events: an
    insertion puts the new event first, in front of the first 199 of the
    events that remain of the buffer once the status lines a new status
    line replaces are removed.  So a log of 200 events loses its oldest
    event when the new event is not a status line, or when the log holds
    no status line to remove. *)
Theorem log_holds_at_most_200 new prev :
  (length (addEventToLog new prev) <= 200)%nat
  /\ head (addEventToLog new prev) = Some new
  /\ addEventToLog new prev
     = new :: take 199 (if is_status_message (data new) then List.filter plain prev else prev)
  /\ (length prev = 200%nat ->
      is_status_message (data new) = false \/ List.filter plain prev = prev ->
      addEventToLog new prev = new :: removelast prev).
Proof.
  unfold addEventToLog, slice0. fold plain.
  split; [|split; [done|split; [done|]]].
  - cbn [length]. rewrite length_take. lia.
  - intros Hlen Hkeep. rewrite <- take_removelast, Hlen.
    destruct Hkeep as [-> | Hkeep]; [done|].
    rewrite Hkeep. by destruct (is_status_message (data new)).
Qed.

End EventLog.

(** * Further properties

    Properties of the code beyond the statements of the specification: of
    the session, of what the component shows, of the saved connections and
    of the URL of an instance.  The reconnection policy of the
    specification is proved here too, as it rests on the invariants of
    this part. *)

(** ** Splitting and joining *)

Section Splitting.

Implicit Types s t p sep : jsstring.

Lemma startsWith_eq s p : startsWith s p = true -> s = p ++ drop (length p) s.
Proof.
  revert s; induction p as [|c p IH]; intros s Hp; [done|].
  destruct s as [|d s]; simpl in Hp; [done|].
  apply andb_prop in Hp as [Hc Hs]. apply N.eqb_eq in Hc as ->.
  simpl. f_equal. by apply IH.
Qed.

Lemma join_cons p ps sep : ps <> [] -> join (p :: ps) sep = p ++ sep ++ join ps sep.
Proof. by destruct ps. Qed.

Lemma split_aux_join sep s : forall k,
  sep <> [] -> (k <= length s)%nat -> join (split_aux sep k s) sep = drop k s.
Proof.
  induction s as [|c s IH]; intros k Hsep Hk.
  - simpl in Hk. by assert (k = 0%nat) as -> by lia.
  - destruct k as [|k]; [|simpl in Hk; cbn [split_aux drop]; apply IH; [done | lia]].
    cbn [split_aux drop].
    destruct (startsWith (c :: s) sep) eqn:Hp.
    + pose proof (startsWith_length _ _ Hp) as Hl.
      rewrite join_cons by apply split_aux_nonempty.
      destruct sep as [|x sep]; [done|]. simpl in Hl.
      rewrite IH by (simpl; lia || done).
      etrans; [|symmetry; apply (startsWith_eq _ _ Hp)].
      simpl. by rewrite Nat.sub_0_r.
    + specialize (IH 0%nat Hsep ltac:(lia)).
      destruct (split_aux sep 0 s) as [|q qs] eqn:Hq;
        [by destruct (split_aux_nonempty sep 0 s)|].
      rewrite drop_0 in IH. rewrite <- IH. by destruct qs.
Qed.

Lemma split_aux_head_prefix sep s p ps :
  split_aux sep 0 s = p :: ps -> exists t, s = p ++ t.
Proof.
  revert p ps; induction s as [|c s IH]; intros p ps; cbn [split_aux].
  - intros [= <- <-]. by exists [].
  - destruct (startsWith (c :: s) sep).
    + intros [= <- _]. by exists (c :: s).
    + destruct (split_aux sep 0 s) as [|q qs] eqn:Hq;
        [by destruct (split_aux_nonempty sep 0 s)|].
      intros [= <- <-]. destruct (IH q qs eq_refl) as [t ->]. by exists t.
Qed.

Lemma split_aux_clean sep s : forall k,
  sep <> [] -> Forall (fun p => includes p sep = false) (split_aux sep k s).
Proof.
  induction s as [|c s IH]; intros k Hsep.
  - simpl. constructor; [by destruct sep | constructor].
  - destruct k as [|k]; [|cbn [split_aux]; by apply IH].
    cbn [split_aux].
    destruct (startsWith (c :: s) sep) eqn:Hp.
    + constructor; [by destruct sep | by apply IH].
    + specialize (IH 0%nat Hsep).
      destruct (split_aux sep 0 s) as [|q qs] eqn:Hq;
        [by destruct (split_aux_nonempty sep 0 s)|].
      apply Forall_cons in IH as [Hq' Hqs]. constructor; [|done].
      destruct (split_aux_head_prefix _ _ _ _ Hq) as [t ->].
      change (startsWith (c :: q) sep || includes q sep = false).
      rewrite Hq', orb_false_r.
      destruct (startsWith (c :: q) sep) eqn:Hcq; [|done].
      change (c :: q ++ t) with ((c :: q) ++ t) in Hp.
      by rewrite (startsWith_app _ t _ Hcq) in Hp.
Qed.

(** X1.  Splitting loses nothing: for a separator that is not empty, the
    pieces of [s.split(sep)] joined again with the separator between them
    give [s] back, and no piece contains the separator.  The read loop
    relies on this for its buffer and [processSseMessageData] for the lines
    of a block. *)
Theorem split_loses_nothing s sep :
  sep <> [] ->
  join (split s sep) sep = s
  /\ Forall (fun p => includes p sep = false) (split s sep).
Proof.
  intros Hsep. unfold split. destruct sep as [|x sep]; [done|]. split.
  - rewrite split_aux_join by (done || lia). apply drop_0.
  - by apply split_aux_clean.
Qed.

End Splitting.

(** ** The lines of a block *)

Section Lines.

Implicit Types s t p sep line block : jsstring.

Lemma split_aux_char c a b :
  includes a [c] = false -> split_aux [c] 0 (a ++ [c] ++ b) = a :: split_aux [c] 0 b.
Proof.
  induction a as [|x a IH]; intros Ha.
  - cbn [app split_aux startsWith]. by rewrite N.eqb_refl.
  - apply orb_false_elim in Ha as [Hx Ha]. cbn [startsWith] in Hx.
    rewrite andb_true_r in Hx.
    cbn [app split_aux startsWith]. rewrite Hx. cbn [andb].
    change (a ++ c :: b) with (a ++ [c] ++ b). by rewrite (IH Ha).
Qed.

(** The lines of a block that is given one more line. *)
Lemma split_line block line :
  includes line LF = false -> split (block ++ LF ++ line) LF = split block LF ++ [line].
Proof.
  intros Hl. unfold split, LF in *. cbv iota.
  rewrite split_aux_app by (done || lia).
  rewrite split_aux_char by (apply split_aux_last_clean; done || lia).
  rewrite (split_aux_no_separator _ _ Hl).
  rewrite (app_removelast_last [] (split_aux_nonempty [10] 0 block)) at 3.
  by rewrite <- app_assoc.
Qed.

Lemma event_prefix : utf16 "event:" = [101; 118; 101; 110; 116; 58].
Proof. by vm_compute. Qed.

Lemma data_prefix : utf16 "data:" = [100; 97; 116; 97; 58].
Proof. by vm_compute. Qed.

Lemma substring_from_app p s : substring_from (p ++ s) (length p) = s.
Proof.
  unfold substring_from, substring. rewrite length_app.
  rewrite (Nat.min_l (length p)) by lia. rewrite Nat.min_id.
  rewrite Nat.max_r, Nat.min_l by lia.
  rewrite drop_app_length. apply take_ge. lia.
Qed.

(** X2.  Of several [data:] lines of a block the last one wins, and so for
    [event:]: a block that goes on with one more line [data:d] has the
    event name it had and [d], trimmed, for its data; the data lines are not
    put together. *)
Theorem last_line_wins block d :
  includes d LF = false ->
  scan_lines (block ++ LF ++ utf16 "data:" ++ d) = ((scan_lines block).1, trim d)
  /\ scan_lines (block ++ LF ++ utf16 "event:" ++ d) = (trim d, (scan_lines block).2).
Proof.
  intros Hd. unfold scan_lines.
  assert (Hdata : includes (utf16 "data:" ++ d) LF = false).
  { rewrite data_prefix. simpl. exact Hd. }
  assert (Hevent : includes (utf16 "event:" ++ d) LF = false).
  { rewrite event_prefix. simpl. exact Hd. }
  rewrite !split_line by done. rewrite !fold_left_app. cbn [fold_left].
  destruct (fold_left _ (split block LF) _) as [e dl].
  rewrite !substring_from_app.
  rewrite (startsWith_prefix (utf16 "event:") d), (startsWith_prefix (utf16 "data:") d).
  split; [|done].
  replace (startsWith (utf16 "data:" ++ d) (utf16 "event:")) with false; [done|].
  by rewrite data_prefix, event_prefix.
Qed.

Lemma scan_lines_no_data lines : forall e,
  Forall (fun line => startsWith line (utf16 "data:") = false) lines ->
  snd (fold_left
         (fun (acc : jsstring * jsstring) (line : jsstring) =>
            let (eventTypeFromServer, eventDataLine) := acc in
            if startsWith line (utf16 "event:")
            then (trim (substring_from line (length (utf16 "event:"))), eventDataLine)
            else if startsWith line (utf16 "data:")
            then (eventTypeFromServer, trim (substring_from line (length (utf16 "data:"))))
            else acc)
         lines (e, [])) = [].
Proof.
  induction lines as [|line lines IH]; intros e Hl; [done|].
  apply Forall_cons in Hl as [Hline Hl]. cbn [fold_left].
  rewrite Hline. destruct (startsWith line (utf16 "event:")); by apply IH.
Qed.

Context `{Host}.

(** X3.  A block none of whose lines starts with [data:] (a comment, a
    keep-alive, an [event:] line alone) leaves the session as it is. *)
Theorem block_without_data_is_ignored block st :
  Forall (fun line => startsWith line (utf16 "data:") = false) (split block LF) ->
  processSseMessageData block st = st.
Proof.
  intros Hl. unfold processSseMessageData.
  pose proof (scan_lines_no_data _ (utf16 "message") Hl) as Hs.
  fold (scan_lines block) in Hs.
  destruct (scan_lines block) as [e dl]. simpl in Hs. subst dl.
  rewrite str_eqb_refl. cbn [negb]. by rewrite andb_false_r.
Qed.

End Lines.

(** ** One connection at a time *)

Section OneConnection.

Context `{Host}.

Lemma controllers_clear_reconnect_timeout st :
  controllers (clear_reconnect_timeout st) = controllers st.
Proof.
  unfold clear_reconnect_timeout. destruct (reconnectTimeoutRef st) as [t|]; [|done].
  cbn [controllers set_reconnectTimeoutRef]. by destruct (clearTimeout_frame t st) as (_ & _ & -> & _).
Qed.

Lemma length_controllers_abort_current st :
  length (controllers (abort_current st)) = length (controllers st).
Proof.
  unfold abort_current. destruct (abortControllerRef st) as [c|]; [|done].
  destruct (aborted st c); [done|]. cbn [controllers set_controllers]. apply length_insert.
Qed.

(** The call [connectWithFetch] starts waits on a controller made for it. *)
Lemma connectWithFetch_fresh p b st k :
  (connectWithFetch p b st).2 = Some k -> task_signal k = length (controllers st).
Proof.
  unfold connectWithFetch. destruct (negb (identity_valid p)); [done|].
  cbn [snd]. intros [= <-]. cbn [task_signal]. apply length_controllers_abort_current.
Qed.

Lemma useEffect_body_fresh p connected connecting st k :
  (useEffect_body p connected connecting st).2 = Some k ->
  task_signal k = length (controllers st).
Proof.
  unfold useEffect_body. destruct (identity_valid p); [|done].
  destruct (bool_decide _).
  - intros Hk%connectWithFetch_fresh. rewrite Hk.
    cbn [controllers set_currentApiIdRef set_hasLoggedInitialConnectionRef set_retryCountRef
         setUiConnectionStatus setIsConnecting setIsConnected setEvents].
    by rewrite controllers_clear_reconnect_timeout, length_controllers_abort_current.
  - destruct (_ && _); [|done]. intros Hk%connectWithFetch_fresh. by rewrite Hk.
Qed.

Lemma timer_fires_fresh p t st k :
  (timer_fires p t st).2 = Some k -> task_signal k = length (controllers st).
Proof.
  unfold timer_fires. destruct (timers st !! t) as [[d| |]|]; try done.
  intros Hk%connectWithFetch_fresh. by rewrite Hk.
Qed.


Lemma spawn_fresh sys (r : Session * option Task) :
  in_order sys -> distinct_signals sys ->
  (forall k, r.2 = Some k -> task_signal k = length (controllers (session sys))) ->
  distinct_signals (spawn r (tasks sys)).
Proof.
  intros [_ Htasks] Hnd Hk. unfold distinct_signals, spawn. cbn [tasks].
  rewrite map_app. destruct r.2 as [k|]; cbn [option_list option_rect map]; [|by rewrite app_nil_r].
  apply NoDup_app. split; [done|]. split; [|apply NoDup_singleton].
  intros c Hc ->%list_elem_of_singleton.
  apply list_elem_of_fmap in Hc as (k' & Hs & Hk').
  rewrite Forall_forall in Htasks. specialize (Htasks k' Hk').
  rewrite (Hk k eq_refl) in Hs. simpl in Htasks. lia.
Qed.

Lemma NoDup_delete_snoc {A} (l : list A) i x :
  NoDup l -> l !! i = Some x -> NoDup (base.delete i l ++ [x]).
Proof.
  intros Hnd Hl. rewrite <- (take_drop_middle l i x Hl) in Hnd.
  rewrite delete_take_drop.
  apply NoDup_app in Hnd as (H1 & H2 & H3). apply NoDup_cons in H3 as [H3 H4].
  apply NoDup_app. split; [|split; [|apply NoDup_singleton]].
  - apply NoDup_app. split; [done|]. split; [|done].
    intros y Hy Hy'. apply (H2 y Hy). by right.
  - intros y [Hy|Hy]%elem_of_app ->%list_elem_of_singleton.
    + apply (H2 x Hy). by left.
    + done.
Qed.

Lemma step_distinct_signals sys sys' :
  in_order sys -> distinct_signals sys -> step sys sys' -> distinct_signals sys'.
Proof.
  intros Hord Hnd Hstep. destruct Hstep as [p connected connecting sys|sys|p t sys|p i k r sys Hk].
  - apply spawn_fresh; [done | done | apply useEffect_body_fresh].
  - done.
  - apply spawn_fresh; [done | done | apply timer_fires_fresh].
  - unfold distinct_signals, spawn. cbn [tasks]. rewrite map_app.
    destruct (resume p k r (session sys)).2 as [k'|] eqn:Hk'; cbn [option_list option_rect map].
    + rewrite (resume_task _ _ _ _ _ Hk').
      change (map task_signal (base.delete i (tasks sys)))
        with (task_signal <$> base.delete i (tasks sys)).
      rewrite list_fmap_delete. apply NoDup_delete_snoc; [done|].
      by rewrite list_lookup_fmap, Hk.
    + rewrite app_nil_r.
      change (map task_signal (base.delete i (tasks sys)))
        with (task_signal <$> base.delete i (tasks sys)).
      rewrite list_fmap_delete. eapply sublist_NoDup; [exact Hnd | apply sublist_delete].
Qed.

Lemma reachable_distinct_signals sys : reachable sys -> distinct_signals sys.
Proof.
  induction 1 as [|sys sys' Hr IH Hstep]; [constructor|].
  eapply step_distinct_signals; [by apply reachable_in_order | done | done].
Qed.

(** X4.  One connection at a time.  In every reachable state at most one
    suspended call has a signal that is not aborted, at most one controller
    is not aborted, and at most one timer is pending. *)
Theorem one_connection_at_a_time sys :
  reachable sys ->
  let st := session sys in
  (forall i j k k',
     tasks sys !! i = Some k -> tasks sys !! j = Some k' ->
     aborted st (task_signal k) = false -> aborted st (task_signal k') = false -> i = j)
  /\ (forall c c', controllers st !! c = Some false -> controllers st !! c' = Some false -> c = c')
  /\ (forall t t' d d',
        timers st !! t = Some (Pending d) -> timers st !! t' = Some (Pending d') -> t = t').
Proof.
  intros Hr st. pose proof (reachable_in_order _ Hr) as [(W1 & W2 & W3) Htasks].
  pose proof (reachable_distinct_signals _ Hr) as Hnd.
  split; [|split].
  - intros i j k k' Hi Hj Hk Hk'.
    destruct (live_call_is_current sys k Hr) as [Hc _];
      [by eapply list_elem_of_In, list_elem_of_lookup_2 | done |].
    destruct (live_call_is_current sys k' Hr) as [Hc' _];
      [by eapply list_elem_of_In, list_elem_of_lookup_2 | done |].
    rewrite Hc in Hc'. injection Hc' as Heq.
    apply (NoDup_lookup _ i j (task_signal k) Hnd).
    + change (map task_signal (tasks sys)) with (task_signal <$> tasks sys).
      by rewrite list_lookup_fmap, Hi.
    + change (map task_signal (tasks sys)) with (task_signal <$> tasks sys).
      by rewrite list_lookup_fmap, Hj, Heq.
  - intros c c' Hc Hc'.
    destruct (decide (abortControllerRef st = Some c)) as [Ha|Ha];
      [|by pose proof (W2 _ _ Hc Ha)].
    destruct (decide (abortControllerRef st = Some c')) as [Ha'|Ha'];
      [|by pose proof (W2 _ _ Hc' Ha')].
    congruence.
  - intros t t' d d' Ht Ht'. apply W3 in Ht, Ht'. congruence.
Qed.

(** X5.  A read loop that has been superseded writes nothing.  In a
    reachable state, a read loop whose controller is not the one the ref
    points to has its signal aborted; resumed by a chunk, by the end of the
    stream or by an error, it ends, and leaves the log, the timers, the ref
    to the timer and the retry counter as they were. *)
Theorem superseded_read_loop_is_inert sys p signal buffer r :
  reachable sys -> In (AwaitingRead signal buffer) (tasks sys) ->
  abortControllerRef (session sys) <> Some signal ->
  let st := session sys in
  aborted st signal = true
  /\ exists st',
       after_read p signal buffer r st = (st', None)
       /\ events st' = events st /\ timers st' = timers st
       /\ reconnectTimeoutRef st' = reconnectTimeoutRef st
       /\ retryCountRef st' = retryCountRef st.
Proof.
  intros Hr Hin Hne st.
  assert (Hab : aborted st signal = true).
  { destruct (aborted st signal) eqn:Hab; [done|].
    by destruct (live_call_is_current sys _ Hr Hin Hab) as [Hc _]. }
  split; [done|]. by apply after_read_aborted.
Qed.

End OneConnection.

(** ** Attempts, reconnections and the cleanup *)

(** Reading a field of a session that setters have been applied to. *)
Ltac fields :=
  cbn [events isConnected isConnecting uiConnectionStatus abortControllerRef
       reconnectTimeoutRef retryCountRef hasLoggedInitialConnectionRef currentApiIdRef
       controllers timers clock_reads setEvents setIsConnected setIsConnecting
       setUiConnectionStatus set_abortControllerRef set_reconnectTimeoutRef set_retryCountRef
       set_hasLoggedInitialConnectionRef set_currentApiIdRef set_controllers set_timers
       set_clock_reads].

Section Attempts.

Context `{Host}.

(** [abort_current] touches the controllers only. *)
Lemma abort_current_frame st :
  let st' := abort_current st in
  events st' = events st /\ timers st' = timers st
  /\ reconnectTimeoutRef st' = reconnectTimeoutRef st /\ retryCountRef st' = retryCountRef st
  /\ abortControllerRef st' = abortControllerRef st
  /\ hasLoggedInitialConnectionRef st' = hasLoggedInitialConnectionRef st
  /\ clock_reads st' = clock_reads st /\ isConnected st' = isConnected st
  /\ isConnecting st' = isConnecting st /\ uiConnectionStatus st' = uiConnectionStatus st
  /\ currentApiIdRef st' = currentApiIdRef st.
Proof.
  unfold abort_current. destruct (abortControllerRef st) as [c|] eqn:Hc; [|by rewrite Hc].
  destruct (aborted st c); fields; by rewrite Hc.
Qed.

(** [clear_reconnect_timeout] touches the timers and the ref to the timer
    only. *)
Lemma clear_reconnect_timeout_frame st :
  let st' := clear_reconnect_timeout st in
  events st' = events st /\ reconnectTimeoutRef st' = None
  /\ retryCountRef st' = retryCountRef st /\ abortControllerRef st' = abortControllerRef st
  /\ hasLoggedInitialConnectionRef st' = hasLoggedInitialConnectionRef st
  /\ clock_reads st' = clock_reads st /\ isConnected st' = isConnected st
  /\ isConnecting st' = isConnecting st /\ uiConnectionStatus st' = uiConnectionStatus st
  /\ currentApiIdRef st' = currentApiIdRef st /\ controllers st' = controllers st.
Proof.
  unfold clear_reconnect_timeout, clearTimeout.
  destruct (reconnectTimeoutRef st) as [t|] eqn:Hr; [|by rewrite Hr].
  by destruct (timers st !! t) as [[]|].
Qed.

(** The suspended calls are all aborted in a session whose controllers
    begin with those [abort_current] leaves. *)
Lemma suspended_calls_aborted sys st' more :
  in_order sys -> controllers st' = controllers (abort_current (session sys)) ++ more ->
  Forall (fun k => aborted st' (task_signal k) = true) (tasks sys).
Proof.
  intros [Hwf Htasks] Hc. eapply Forall_impl; [exact Htasks|].
  intros k Hlt. simpl in Hlt. unfold aborted. rewrite Hc.
  rewrite <- (length_controllers_abort_current (session sys)) in Hlt.
  rewrite lookup_app_l by done.
  destruct (lookup_lt_is_Some_2 _ _ Hlt) as [b Hb]. rewrite Hb. simpl.
  by apply (abort_current_all _ Hwf _ _ Hb).
Qed.


Lemma controllers_abort_current st :
  controllers (abort_current st) = abort_controllers (abortControllerRef st) (controllers st).
Proof.
  unfold abort_current, abort_controllers, aborted.
  destruct (abortControllerRef st) as [c|]; [|done]. by destruct (default false _).
Qed.

Lemma abort_controllers_idemp ref cs :
  abort_controllers ref (abort_controllers ref cs) = abort_controllers ref cs.
Proof.
  unfold abort_controllers. destruct ref as [c|]; [|done].
  destruct (default false (cs !! c)) eqn:Hc; [by rewrite Hc|].
  destruct (default false (<[c := true]> cs !! c)); [done|]. apply list_insert_insert_eq.
Qed.

(** A call of [connectWithFetch] with a complete identity, from a well-formed
    session. *)
Lemma connectWithFetch_valid p isInitialAttemptForCurrentApi st :
  well_formed st -> identity_valid p = true ->
  let signal := length (controllers st) in
  exists st',
    connectWithFetch p isInitialAttemptForCurrentApi st = (st', Some (AwaitingFetch signal))
    /\ abortControllerRef st' = Some signal
    /\ controllers st' = controllers (abort_current st) ++ [false]
    /\ reconnectTimeoutRef st' = None
    /\ (forall t d, timers st' !! t <> Some (Pending d))
    /\ retryCountRef st' = retryCountRef st
    /\ events st'
       = (if isInitialAttemptForCurrentApi
          then addEventToLog
                 (log_event (utf16 "正在初始化事件流 (fetch) 到 " ++ getEventsUrl (default [] (apiRoot p))
                             ++ utf16 " (携带 X-API-Key)...") None (clock (clock_reads st)))
                 (events st)
          else events st)
    /\ hasLoggedInitialConnectionRef st' = hasLoggedInitialConnectionRef st
    /\ currentApiIdRef st' = currentApiIdRef st
    /\ isConnected st' = isConnected st
    /\ isConnecting st' = (if isInitialAttemptForCurrentApi then true else isConnecting st)
    /\ uiConnectionStatus st'
       = (if isInitialAttemptForCurrentApi then ui_connecting else uiConnectionStatus st).
Proof.
  intros Hwf Hvalid signal.
  pose proof (follows_connectWithFetch p isInitialAttemptForCurrentApi st) as [Hfw _].
  specialize (Hfw Hwf). revert Hfw.
  unfold connectWithFetch. rewrite Hvalid. cbn [negb fst].
  rewrite (length_controllers_abort_current st). fold signal.
  destruct (abort_current_frame st)
    as (He1 & Ht1 & Hr1 & Hn1 & Ha1 & Hl1 & Hk1 & Hi1 & Hj1 & Hu1 & Hd1).
  set (st1 := abort_current st) in *.
  set (st2 := set_abortControllerRef (Some signal) (set_controllers (controllers st1 ++ [false]) st1)).
  set (st3 := if isInitialAttemptForCurrentApi then _ else st2).
  assert (H3 : controllers st3 = controllers st1 ++ [false]
               /\ abortControllerRef st3 = Some signal
               /\ retryCountRef st3 = retryCountRef st
               /\ events st3
                  = (if isInitialAttemptForCurrentApi
                     then addEventToLog
                            (log_event (utf16 "正在初始化事件流 (fetch) 到 "
                                        ++ getEventsUrl (default [] (apiRoot p))
                                        ++ utf16 " (携带 X-API-Key)...") None
                               (clock (clock_reads st)))
                            (events st)
                     else events st)
               /\ hasLoggedInitialConnectionRef st3 = hasLoggedInitialConnectionRef st
               /\ currentApiIdRef st3 = currentApiIdRef st
               /\ isConnected st3 = isConnected st
               /\ isConnecting st3 = (if isInitialAttemptForCurrentApi then true else isConnecting st)
               /\ uiConnectionStatus st3
                  = (if isInitialAttemptForCurrentApi then ui_connecting
                     else uiConnectionStatus st)).
  { subst st3. destruct isInitialAttemptForCurrentApi.
    - rewrite events_add_log. unfold add_log, Date_now. subst st2. fields.
      by rewrite Hn1, He1, Hk1, Hl1, Hd1, Hi1.
    - subst st2. fields. by rewrite Hn1, He1, Hl1, Hd1, Hi1, Hj1, Hu1. }
  destruct H3 as (Hc3 & Ha3 & Hn3 & He3 & Hl3 & Hd3 & Hi3 & Hj3 & Hu3).
  destruct (clear_reconnect_timeout_frame st3)
    as (He4 & Hr4 & Hn4 & Ha4 & Hl4 & _ & Hi4 & Hj4 & Hu4 & Hd4 & Hc4).
  intros (W1 & W2 & W3).
  eexists. split; [reflexivity|].
  rewrite Ha4, Ha3, Hr4, Hn4, Hn3, He4, He3, Hc4, Hc3, Hl4, Hl3, Hd4, Hd3, Hi4, Hi3, Hj4, Hj3,
    Hu4, Hu3.
  repeat split; try done.
  intros t d Hp. apply W3 in Hp. by rewrite Hr4 in Hp.
Qed.

Lemma lookup_new_controller (cs : list bool) : (cs ++ [false]) !! length cs = Some false.
Proof. by rewrite lookup_app_r, Nat.sub_diag. Qed.

(** X6.  A new attempt supersedes what came before.  From a reachable
    state, [connectWithFetch] with a complete identity suspends at [fetch]
    on a controller made for it, which the ref points to and which is not
    aborted; every call suspended before has its signal aborted, no timer is
    left pending and the ref to the timer is [null].  The retry counter is
    untouched, and the log gets the initializing line only on the initial
    attempt. *)
Theorem new_attempt_supersedes sys p isInitialAttemptForCurrentApi :
  reachable sys -> identity_valid p = true ->
  let st := session sys in
  let signal := length (controllers st) in
  exists st',
    connectWithFetch p isInitialAttemptForCurrentApi st = (st', Some (AwaitingFetch signal))
    /\ abortControllerRef st' = Some signal
    /\ aborted st' signal = false
    /\ Forall (fun k => aborted st' (task_signal k) = true) (tasks sys)
    /\ reconnectTimeoutRef st' = None
    /\ (forall t d, timers st' !! t <> Some (Pending d))
    /\ retryCountRef st' = retryCountRef st
    /\ events st'
       = if isInitialAttemptForCurrentApi
         then addEventToLog
                (log_event (utf16 "正在初始化事件流 (fetch) 到 " ++ getEventsUrl (default [] (apiRoot p))
                            ++ utf16 " (携带 X-API-Key)...") None (clock (clock_reads st)))
                (events st)
         else events st.
Proof.
  intros Hreach Hvalid st signal.
  pose proof (reachable_in_order sys Hreach) as Hord.
  destruct (connectWithFetch_valid p isInitialAttemptForCurrentApi st (proj1 Hord) Hvalid)
    as (st' & Hcall & Ha & Hc & Hr & Hnone & Hn & He & _).
  exists st'. repeat split; try done.
  - unfold aborted. rewrite Hc. subst signal.
    rewrite <- (length_controllers_abort_current st). by rewrite lookup_new_controller.
  - by apply (suspended_calls_aborted sys _ [false] Hord).
Qed.

(** X7.  The cleanup leaves nothing running.  From a reachable state,
    after the cleanup of the effect every suspended call has its signal
    aborted, every controller is aborted, no timer is pending, a timer that
    comes due does nothing, and the log and the retry counter are as they
    were. *)
Theorem cleanup_leaves_nothing_running sys :
  reachable sys ->
  let st := session sys in
  let st' := useEffect_cleanup st in
  Forall (fun k => aborted st' (task_signal k) = true) (tasks sys)
  /\ (forall c b, controllers st' !! c = Some b -> b = true)
  /\ (forall t d, timers st' !! t <> Some (Pending d))
  /\ (forall p t, timer_fires p t st' = (st', None))
  /\ reconnectTimeoutRef st' = None
  /\ events st' = events st /\ retryCountRef st' = retryCountRef st.
Proof.
  intros Hreach st st'.
  pose proof (reachable_in_order sys Hreach) as Hord.
  pose proof Hord as [Hwf Htasks]. fold st in Hwf, Htasks.
  pose proof (proj1 (follows_useEffect_cleanup st) Hwf) as (W1 & W2 & W3). fold st' in W1, W2, W3.
  destruct (abort_current_frame st) as (He1 & _ & _ & Hn1 & _).
  destruct (clear_reconnect_timeout_frame (abort_current st))
    as (He2 & Hr2 & Hn2 & _ & _ & _ & _ & _ & _ & _ & Hc2).
  fold (useEffect_cleanup st) in He2, Hr2, Hn2, Hc2. fold st' in He2, Hr2, Hn2, Hc2.
  assert (Hnone : forall t d, timers st' !! t <> Some (Pending d)).
  { intros t d Hp. apply W3 in Hp. by rewrite Hr2 in Hp. }
  repeat split; try done.
  - apply (suspended_calls_aborted sys _ [] Hord). by rewrite Hc2, app_nil_r.
  - intros c b. rewrite Hc2. by apply abort_current_all.
  - intros p t. unfold timer_fires. destruct (timers st' !! t) as [[d| |]|] eqn:Ht; try done.
    by destruct (Hnone t d).
  - by rewrite He2, He1.
  - by rewrite Hn2, Hn1.
Qed.

(** X8.  A reconnection that succeeds is silent.  When the reconnection
    timer comes due, with a complete identity, and [fetch] answers with a
    readable body, then, once the connected line has been logged for this
    configuration, the log is left as it was, the retry counter is back at
    0, the session is connected and the timer is spent. *)
Theorem reconnection_that_succeeds_is_silent p t delay status statusText st :
  identity_valid p = true -> timers st !! t = Some (Pending delay) ->
  hasLoggedInitialConnectionRef st = true ->
  let signal := length (controllers st) in
  exists st1 st2,
    timer_fires p t st = (st1, Some (AwaitingFetch signal))
    /\ after_fetch p signal (FetchResponse true status statusText true) st1
       = (st2, Some (AwaitingRead signal []))
    /\ events st2 = events st
    /\ retryCountRef st2 = 0%nat
    /\ isConnected st2 = true /\ isConnecting st2 = false
    /\ uiConnectionStatus st2 = ui_connected
    /\ timers st2 !! t = Some Fired.
Proof.
  intros Hvalid Ht Hlogged signal.
  unfold timer_fires. rewrite Ht.
  set (st0 := set_timers (<[t := Fired]> (timers st)) st).
  unfold connectWithFetch. rewrite Hvalid. cbn [negb].
  destruct (abort_current_frame st0) as (He1 & Ht1 & Hr1 & _ & _ & Hl1 & _).
  rewrite (length_controllers_abort_current st0).
  change (length (controllers st0)) with signal.
  set (st1 := set_abortControllerRef _ _).
  destruct (clear_reconnect_timeout_frame st1) as (He2 & _ & _ & _ & Hl2 & _).
  assert (Ht2 : timers (clear_reconnect_timeout st1) !! t = Some Fired).
  { unfold clear_reconnect_timeout.
    assert (Ht0 : timers st1 !! t = Some Fired).
    { subst st1. cbn [timers set_abortControllerRef set_controllers]. rewrite Ht1.
      subst st0. cbn [timers set_timers]. apply list_lookup_insert_eq.
      by apply lookup_lt_Some in Ht. }
    destruct (reconnectTimeoutRef st1) as [t'|]; [|done].
    cbn [timers set_reconnectTimeoutRef]. unfold clearTimeout.
    destruct (timers st1 !! t') as [[d| |]|] eqn:Ht'; try done.
    cbn [timers set_timers]. rewrite list_lookup_insert_ne; [done|]. congruence. }
  eexists _, _. split; [reflexivity|].
  cbn [after_fetch negb].
  cbn [hasLoggedInitialConnectionRef set_retryCountRef setUiConnectionStatus setIsConnecting
       setIsConnected].
  rewrite Hl2. subst st1.
  cbn [hasLoggedInitialConnectionRef set_abortControllerRef set_controllers].
  rewrite Hl1. subst st0. cbn [hasLoggedInitialConnectionRef set_timers]. rewrite Hlogged.
  cbn [negb]. split; [reflexivity|].
  cbn [events retryCountRef isConnected isConnecting uiConnectionStatus timers
       set_retryCountRef setUiConnectionStatus setIsConnecting setIsConnected].
  rewrite He2. cbn [events set_abortControllerRef set_controllers]. rewrite He1.
  by repeat split.
Qed.

End Attempts.

(** ** The effect *)

Section Effect.

Context `{Host}.




Lemma connectWithFetch_started p st :
  identity_valid p = true ->
  isConnecting (connectWithFetch p true st).1 = true
  /\ currentApiIdRef (connectWithFetch p true st).1 = currentApiIdRef st.
Proof.
  intros Hvalid. unfold connectWithFetch. rewrite Hvalid. cbn [negb fst].
  destruct (clear_reconnect_timeout_frame
              (add_log (utf16 "正在初始化事件流 (fetch) 到 " ++ getEventsUrl (default [] (apiRoot p))
                        ++ utf16 " (携带 X-API-Key)...") None
                 (setUiConnectionStatus ui_connecting
                    (setIsConnecting true
                       (set_abortControllerRef (Some (length (controllers (abort_current st))))
                          (set_controllers (controllers (abort_current st) ++ [false])
                             (abort_current st)))))))
    as (_ & _ & _ & _ & _ & _ & _ & -> & _ & -> & _).
  unfold add_log, Date_now. fields.
  by destruct (abort_current_frame st) as (_ & _ & _ & _ & _ & _ & _ & _ & _ & _ & ->).
Qed.

Lemma addEventToLog_nil ev : addEventToLog ev [] = [ev].
Proof. unfold addEventToLog. by destruct (is_status_message (data ev)). Qed.


(** The effect made by a render with both flags false, run with a complete
    identity on a well-formed session in which the id is new or the ref to
    the timer is [null]. *)
Lemma useEffect_body_starts p st :
  well_formed st -> identity_valid p = true ->
  currentApiIdRef st <> apiId p \/ reconnectTimeoutRef st = None ->
  let signal := length (controllers st) in
  exists st',
    useEffect_body p false false st = (st', Some (AwaitingFetch signal))
    /\ abortControllerRef st' = Some signal
    /\ controllers st' = controllers (abort_current st) ++ [false]
    /\ (forall t d, timers st' !! t <> Some (Pending d))
    /\ retryCountRef st' = 0%nat
    /\ currentApiIdRef st' = apiId p
    /\ isConnecting st' = true /\ uiConnectionStatus st' = ui_connecting
    /\ events st'
       = addEventToLog
           (log_event (utf16 "正在初始化事件流 (fetch) 到 " ++ getEventsUrl (default [] (apiRoot p))
                       ++ utf16 " (携带 X-API-Key)...") None (clock (clock_reads st)))
           (if bool_decide (currentApiIdRef st = apiId p) then events st else []).
Proof.
  intros Hwf Hvalid Hcase signal.
  unfold useEffect_body. rewrite Hvalid.
  destruct (decide (currentApiIdRef st = apiId p)) as [Hid|Hid].
  - destruct Hcase as [Hne|Hnone]; [done|].
    rewrite bool_decide_false by (by intros []). rewrite Hnone.
    rewrite bool_decide_true by done. cbn [negb andb].
    set (st1 := set_retryCountRef _ _).
    assert (Hwf1 : well_formed st1) by (subst st1; exact Hwf).
    destruct (connectWithFetch_valid p true st1 Hwf1 Hvalid)
      as (st' & Hcall & Ha' & Hc' & Hr' & Hnone' & Hn' & He' & Hl' & Hd' & Hi' & Hj' & Hu').
    exists st'. rewrite Hn', He', Hd', Hj', Hu'.
    rewrite bool_decide_true by done.
    split; [exact Hcall|]. split; [done|]. split; [|by repeat split].
    by rewrite Hc', (controllers_abort_current st1), (controllers_abort_current st).
  - rewrite bool_decide_true by done. rewrite bool_decide_false by done.
    set (st1 := set_currentApiIdRef _ _).
    destruct (abort_current_frame st) as (_ & _ & _ & _ & Ha1 & _ & Hk1 & _).
    destruct (clear_reconnect_timeout_frame (abort_current st))
      as (_ & _ & _ & Ha2 & _ & Hk2 & _ & _ & _ & _ & Hc2).
    assert (Hst1 : controllers st1 = controllers (abort_current st)
                   /\ abortControllerRef st1 = abortControllerRef st
                   /\ clock_reads st1 = clock_reads st /\ events st1 = []
                   /\ retryCountRef st1 = 0%nat /\ currentApiIdRef st1 = apiId p).
    { subst st1. fields. by rewrite Hc2, Ha2, Ha1, Hk2, Hk1. }
    destruct Hst1 as (Hc & Ha & Hk & He & Hn & Hd).
    assert (Hwf1 : well_formed st1).
    { assert (Hfw : follows st st1); [|by apply Hfw].
      eapply follows_trans; [apply follows_abort_current|].
      eapply follows_trans; [apply follows_clear_reconnect_timeout|].
      by apply follows_connection. }
    destruct (connectWithFetch_valid p true st1 Hwf1 Hvalid)
      as (st' & Hcall & Ha' & Hc' & Hr' & Hnone' & Hn' & He' & Hl' & Hd' & Hi' & Hj' & Hu').
    assert (Hlen : length (controllers st1) = signal).
    { rewrite Hc. apply length_controllers_abort_current. }
    rewrite Hlen in Hcall, Ha'.
    assert (Habort : controllers (abort_current st1) = controllers (abort_current st)).
    { rewrite (controllers_abort_current st1), Hc, Ha, (controllers_abort_current st).
      apply abort_controllers_idemp. }
    rewrite Habort in Hc'.
    exists st'. rewrite Hn', He', Hd', Hj', Hu', Hk, He, Hn, Hd.
    split; [exact Hcall|]. by repeat split.
Qed.

(** X9.  The effect run again by the same closure starts a second attempt.
    The closure of the effect holds the [isConnected] and [isConnecting] of
    its render.  When both are false there, as at a mount, and the identity
    is complete, the effect run after a cleanup (as its own, when React
    mounts the component twice in strict mode) starts an attempt on a new
    controller although the id may already be the current one: every call
    suspended before has its signal aborted, no timer is pending, the retry
    counter is 0, and the log gets the initializing line once more, on top
    of the events it held when the id is the current one and alone
    otherwise. *)
Theorem effect_run_again_starts_again sys p :
  reachable sys -> identity_valid p = true ->
  let st := useEffect_cleanup (session sys) in
  let signal := length (controllers (session sys)) in
  exists st',
    useEffect_body p false false st = (st', Some (AwaitingFetch signal))
    /\ abortControllerRef st' = Some signal /\ aborted st' signal = false
    /\ Forall (fun k => aborted st' (task_signal k) = true) (tasks sys)
    /\ (forall t d, timers st' !! t <> Some (Pending d))
    /\ retryCountRef st' = 0%nat
    /\ currentApiIdRef st' = apiId p
    /\ isConnecting st' = true /\ uiConnectionStatus st' = ui_connecting
    /\ events st'
       = addEventToLog
           (log_event (utf16 "正在初始化事件流 (fetch) 到 " ++ getEventsUrl (default [] (apiRoot p))
                       ++ utf16 " (携带 X-API-Key)...") None
              (clock (clock_reads (session sys))))
           (if bool_decide (currentApiIdRef (session sys) = apiId p)
            then events (session sys) else []).
Proof.
  intros Hreach Hvalid st signal.
  pose proof (reachable_in_order sys Hreach) as Hord.
  pose proof Hord as [Hwf Htasks].
  pose proof (proj1 (follows_useEffect_cleanup (session sys)) Hwf) as Hwf'. fold st in Hwf'.
  destruct (abort_current_frame (session sys))
    as (He1 & _ & _ & _ & Ha1 & _ & Hk1 & _ & _ & _ & Hd1).
  destruct (clear_reconnect_timeout_frame (abort_current (session sys)))
    as (He2 & Hr2 & _ & Ha2 & _ & Hk2 & _ & _ & _ & Hd2 & Hc2).
  fold (useEffect_cleanup (session sys)) in He2, Hr2, Ha2, Hk2, Hd2, Hc2.
  fold st in He2, Hr2, Ha2, Hk2, Hd2, Hc2.
  destruct (useEffect_body_starts p st Hwf' Hvalid (or_intror Hr2))
    as (st' & Hbody & Ha & Hc & Hnone & Hn & Hd & Hj & Hu & He).
  assert (Hlen : length (controllers st) = signal).
  { rewrite Hc2. apply length_controllers_abort_current. }
  assert (Habort : controllers (abort_current st) = controllers (abort_current (session sys))).
  { rewrite (controllers_abort_current st), Hc2, Ha2, Ha1.
    rewrite (controllers_abort_current (session sys)). apply abort_controllers_idemp. }
  rewrite Hlen in Hbody, Ha. rewrite Habort in Hc.
  rewrite Hd2, Hd1, He2, He1, Hk2, Hk1 in He.
  exists st'. split; [exact Hbody|]. split; [exact Ha|]. split; [|split; [|done]].
  - unfold aborted. rewrite Hc. subst signal.
    rewrite <- (length_controllers_abort_current (session sys)).
    by rewrite lookup_new_controller.
  - by apply (suspended_calls_aborted sys _ [false] Hord).
Qed.

(** X10.  A new identity starts afresh.  From a reachable state, the effect
    run with a complete identity whose [apiId] differs from the current one
    empties the log, so that the initializing line is the only event,
    resets the retry counter and the flag of the connected line, records the
    new id, and starts one attempt on a new controller; every call suspended
    before has its signal aborted and no timer is left pending. *)
Theorem new_identity_starts_afresh sys p connected connecting :
  reachable sys -> identity_valid p = true -> currentApiIdRef (session sys) <> apiId p ->
  let st := session sys in
  let signal := length (controllers st) in
  exists st',
    useEffect_body p connected connecting st = (st', Some (AwaitingFetch signal))
    /\ events st'
       = [log_event (utf16 "正在初始化事件流 (fetch) 到 " ++ getEventsUrl (default [] (apiRoot p))
                     ++ utf16 " (携带 X-API-Key)...") None (clock (clock_reads st))]
    /\ retryCountRef st' = 0%nat
    /\ hasLoggedInitialConnectionRef st' = false
    /\ currentApiIdRef st' = apiId p
    /\ isConnected st' = false /\ isConnecting st' = true
    /\ uiConnectionStatus st' = ui_connecting
    /\ abortControllerRef st' = Some signal /\ aborted st' signal = false
    /\ Forall (fun k => aborted st' (task_signal k) = true) (tasks sys)
    /\ (forall t d, timers st' !! t <> Some (Pending d)).
Proof.
  intros Hreach Hvalid Hid st signal.
  pose proof (reachable_in_order sys Hreach) as Hord.
  pose proof Hord as [Hwf Htasks]. fold st in Hwf, Htasks.
  unfold useEffect_body. rewrite Hvalid. rewrite bool_decide_true by done.
  set (st1 := set_currentApiIdRef _ _).
  destruct (abort_current_frame st) as (_ & _ & _ & _ & Ha1 & _ & Hk1 & _).
  destruct (clear_reconnect_timeout_frame (abort_current st))
    as (_ & _ & _ & Ha2 & _ & Hk2 & _ & _ & _ & _ & Hc2).
  assert (Hst1 : controllers st1 = controllers (abort_current st)
                 /\ abortControllerRef st1 = abortControllerRef st
                 /\ clock_reads st1 = clock_reads st /\ events st1 = []
                 /\ retryCountRef st1 = 0%nat /\ hasLoggedInitialConnectionRef st1 = false
                 /\ currentApiIdRef st1 = apiId p /\ isConnected st1 = false).
  { subst st1. fields. by rewrite Hc2, Ha2, Ha1, Hk2, Hk1. }
  destruct Hst1 as (Hc & Ha & Hk & He & Hn & Hl & Hd & Hi).
  assert (Hwf1 : well_formed st1).
  { assert (Hfw : follows st st1); [|by apply Hfw].
    eapply follows_trans; [apply follows_abort_current|].
    eapply follows_trans; [apply follows_clear_reconnect_timeout|].
    by apply follows_connection. }
  destruct (connectWithFetch_valid p true st1 Hwf1 Hvalid)
    as (st' & Hcall & Ha' & Hc' & Hr' & Hnone & Hn' & He' & Hl' & Hd' & Hi' & Hj' & Hu').
  assert (Hlen : length (controllers st1) = signal).
  { rewrite Hc. apply length_controllers_abort_current. }
  rewrite Hlen in Hcall, Ha'.
  assert (Habort : controllers (abort_current st1) = controllers (abort_current st)).
  { rewrite (controllers_abort_current st1), Hc, Ha, (controllers_abort_current st).
    apply abort_controllers_idemp. }
  rewrite Habort in Hc'.
  exists st'. rewrite Hn', He', Hl', Hd', Hi', Hj', Hk, He, Hn, Hl, Hd, Hi, addEventToLog_nil.
  split; [done|]. split; [done|]. do 7 (split; [done|]). split; [|split; [|done]].
  - unfold aborted. rewrite Hc'. subst signal.
    rewrite <- (length_controllers_abort_current st). by rewrite lookup_new_controller.
  - by apply (suspended_calls_aborted sys _ [false] Hord).
Qed.

Lemma quiet_resume p k r st :
  quiet st -> (task_signal k < length (controllers st))%nat ->
  quiet (resume p k r st).1
  /\ controllers (resume p k r st).1 = controllers st
  /\ timers (resume p k r st).1 = timers st.
Proof.
  intros [Hq1 Hq2] Hlt.
  assert (Hab : aborted st (task_signal k) = true).
  { unfold aborted. destruct (lookup_lt_is_Some_2 _ _ Hlt) as [b Hb]. rewrite Hb.
    simpl. by apply (Hq1 _ _ Hb). }
  assert (Hcatch : forall e st0,
            controllers st0 = controllers st -> timers st0 = timers st ->
            controllers (catch_block p (task_signal k) e st0) = controllers st
            /\ timers (catch_block p (task_signal k) e st0) = timers st).
  { intros e st0 Hc Ht. unfold catch_block.
    assert (aborted (setIsConnecting false (setIsConnected false st0)) (task_signal k) = true)
      as -> by (unfold aborted in *; fields; by rewrite Hc).
    cbn [negb andb]. by destruct (bool_decide _). }
  enough (controllers (resume p k r st).1 = controllers st
          /\ timers (resume p k r st).1 = timers st) as [Hc Ht].
  { split; [|done]. unfold quiet. by rewrite Hc, Ht. }
  destruct k as [signal|signal status statusText|signal buffer], r as [r|r|r];
    cbn [resume fst task_signal] in *; try done.
  - destruct r as [ok status statusText hasBody|e]; cbn [after_fetch]; [|by apply Hcatch].
    destruct ok; cbn [negb]; [|done].
    destruct hasBody; cbn [negb fst]; [|by apply Hcatch].
    destruct (negb _); [|done]. unfold add_log, Date_now. by fields.
  - destruct r; by apply Hcatch.
  - destruct r as [text| |e]; cbn [after_read]; [| |by apply Hcatch]; by rewrite Hab.
Qed.

(** X11.  The effect re-run for the same id while connected or connecting
    starts nothing.  From a reachable state, when the props change but the
    [apiId] stays (another token, root or name) and the render that makes
    the new effect has [isConnected] or [isConnecting] true, the cleanup
    aborts the current call and the effect that follows it starts no new
    one: every suspended call has its signal aborted, no timer is pending,
    the status shown stays what it was, a timer that comes due does
    nothing, and a suspended call that is resumed leaves the session quiet
    and only ever goes on waiting on its aborted signal. *)
Theorem rerun_for_the_same_id_while_connected sys p connected connecting :
  reachable sys -> identity_valid p = true ->
  currentApiIdRef (session sys) = apiId p ->
  connected = true \/ connecting = true ->
  let st := session sys in
  let st' := useEffect_cleanup st in
  useEffect_body p connected connecting st' = (st', None)
  /\ Forall (fun k => aborted st' (task_signal k) = true) (tasks sys)
  /\ quiet st'
  /\ uiConnectionStatus st' = uiConnectionStatus st
  /\ (forall p' t, timer_fires p' t st' = (st', None))
  /\ (forall p' k r, In k (tasks sys) ->
        quiet (resume p' k r st').1
        /\ forall k', (resume p' k r st').2 = Some k' -> task_signal k' = task_signal k).
Proof.
  intros Hreach Hvalid Hid Hconn st st'. fold st in Hid.
  pose proof (reachable_in_order sys Hreach) as Hord.
  pose proof Hord as [Hwf Htasks]. fold st in Hwf, Htasks.
  pose proof (follows_useEffect_cleanup st) as [Hfw Hlen]. fold st' in Hfw, Hlen.
  destruct (Hfw Hwf) as (W1 & W2 & W3).
  destruct (abort_current_frame st) as (_ & _ & _ & _ & _ & _ & _ & Hi1 & Hj1 & Hu1 & Hd1).
  destruct (clear_reconnect_timeout_frame (abort_current st))
    as (_ & Hr2 & _ & _ & _ & _ & Hi2 & Hj2 & Hu2 & Hd2 & Hc2).
  fold (useEffect_cleanup st) in Hr2, Hi2, Hj2, Hu2, Hd2, Hc2.
  fold st' in Hr2, Hi2, Hj2, Hu2, Hd2, Hc2.
  assert (Hquiet : quiet st').
  { split.
    - intros c b. rewrite Hc2. by apply abort_current_all.
    - intros t d Hp. apply W3 in Hp. by rewrite Hr2 in Hp. }
  split; [|split; [|split; [done|split; [by rewrite Hu2, Hu1|split]]]].
  - unfold useEffect_body. rewrite Hvalid, Hd2, Hd1, Hid.
    rewrite bool_decide_false by (by intros []).
    destruct Hconn as [-> | ->]; [done | by rewrite andb_false_r].
  - apply (suspended_calls_aborted sys _ [] Hord). by rewrite Hc2, app_nil_r.
  - intros p' t. unfold timer_fires. destruct (timers st' !! t) as [[d| |]|] eqn:Ht; try done.
    by destruct (proj2 Hquiet t d).
  - intros p' k r Hin. split; [|intros k'; apply resume_task].
    apply quiet_resume; [done|].
    rewrite Forall_forall in Htasks.
    pose proof (Htasks k (proj2 (list_elem_of_In _ _) Hin)) as Hlt. simpl in Hlt. lia.
Qed.

End Effect.

(** ** The reconnection policy *)


Section Policy.

Context `{Host}.












End Policy.

(** ** Levels, and payloads that are no objects *)

Section Levels.

Implicit Types s w tok : jsstring.

Lemma canonicalize_idemp c : canonicalize (canonicalize c) = canonicalize c.
Proof.
  unfold canonicalize. destruct ((97 <=? c) && (c <=? 122)) eqn:E; [|by rewrite E].
  apply andb_prop in E as [E1%N.leb_le E2%N.leb_le].
  destruct (N.leb_spec 97 (c - 32)); [lia | done].
Qed.

Lemma is_word_char_canonicalize c : is_word_char (canonicalize c) = is_word_char c.
Proof.
  unfold canonicalize. destruct ((97 <=? c) && (c <=? 122)) eqn:E; [|done].
  apply andb_prop in E as [E1%N.leb_le E2%N.leb_le]. unfold is_word_char.
  repeat match goal with
         | |- context [?a <=? ?b] => destruct (N.leb_spec a b); cbn [andb orb]
         | |- context [?a =? ?b] => destruct (N.eqb_spec a b); cbn [andb orb]
         end; try done; lia.
Qed.

Lemma word_boundary_canonicalize b a :
  word_boundary (option_map canonicalize b) (option_map canonicalize a) = word_boundary b a.
Proof. unfold word_boundary. destruct b, a; simpl; by rewrite ?is_word_char_canonicalize. Qed.

Lemma match_ignore_case_canonicalize tok : forall s,
  match_ignore_case tok (map canonicalize s)
  = option_map (fun wr => (map canonicalize wr.1, map canonicalize wr.2)) (match_ignore_case tok s).
Proof.
  induction tok as [|t tok IH]; intros s; [done|].
  destruct s as [|c s]; [done|]. cbn [map match_ignore_case].
  rewrite canonicalize_idemp, IH.
  destruct (canonicalize c =? canonicalize t); [|done].
  by destruct (match_ignore_case tok s) as [[w rest]|].
Qed.

Lemma last_map_canonicalize w before :
  List.last (map Some (map canonicalize w)) (option_map canonicalize before)
  = option_map canonicalize (List.last (map Some w) before).
Proof.
  induction w as [|c w IH]; [done|]. destruct w as [|d w]; [done|]. exact IH.
Qed.

Lemma head_map_canonicalize s : head (map canonicalize s) = option_map canonicalize (head s).
Proof. by destruct s. Qed.

Lemma match_group_canonicalize toks before s :
  match_group toks (option_map canonicalize before) (map canonicalize s)
  = option_map (map canonicalize) (match_group toks before s).
Proof.
  induction toks as [|tok toks IH]; [done|]. cbn [match_group].
  rewrite match_ignore_case_canonicalize.
  destruct (match_ignore_case tok s) as [[w rest]|]; cbn [option_map fst snd]; [|done].
  rewrite last_map_canonicalize, head_map_canonicalize, word_boundary_canonicalize.
  by destruct (word_boundary _ _).
Qed.

Lemma match_here_canonicalize before s :
  (if word_boundary (option_map canonicalize before) (head (map canonicalize s))
   then match_group ALL_LOG_LEVELS (option_map canonicalize before) (map canonicalize s)
   else None)
  = option_map (map canonicalize)
      (if word_boundary before (head s) then match_group ALL_LOG_LEVELS before s else None).
Proof.
  rewrite head_map_canonicalize, word_boundary_canonicalize, match_group_canonicalize.
  by destruct (word_boundary before (head s)).
Qed.

Lemma regexp_exec_canonicalize s : forall before,
  regexp_exec (option_map canonicalize before) (map canonicalize s)
  = option_map (map canonicalize) (regexp_exec before s).
Proof.
  induction s as [|c s IH]; intros before.
  - pose proof (match_here_canonicalize before []) as Hh. cbn [map] in Hh.
    cbn [map regexp_exec]. rewrite Hh.
    by destruct (if word_boundary before (head []) then _ else _).
  - pose proof (match_here_canonicalize before (c :: s)) as Hh. cbn [map] in Hh.
    cbn [map regexp_exec]. rewrite Hh.
    destruct (if word_boundary before (head (c :: s)) then _ else _); [done|].
    cbn [option_map]. apply (IH (Some c)).
Qed.

(** X12.  A level [parseLogLevel] gives is one of the five names of
    [ALL_LOG_LEVELS], in capitals, and is its own level. *)
Theorem level_is_one_of_the_five s l :
  parseLogLevel s = Some l -> In l ALL_LOG_LEVELS /\ parseLogLevel l = Some l.
Proof.
  intros Hl. pose proof (parseLogLevel_as_specified s) as Hspec. rewrite Hl in Hspec.
  destruct Hspec as (w & (pre & post & _ & Hw & _) & ->).
  split; [exact Hw|]. unfold level_word in Hw. cbn [ALL_LOG_LEVELS In] in Hw.
  destruct Hw as [<-|[<-|[<-|[<-|[<-|[]]]]]]; by vm_compute.
Qed.

(** X13.  The level does not depend on the case of the letters: the message
    with its letters a-z in capitals has the level of the message. *)
Theorem level_ignores_case s : parseLogLevel (map canonicalize s) = parseLogLevel s.
Proof.
  unfold parseLogLevel. pose proof (regexp_exec_canonicalize s None) as Hc.
  change (option_map canonicalize None) with (@None N) in Hc. rewrite Hc.
  destruct (regexp_exec None s) as [w|]; [|done]. cbn [option_map].
  unfold toUpperCase. f_equal. rewrite map_map. apply map_ext. intros c. apply canonicalize_idemp.
Qed.

End Levels.

Section Payloads.

Context `{Host}.

(** X14.  A payload that parses but is no object.  The payload [null] is
    reported like a payload that does not parse: reading its [instance]
    throws, and the parse-error line is logged.  Any other value that is no
    object (a number, a string, a boolean, an array) has none of the fields
    read, and is logged as an unknown event of type [undefined] with the
    whole value as its data. *)
Theorem payload_that_is_no_object block dl j st :
  scan_lines block = (utf16 "instance", dl) -> dl <> [] -> JSON_parse dl = Some j ->
  (forall members, j <> JObject members) ->
  let st' := processSseMessageData block st in
  (j = JNull -> st' = add_log (utf16 "解析事件错误 (fetch): " ++ dl) None st)
  /\ (j <> JNull ->
      let text := utf16 "未知事件 " ++ utf16 "undefined" ++ utf16 ": " ++ JSON_stringify j in
      events st'
      = addEventToLog
          {| type := log; data := JString text; instanceDetails := None;
             level := parseLogLevel text; timestamp := JString (clock (clock_reads st)) |}
          (events st)).
Proof.
  intros Hscan Hdl Hparse Hobj st'. subst st'.
  rewrite (processSseMessageData_instance _ _ _ Hscan Hdl).
  split.
  - intros ->. unfold try_decode. by rewrite Hparse.
  - intros Hnull. unfold try_decode. rewrite Hparse. cbn [mbind option_bind].
    destruct j as [|b|n|s|elements|members]; try done. by destruct (Hobj members).
Qed.

End Payloads.

(** ** The log of every reachable state *)

Section LogInvariant.

Context `{Host}.

Variable P : list InstanceEvent -> Prop.
Hypothesis P_ok : log_invariant P.

Lemma keeps_add_log text lvl st : P (events st) -> P (events (add_log text lvl st)).
Proof. intros HP. rewrite events_add_log. by apply P_ok. Qed.

Lemma keeps_try_decode dl st st' :
  try_decode dl st = Some st' -> P (events st) -> P (events st').
Proof.
  intros Hdec HP. destruct (JSON_parse dl) as [j|] eqn:Hparse;
    [|unfold try_decode in Hdec; by rewrite Hparse in Hdec].
  destruct (null_or_not j) as [->|Hnull];
    [unfold try_decode in Hdec; by rewrite Hparse in Hdec|].
  destruct (try_decode_parsed dl j st Hparse Hnull) as (st'' & time & Hdec' & He & _).
  rewrite Hdec in Hdec'. injection Hdec' as <-. rewrite He. by apply P_ok.
Qed.

Lemma keeps_processSseMessageData block st :
  P (events st) -> P (events (processSseMessageData block st)).
Proof.
  intros HP. unfold processSseMessageData. destruct (scan_lines block) as [e dl].
  destruct (_ && _).
  - destruct (try_decode dl st) as [st'|] eqn:Hdec;
      [by apply (keeps_try_decode dl st) | by apply keeps_add_log].
  - destruct (negb _); [|done]. destruct (startsWith _ _); [done | by apply keeps_add_log].
Qed.

Lemma keeps_process_blocks blocks : forall st,
  P (events st) -> P (events (process_blocks blocks st)).
Proof.
  induction blocks as [|block blocks IH]; intros st HP; [done|].
  cbn [process_blocks fold_left]. apply IH.
  destruct (negb _); [by apply keeps_processSseMessageData | done].
Qed.

Lemma events_clearTimeout t st : events (clearTimeout t st) = events st.
Proof. by destruct (clearTimeout_frame t st) as (-> & _). Qed.

Lemma keeps_scheduleReconnect p reason st :
  P (events st) -> P (events (scheduleReconnect p reason st)).
Proof.
  intros HP. unfold scheduleReconnect.
  destruct (match abortControllerRef st with Some c => aborted st c | None => false end);
    [done|].
  set (st1 := setUiConnectionStatus _ _).
  set (st2 := if (1 <? retryCountRef st1)%nat then _ else st1).
  assert (H2 : P (events st2)).
  { subst st2. destruct (1 <? retryCountRef st1)%nat; [by apply keeps_add_log | done]. }
  unfold setTimeout. fields.
  destruct (reconnectTimeoutRef st2); [by rewrite events_clearTimeout | done].
Qed.

Lemma keeps_catch_block p signal e st :
  P (events st) -> P (events (catch_block p signal e st)).
Proof.
  intros HP. unfold catch_block. destruct (_ && _); [done|].
  destruct (negb _); [by apply keeps_scheduleReconnect | done].
Qed.

Lemma keeps_connectWithFetch p b st :
  P (events st) -> P (events (connectWithFetch p b st).1).
Proof.
  intros HP. unfold connectWithFetch. destruct (negb (identity_valid p)); cbn [fst].
  - by apply keeps_add_log.
  - match goal with |- P (events (clear_reconnect_timeout ?s)) =>
      destruct (clear_reconnect_timeout_frame s) as (-> & _)
    end.
    destruct b; [apply keeps_add_log|]; fields; by rewrite events_abort_current.
Qed.

Lemma keeps_after_fetch p signal r st :
  P (events st) -> P (events (after_fetch p signal r st).1).
Proof.
  intros HP. destruct r as [ok status statusText hasBody|e]; cbn [after_fetch fst];
    [|by apply keeps_catch_block].
  destruct ok; cbn [negb fst]; [|done].
  destruct hasBody; cbn [negb fst]; [|by apply keeps_catch_block].
  destruct (negb _); [|done]. fields. by apply keeps_add_log.
Qed.

Lemma keeps_after_read p signal buffer r st :
  P (events st) -> P (events (after_read p signal buffer r st).1).
Proof.
  intros HP. destruct r as [text| |e]; cbn [after_read]; [| |by apply keeps_catch_block].
  - destruct (aborted st signal); [done|]. by apply keeps_process_blocks.
  - destruct (aborted st signal); [done|]. cbn [fst].
    destruct (negb _); [by apply keeps_scheduleReconnect | done].
Qed.

Lemma keeps_resume p k r st : P (events st) -> P (events (resume p k r st).1).
Proof.
  intros HP. destruct k, r; cbn [resume fst]; try done.
  - by apply keeps_after_fetch.
  - destruct r; by apply keeps_catch_block.
  - by apply keeps_after_read.
Qed.

Lemma keeps_timer_fires p t st : P (events st) -> P (events (timer_fires p t st).1).
Proof.
  intros HP. unfold timer_fires. destruct (timers st !! t) as [[d| |]|]; try done.
  by apply keeps_connectWithFetch.
Qed.

Lemma keeps_useEffect_cleanup st : P (events st) -> P (events (useEffect_cleanup st)).
Proof.
  intros HP. unfold useEffect_cleanup.
  destruct (clear_reconnect_timeout_frame (abort_current st)) as (-> & _).
  by rewrite events_abort_current.
Qed.

Lemma keeps_useEffect_body p connected connecting st :
  P (events st) -> P (events (useEffect_body p connected connecting st).1).
Proof.
  intros HP. unfold useEffect_body. destruct (identity_valid p).
  - destruct (bool_decide _).
    + apply keeps_connectWithFetch. fields. apply P_ok.
    + destruct (_ && _); [|done]. by apply keeps_connectWithFetch.
  - cbn [fst]. fields.
    match goal with |- P (events (clear_reconnect_timeout ?s)) =>
      destruct (clear_reconnect_timeout_frame s) as (-> & _)
    end.
    rewrite events_abort_current. fields. apply P_ok.
Qed.

Lemma reachable_log sys : reachable sys -> P (events (session sys)).
Proof.
  induction 1 as [|sys sys' _ IH Hstep]; [apply P_ok|].
  destruct Hstep as [p connected connecting sys|sys|p t sys|p i k r sys Hk]; cbn [session spawn].
  - by apply keeps_useEffect_body.
  - by apply keeps_useEffect_cleanup.
  - by apply keeps_timer_fires.
  - by apply keeps_resume.
Qed.

End LogInvariant.

Section LogBounds.

Context `{Host}.

Lemma length_filter_take {A} (f : A -> bool) n (l : list A) :
  (length (List.filter f (take n l)) <= length (List.filter f l))%nat.
Proof.
  revert n; induction l as [|x l IH]; intros n; [by destruct n|].
  destruct n as [|n]; [simpl; lia|]. cbn [take List.filter].
  specialize (IH n). destruct (f x); simpl; lia.
Qed.

Lemma log_bounds_invariant :
  log_invariant (fun l => (length l <= 200)%nat /\ (length (status_lines l) <= 1)%nat).
Proof.
  split; [simpl; lia|]. intros ev l [Hlen Hst]. unfold addEventToLog, slice0. split.
  - cbn [length]. rewrite length_take. lia.
  - unfold status_lines in *. cbn [List.filter].
    destruct (is_status_message (data ev)) eqn:Hev.
    + change (fun e => negb (is_status_message (data e))) with plain.
      rewrite (filter_status_take_plain 199 l). simpl. lia.
    + pose proof (length_filter_take (fun e => is_status_message (data e)) 199 l). lia.
Qed.

(** X15.  In every reachable state the log holds at most 200 events, and at
    most one of them is a status line. *)
Theorem reachable_log_is_bounded sys :
  reachable sys ->
  (length (events (session sys)) <= 200)%nat
  /\ (length (status_lines (events (session sys))) <= 1)%nat.
Proof. intros Hreach. exact (reachable_log _ log_bounds_invariant sys Hreach). Qed.

End LogBounds.

(** ** Status lines *)

Section StatusLines.

Context `{Host}.

Lemma includes_app_l s t p : includes s p = true -> includes (s ++ t) p = true.
Proof.
  induction s as [|c s IH]; intros Hs.
  - destruct p; [by destruct t | done].
  - cbn [includes] in Hs. apply orb_prop in Hs as [Hs|Hs].
    + change ((c :: s) ++ t) with (c :: s ++ t). cbn [includes].
      change (c :: s ++ t) with ((c :: s) ++ t). by rewrite (startsWith_app _ t _ Hs).
    + change ((c :: s) ++ t) with (c :: s ++ t). cbn [includes].
      rewrite (IH Hs). apply orb_true_r.
Qed.

Lemma status_by_keyword kw text :
  In kw STATUS_MESSAGE_KEYWORDS -> includes text kw = true ->
  is_status_message (JString text) = true.
Proof. intros Hkw Hin. apply existsb_exists. by exists kw. Qed.

Lemma uiErrorMessage_is_status p reason retry :
  is_status_message (JString (uiErrorMessage p reason retry)) = true.
Proof.
  unfold uiErrorMessage. destruct (startsWith reason (utf16 "服务器关闭")).
  - apply (status_by_keyword (utf16 "服务器关闭")); [do 5 right; left; reflexivity|].
    apply includes_app_l. by vm_compute.
  - apply (status_by_keyword (utf16 "无法建立")); [do 4 right; left; reflexivity|].
    apply includes_app_l. by vm_compute.
Qed.

(** X16.  The reports of the component are status lines.  The parse-error
    line of a frame, the initializing line, the connected line and the
    reconnection notice each contain a keyword of
    [STATUS_MESSAGE_KEYWORDS]; so logging one of them removes every status
    line the log held, among them any earlier report. *)
Theorem reports_are_status_lines dl p reason retry st :
  let root := getEventsUrl (default [] (apiRoot p)) in
  let parse_error := utf16 "解析事件错误 (fetch): " ++ dl in
  let connecting := utf16 "正在初始化事件流 (fetch) 到 " ++ root ++ utf16 " (携带 X-API-Key)..." in
  let connected := utf16 "事件流 (fetch) 已连接。等待事件... (目标: " ++ root ++ utf16 ")" in
  Forall (fun text =>
            is_status_message (JString text) = true
            /\ forall lvl,
                 events (add_log text lvl st)
                 = log_event text lvl (clock (clock_reads st))
                   :: take 199 (List.filter plain (events st)))
         [parse_error; connecting; connected; uiErrorMessage p reason retry].
Proof.
  intros root parse_error connecting connected.
  assert (Hadd : forall text, is_status_message (JString text) = true ->
            is_status_message (JString text) = true
            /\ forall lvl,
                 events (add_log text lvl st)
                 = log_event text lvl (clock (clock_reads st))
                   :: take 199 (List.filter plain (events st))).
  { intros text Hs. split; [done|]. intros lvl. rewrite events_add_log.
    unfold addEventToLog. cbn [data log_event]. by rewrite Hs. }
  assert (Hkw : forall kw s t,
            In kw STATUS_MESSAGE_KEYWORDS -> includes s kw = true ->
            is_status_message (JString (s ++ t)) = true).
  { intros kw s t Hin Hs. apply (status_by_keyword kw); [done|]. by apply includes_app_l. }
  apply Forall_cons_2;
    [apply Hadd, (Hkw (utf16 "错误")); [right; left; reflexivity | by vm_compute]|].
  apply Forall_cons_2;
    [apply Hadd, (Hkw (utf16 "正在初始化")); [left; reflexivity | by vm_compute]|].
  apply Forall_cons_2;
    [apply Hadd, (Hkw (utf16 "已连接")); [do 2 right; left; reflexivity | by vm_compute]|].
  apply Forall_cons_2; [apply Hadd, uiErrorMessage_is_status | constructor].
Qed.

End StatusLines.

(** ** The events shown *)

Section Shown.

Context `{Host}.

(** X17.  What the selection of levels hides.  With nothing selected every
    event is shown.  The selected levels never change whether an event that
    is not a log line is shown; a log line without a level is hidden as soon
    as any level is selected; and with the five levels selected and no type
    selected, every event that carries one of the five levels is shown, so
    every log line with a level that [parseLogLevel] gives a text. *)
Theorem level_selection_hides_log_lines_only selectedEventTypes selectedLogLevels events ev :
  filteredEvents [] [] events = events
  /\ (type ev <> log ->
      (In ev (filteredEvents selectedEventTypes selectedLogLevels events)
       <-> In ev (filteredEvents selectedEventTypes [] events)))
  /\ (type ev = log -> level ev = None -> selectedLogLevels <> [] ->
      ~ In ev (filteredEvents selectedEventTypes selectedLogLevels events))
  /\ (forall e lvl,
        selectedEventTypes = [] -> selectedLogLevels = ALL_LOG_LEVELS ->
        In e events -> level e = Some lvl ->
        In lvl ALL_LOG_LEVELS \/ (exists text, parseLogLevel text = Some lvl) ->
        In e (filteredEvents selectedEventTypes selectedLogLevels events)).
Proof.
  unfold filteredEvents. split; [|split; [|split]].
  - cbn [is_empty negb andb]. induction events as [|e l IH]; [done|].
    cbn [List.filter]. by rewrite IH.
  - intros Hlog. rewrite !filter_In. cbn [is_empty negb andb].
    rewrite (bool_decide_false (type ev = log)) by done. by rewrite andb_false_r.
  - intros Hlog Hnone Hsel. rewrite filter_In. intros [_ Hshown].
    rewrite Hnone, Hlog in Hshown. rewrite bool_decide_true in Hshown by done.
    destruct selectedLogLevels; [done|]. cbn [is_empty negb andb present orb] in Hshown.
    by destruct (_ && _).
  - intros e lvl -> -> Hin Hlvl Hfive. rewrite filter_In. split; [done|].
    assert (Hlevel : In lvl ALL_LOG_LEVELS).
    { destruct Hfive as [Hfive|[text Htext]]; [done|].
      pose proof (parseLogLevel_as_specified text) as Hspec. rewrite Htext in Hspec.
      destruct Hspec as (w & (pre & post & _ & Hw & _) & Heq).
      unfold level_word in Hw. by rewrite <- Heq in Hw. }
    cbn [is_empty negb andb]. rewrite Hlvl.
    destruct (bool_decide (type e = log)); [|done].
    destruct lvl as [|c lvl]; [vm_compute in Hlevel; intuition discriminate|].
    cbn [present negb orb default]. unfold has.
    rewrite (bool_decide_true (c :: lvl ∈ ALL_LOG_LEVELS)); [done|].
    by apply list_elem_of_In.
Qed.

End Shown.

(** ** Expandable events and the status text *)

Section Expandable.

Context `{Host}.

Lemma has_keys_or_else dat :
  has_keys (or_else dat (JObject [])) = from_option has_keys false dat.
Proof.
  destruct dat as [d|]; [|done]. cbn [or_else from_option].
  destruct (truthy d) eqn:Ht; [done|]. by destruct d as [| | | |[]|[]].
Qed.

Lemma has_keys_object d :
  match d with JArray _ | JObject _ => true | _ => false end && has_keys d = has_keys d.
Proof. by destruct d. Qed.

(** X18.  Which decoded events can be expanded.  An event decoded from a
    payload other than [null] can be expanded when its [instance] field is
    truthy; failing that, a life-cycle event when its [data] field is an
    object or array that is not empty, a log line when its text is longer
    than 100 code units, and a shutdown event never. *)
Theorem expandable_decoded_events block dl j st :
  scan_lines block = (utf16 "instance", dl) -> dl <> [] -> JSON_parse dl = Some j ->
  j <> JNull ->
  let inst := own_property j (utf16 "instance") in
  exists ev,
    events (processSseMessageData block st) = addEventToLog ev (events st)
    /\ (forall kind,
          In kind [initial; create; update; delete] ->
          own_property j (utf16 "type") = Some (JString (type_name kind)) ->
          isExpandable ev
          = truthy_opt inst || from_option has_keys false (own_property j (utf16 "data")))
    /\ (forall s,
          own_property j (utf16 "type") = Some (JString (utf16 "log")) ->
          own_property j (utf16 "logs") = Some (JString s) -> s <> [] ->
          isExpandable ev = truthy_opt inst || (100 <? length s)%nat)
    /\ (own_property j (utf16 "type") = Some (JString (utf16 "shutdown")) ->
        isExpandable ev = truthy_opt inst).
Proof.
  intros Hscan Hdl Hparse Hnull inst.
  rewrite (processSseMessageData_instance _ _ _ Hscan Hdl).
  destruct (try_decode_parsed dl j st Hparse Hnull) as (st' & time & -> & He & _).
  eexists. split; [exact He|]. unfold decoded, isExpandable. fold inst.
  cbn [instanceDetails type data].
  split; [|split].
  - intros kind Hkind Htype. rewrite Htype.
    assert (Hne : kind <> error) by (intros ->; cbn in Hkind; intuition discriminate).
    rewrite (switch_type_name kind Hne).
    destruct (truthy_opt inst) eqn:Hinst; [done|]. cbn [orb negb].
    cbn in Hkind. unfold or_opt. rewrite Hinst.
    destruct Hkind as [<-|[<-|[<-|[<-|[]]]]]; cbn [fst snd];
      rewrite (bool_decide_false (_ = log)) by done; cbn [andb];
      rewrite andb_true_r, <- andb_assoc, has_keys_object, has_keys_or_else;
      by destruct (from_option has_keys false _).
  - intros s Htype Hlogs Hs. rewrite Htype.
    change (switch_type (Some (JString (utf16 "log")))) with (Some log).
    rewrite Hlogs. cbn [or_else truthy fst snd]. rewrite (str_eqb_false s []) by done.
    cbn [negb]. rewrite bool_decide_true by done. cbn [andb].
    destruct (truthy_opt inst); [done|]. cbn [orb]. by destruct (100 <? length s)%nat.
  - intros Htype. rewrite Htype.
    change (switch_type (Some (JString (utf16 "shutdown")))) with (Some shutdown).
    cbn [fst snd]. by destruct (truthy_opt inst).
Qed.

End Expandable.

Section StatusText.

Context `{Host}.

Lemma uiConnectionStatus_clearTimeout t st :
  uiConnectionStatus (clearTimeout t st) = uiConnectionStatus st.
Proof. unfold clearTimeout. by destruct (timers st !! t) as [[]|]. Qed.

Lemma scheduleReconnect_status p reason st c :
  abortControllerRef st = Some c -> aborted st c = false ->
  uiConnectionStatus (scheduleReconnect p reason st) = ui_disconnected.
Proof.
  intros Hc Hlive. unfold scheduleReconnect. rewrite Hc, Hlive.
  set (st1 := setUiConnectionStatus _ _).
  set (st2 := if (1 <? retryCountRef st1)%nat then _ else st1).
  assert (H2 : uiConnectionStatus st2 = ui_disconnected).
  { subst st2. destruct (1 <? retryCountRef st1)%nat; [|done].
    unfold add_log, Date_now. by fields. }
  unfold setTimeout. fields.
  destruct (reconnectTimeoutRef st2); [by rewrite uiConnectionStatus_clearTimeout | done].
Qed.

(** X19.  The status text after a failure.  With [apiId], [apiRoot] and
    [apiToken] present, when the current call of a reachable state ends (the
    stream ends or the read fails), the card shows the trying-to-connect
    text after the first failure in a row and the disconnected text from
    the second on. *)
Theorem status_text_after_a_failure sys p k buffer r :
  reachable sys -> In k (tasks sys) ->
  aborted (session sys) (task_signal k) = false ->
  (forall text, r <> ReadChunk text) ->
  present (apiId p) && present (apiRoot p) && present (apiToken p) = true ->
  let st := session sys in
  let st' := (after_read p (task_signal k) buffer r st).1 in
  statusText p st'
  = if (retryCountRef st =? 0)%nat then utf16 "尝试连接..." else utf16 "连接已断开".
Proof.
  intros Hreach Hin Hlive Hend Hprops st st'.
  destruct (live_call_is_current sys k Hreach Hin Hlive) as [Hcur _]. fold st in Hcur, Hlive.
  subst st'. rewrite (after_read_disconnected p _ buffer r st Hlive Hend). cbn [fst].
  set (reason := match r with ReadRejected e => reason_of e | _ => _ end).
  set (st0 := match r with ReadRejected _ => _ | _ => _ end).
  assert (H0 : abortControllerRef st0 = Some (task_signal k)
               /\ aborted st0 (task_signal k) = false
               /\ retryCountRef st0 = retryCountRef st) by (subst st0; by destruct r).
  destruct H0 as (Hc0 & Hl0 & Hn0).
  destruct (scheduleReconnect_live p reason st0 _ Hc0 Hl0) as (Hretry & _).
  unfold statusText. rewrite Hprops, Hretry, Hn0.
  rewrite (scheduleReconnect_status _ _ _ _ Hc0 Hl0).
  by destruct (retryCountRef st).
Qed.

End StatusText.

(** ** The saved connections *)

Section SavedConnections.

Import ApiConfig.

Implicit Types (s : State) (c : NamedApiConfig) (l : list NamedApiConfig) (i : jsstring).

Lemma str_eqb_eq (a b : jsstring) : str_eqb a b = true <-> a = b.
Proof. unfold str_eqb. apply bool_decide_eq_true. Qed.

Lemma find_insert_found (f : NamedApiConfig -> bool) l n new :
  findIndex f l = Some n -> f new = true -> List.find f (<[n := new]> l) = Some new.
Proof.
  revert n; induction l as [|x l IH]; intros n; [done|]. cbn [findIndex].
  destruct (f x) eqn:Hx.
  - intros [= <-] Hnew. cbn. by rewrite Hnew.
  - destruct (findIndex f l) as [m|]; [|done]. intros [= <-] Hnew.
    cbn. rewrite Hx. by apply IH.
Qed.

Lemma find_insert_other (f g : NamedApiConfig -> bool) l n new :
  findIndex f l = Some n -> g new = false -> (forall x, f x = true -> g x = false) ->
  List.find g (<[n := new]> l) = List.find g l.
Proof.
  revert n; induction l as [|x l IH]; intros n; [done|]. cbn [findIndex].
  destruct (f x) eqn:Hx.
  - intros [= <-] Hnew Hfg. cbn. by rewrite Hnew, (Hfg x Hx).
  - destruct (findIndex f l) as [m|]; [|done]. intros [= <-] Hnew Hfg.
    cbn. destruct (g x); [done|]. by apply IH.
Qed.

Lemma findIndex_None (f : NamedApiConfig -> bool) l :
  findIndex f l = None -> List.find f l = None /\ Forall (fun x => f x = false) l.
Proof.
  induction l as [|x l IH]; [done|]. cbn [findIndex List.find].
  destruct (f x) eqn:Hx; [done|]. destruct (findIndex f l); [done|].
  intros _. destruct (IH eq_refl) as [-> Hall]. split; [done|]. by constructor.
Qed.

Lemma findIndex_Some (f : NamedApiConfig -> bool) l n :
  findIndex f l = Some n -> exists x, l !! n = Some x /\ f x = true /\ List.find f l = Some x.
Proof.
  revert n; induction l as [|x l IH]; intros n; [done|]. cbn [findIndex List.find].
  destruct (f x) eqn:Hx.
  - intros [= <-]. by exists x.
  - destruct (findIndex f l) as [m|]; [|done]. intros [= <-]. by apply IH.
Qed.

Lemma find_app_new (g : NamedApiConfig -> bool) l new :
  List.find g (l ++ [new])
  = match List.find g l with Some x => Some x | None => if g new then Some new else None end.
Proof. induction l as [|x l IH]; cbn; [done|]. by destruct (g x). Qed.

(** X20.  A saved configuration is found.  After [addOrUpdateApiConfig]
    the configuration it returns is the one [getApiConfigById] finds under
    its id, the other ids find what they found, the list is one longer
    exactly when the id was not in it, ids that were distinct stay distinct,
    and the active id is untouched.  The id is the one given, or the
    generated one when none or the empty one was given. *)
Theorem saved_config_is_found uuid (given : ConfigToSave) s :
  let saved := (addOrUpdateApiConfig uuid given s).1 in
  let s' := (addOrUpdateApiConfig uuid given s).2 in
  getApiConfigById s' (id saved) = Some saved
  /\ (forall i, i <> id saved -> getApiConfigById s' i = getApiConfigById s i)
  /\ length (apiConfigsList s')
     = (if getApiConfigById s (id saved) is Some _ then length (apiConfigsList s)
        else S (length (apiConfigsList s)))
  /\ (NoDup (map id (apiConfigsList s)) -> NoDup (map id (apiConfigsList s')))
  /\ activeConfigId s' = activeConfigId s
  /\ config saved = save_config given /\ name saved = save_name given
  /\ id saved = (if present (save_id given) then default [] (save_id given) else uuid).
Proof.
  pose (newId := if present (save_id given) then default [] (save_id given) else uuid).
  pose (new := {| config := save_config given; id := newId; name := save_name given |}).
  pose (f := fun c => str_eqb (id c) newId).
  assert (Hcall : addOrUpdateApiConfig uuid given s
                  = (new, {| apiConfigsList :=
                               match findIndex f (apiConfigsList s) with
                               | Some n => <[n := new]> (apiConfigsList s)
                               | None => apiConfigsList s ++ [new]
                               end;
                             activeConfigId := activeConfigId s |})) by reflexivity.
  rewrite Hcall. clear Hcall. unfold getApiConfigById.
  cbn [fst snd apiConfigsList activeConfigId].
  change (id new) with newId. change (config new) with (save_config given).
  change (name new) with (save_name given). fold f.
  assert (Hnew : f new = true) by apply str_eqb_refl.
  destruct (findIndex f (apiConfigsList s)) as [n|] eqn:Hn.
  - destruct (findIndex_Some _ _ _ Hn) as (old & Hold & Hf & Hfind).
    apply str_eqb_eq in Hf.
    split; [by apply find_insert_found|]. split; [|split; [|split]].
    + intros i Hi. apply (find_insert_other f); [done | |].
      * cbv beta. apply str_eqb_false. change (id new) with newId. congruence.
      * intros x Hx%str_eqb_eq. apply str_eqb_false. congruence.
    + fold f. by rewrite Hfind, length_insert.
    + intros Hnd.
      change (map id (<[n:=new]> (apiConfigsList s)))
        with (id <$> <[n:=new]> (apiConfigsList s)).
      rewrite list_fmap_insert. change (id new) with newId.
      rewrite list_insert_id; [done|]. by rewrite list_lookup_fmap, Hold, <- Hf.
    + done.
  - destruct (findIndex_None _ _ Hn) as [Hfind Hall].
    split; [by rewrite find_app_new, Hfind, Hnew|]. split; [|split; [|split]].
    + intros i Hi. rewrite find_app_new.
      cbv beta. change (id new) with newId. rewrite (str_eqb_false newId i) by congruence.
      by destruct (List.find (fun c => str_eqb (id c) i) (apiConfigsList s)).
    + fold f. rewrite Hfind, length_app. simpl. lia.
    + intros Hnd. rewrite map_app. apply NoDup_app. split; [done|].
      split; [|apply NoDup_singleton].
      intros i Hi ->%list_elem_of_singleton.
      apply list_elem_of_fmap in Hi as (x & Hx & Hin).
      rewrite Forall_forall in Hall. specialize (Hall x Hin). unfold f in Hall.
      change (id new) with newId in Hx. rewrite Hx, str_eqb_refl in Hall. done.
    + done.
Qed.

Lemma find_filter_out (g keep : NamedApiConfig -> bool) l :
  (forall x, g x = true -> keep x = true) ->
  List.find g (List.filter keep l) = List.find g l.
Proof.
  intros Hg. induction l as [|x l IH]; [done|]. cbn [List.filter List.find].
  destruct (g x) eqn:Hx.
  - rewrite (Hg x Hx). cbn. by rewrite Hx.
  - destruct (keep x); [cbn; by rewrite Hx | done].
Qed.

Lemma find_filter_none (g keep : NamedApiConfig -> bool) l :
  (forall x, g x = true -> keep x = false) -> List.find g (List.filter keep l) = None.
Proof.
  intros Hg. induction l as [|x l IH]; [done|]. cbn [List.filter].
  destruct (keep x) eqn:Hk; [|done]. cbn. destruct (g x) eqn:Hx; [|done].
  by rewrite (Hg x Hx) in Hk.
Qed.

Lemma sublist_List_filter {A} (f : A -> bool) (l : list A) : List.filter f l `sublist_of` l.
Proof.
  induction l as [|x l IH]; [constructor|]. cbn [List.filter].
  destruct (f x); [by apply sublist_skip | by apply sublist_cons].
Qed.

Lemma deleteApiConfig_list accepted i s :
  apiConfigsList (deleteApiConfig accepted i s)
  = List.filter (fun c => negb (str_eqb (id c) i)) (apiConfigsList s).
Proof.
  unfold deleteApiConfig, saveActiveConfigId. destruct (bool_decide _); [|done].
  by destruct accepted.
Qed.

(** X21.  A deleted configuration is gone.  After [deleteApiConfig] the id
    finds nothing, the other ids find what they found, and the active
    configuration is never the deleted one.  When the active id was the
    deleted one and the storage takes the write, the first configuration
    left becomes active, or none; otherwise the active id stays. *)
Theorem deleted_config_is_gone accepted i s :
  let s' := deleteApiConfig accepted i s in
  getApiConfigById s' i = None
  /\ (forall i', i' <> i -> getApiConfigById s' i' = getApiConfigById s i')
  /\ (forall c, activeApiConfig s' = Some c -> id c <> i)
  /\ (activeConfigId s = Some i -> accepted = true ->
      activeConfigId s' = option_map id (head (apiConfigsList s')))
  /\ (activeConfigId s <> Some i \/ accepted = false -> activeConfigId s' = activeConfigId s)
  /\ (NoDup (map id (apiConfigsList s)) -> NoDup (map id (apiConfigsList s'))).
Proof.
  intros s'.
  assert (Hgone : getApiConfigById s' i = None).
  { unfold getApiConfigById. subst s'. rewrite deleteApiConfig_list.
    apply find_filter_none. by intros x ->. }
  assert (Hkept : forall i', i' <> i -> getApiConfigById s' i' = getApiConfigById s i').
  { intros i' Hi'. unfold getApiConfigById. subst s'. rewrite deleteApiConfig_list.
    apply find_filter_out. intros x Hx%str_eqb_eq. rewrite (str_eqb_false (id x) i); [done|].
    congruence. }
  split; [done|]. split; [done|]. split; [|split; [|split]].
  - intros c. unfold activeApiConfig. destruct (present (activeConfigId s')); [|done].
    intros Hc Hid. unfold getApiConfigById in Hc, Hgone.
    pose proof (find_some _ _ Hc) as [Hin _].
    pose proof (find_none _ _ Hgone c Hin) as Hno. cbv beta in Hno.
    by rewrite Hid, str_eqb_refl in Hno.
  - intros Hactive ->. subst s'. unfold deleteApiConfig.
    by rewrite bool_decide_true by done.
  - intros Hcase. subst s'. unfold deleteApiConfig, saveActiveConfigId.
    destruct (bool_decide (activeConfigId s = Some i)) eqn:Hb; [|done].
    apply bool_decide_eq_true in Hb. by destruct Hcase as [?| ->].
  - intros Hnd. subst s'. rewrite deleteApiConfig_list.
    eapply sublist_NoDup; [exact Hnd|].
    apply (fmap_sublist id), sublist_List_filter.
Qed.

End SavedConnections.

(** ** The root URL and the identity of the event log *)

Section RootUrl.

Import ApiConfig.

Implicit Types (s : State) (c : NamedApiConfig) (u q : jsstring).

Lemma forallb_slashes n : forallb (N.eqb 47) (replicate n 47) = true.
Proof. induction n; [done|]. simpl. exact IHn. Qed.

Lemma strip_trailing_slashes_app u n :
  strip_trailing_slashes (u ++ replicate n 47) = strip_trailing_slashes u.
Proof.
  induction u as [|c u IH].
  - destruct n as [|n]; [done|]. cbn. by rewrite forallb_slashes.
  - cbn [app strip_trailing_slashes]. rewrite forallb_app, forallb_slashes, andb_true_r.
    by rewrite IH.
Qed.

Lemma strip_leading_slashes_app u t :
  strip_leading_slashes (u ++ t)
  = if forallb (N.eqb 47) u then strip_leading_slashes t else strip_leading_slashes u ++ t.
Proof.
  induction u as [|c u IH]; [done|]. cbn [app strip_leading_slashes forallb].
  rewrite (N.eqb_sym 47 c). destruct (c =? 47); [exact IH | done].
Qed.

Lemma strip_leading_slashes_all u :
  forallb (N.eqb 47) u = true -> strip_leading_slashes u = [].
Proof.
  induction u as [|c u IH]; [done|]. cbn [forallb strip_leading_slashes].
  rewrite (N.eqb_sym 47 c). destruct (c =? 47); [exact IH | done].
Qed.

Lemma strip_slashes_around a q b :
  strip_slashes (replicate a 47 ++ q ++ replicate b 47) = strip_slashes q.
Proof.
  unfold strip_slashes. rewrite strip_leading_slashes_app, forallb_slashes.
  rewrite strip_leading_slashes_app.
  destruct (forallb (N.eqb 47) q) eqn:Hq.
  - rewrite (strip_leading_slashes_all q Hq).
    by rewrite (strip_leading_slashes_all _ (forallb_slashes b)).
  - apply strip_trailing_slashes_app.
Qed.

Lemma strip_trailing_slashes_nil u :
  strip_trailing_slashes u = [] -> forallb (N.eqb 47) u = true.
Proof.
  destruct u as [|c u]; [done|]. cbn [strip_trailing_slashes forallb].
  rewrite (N.eqb_sym 47 c). by destruct ((c =? 47) && forallb (N.eqb 47) u).
Qed.

Lemma strip_trailing_slashes_last u : List.last (strip_trailing_slashes u) 0 <> 47.
Proof.
  induction u as [|c u IH]; [done|]. cbn [strip_trailing_slashes].
  destruct ((c =? 47) && forallb (N.eqb 47) u) eqn:Hc; [done|].
  destruct (strip_trailing_slashes u) as [|d r] eqn:Hu; [|exact IH].
  cbn. apply strip_trailing_slashes_nil in Hu. rewrite Hu, andb_true_r in Hc.
  by apply N.eqb_neq.
Qed.

Lemma trimStart_white_nil q : forallb is_white_space q = true -> trimStart q = [].
Proof.
  induction q as [|c q IH]; [done|]. cbn [forallb trimStart].
  intros [-> Hq]%andb_prop. by apply IH.
Qed.

Lemma trim_white q : forallb is_white_space q = true -> trim q = [].
Proof. intros Hq. unfold trim. by rewrite (trimStart_white_nil q Hq). Qed.

Lemma trim_around a q b :
  trim q <> [] -> trim (replicate a 47 ++ q ++ replicate b 47) <> [].
Proof.
  intros Hq Hnil. apply Hq, trim_white. apply trim_nil in Hnil.
  rewrite !forallb_app in Hnil. by apply andb_prop in Hnil as [_ [? _]%andb_prop].
Qed.

(** X22.  The root URL does not depend on slashes to spare: slashes added
    at the end of [apiUrl] and on either side of a [prefixPath] that is not
    blank give the same root, which is the URL without its trailing slashes,
    a slash, and the prefix without the slashes around it, trimmed.  The
    URL part of it does not end with a slash. *)
Theorem root_url_ignores_slashes s s' i c c' a b d q :
  getApiConfigById s i = Some c -> getApiConfigById s' i = Some c' ->
  apiUrl (config c) <> [] -> trim q <> [] ->
  apiUrl (config c') = apiUrl (config c) ++ replicate a 47 ->
  prefixPath (config c) = Some q ->
  prefixPath (config c') = Some (replicate b 47 ++ q ++ replicate d 47) ->
  getApiRootUrl s' i = getApiRootUrl s i
  /\ getApiRootUrl s i
     = Some (strip_trailing_slashes (apiUrl (config c)) ++ utf16 "/" ++ trim (strip_slashes q))
  /\ List.last (strip_trailing_slashes (apiUrl (config c))) 0 <> 47.
Proof.
  intros Hc Hc' Hu Hq Hu' Hp Hp'. unfold getApiRootUrl. rewrite Hc, Hc', Hu', Hp, Hp'.
  pose proof (trim_around b q d Hq) as Hq'.
  assert (Hne : q <> []) by (by intros ->).
  destruct (apiUrl (config c)) as [|x u] eqn:Hx; [done|].
  cbn [app from_option Datatypes.id]. rewrite (str_eqb_false _ [] Hq), (str_eqb_false _ [] Hq').
  assert (present (Some q) = true) as -> by (by destruct q).
  assert (present (Some (replicate b 47 ++ q ++ replicate d 47)) = true) as ->.
  { destruct b; [by destruct q | done]. }
  cbn [negb andb]. rewrite strip_slashes_around.
  change (x :: u ++ replicate a 47) with ((x :: u) ++ replicate a 47).
  rewrite strip_trailing_slashes_app.
  split; [done|]. split; [done|]. apply strip_trailing_slashes_last.
Qed.

End RootUrl.

Section HomePage.

Import ApiConfig.

Context `{Host}.

Lemma active_config_is_found s c :
  activeApiConfig s = Some c ->
  getApiConfigById s (id c) = Some c /\ present (Some (id c)) = true.
Proof.
  unfold activeApiConfig. destruct (activeConfigId s) as [[|x i]|]; try done.
  cbn [present default]. intros Hc. unfold getApiConfigById in Hc.
  pose proof (find_some _ _ Hc) as [_ Hid%str_eqb_eq]. by rewrite Hid.
Qed.

(** X23.  The identity [HomePage] gives [EventLog].  With an active
    configuration the component is rendered with its id and name; the
    identity is complete when name and token are not empty and the URL holds
    more than slashes; and when the name, the token or the URL is empty the
    identity is incomplete, so that the effect starts no attempt and leaves
    the session idle with an empty log. *)
Theorem home_page_identity s c :
  activeApiConfig s = Some c ->
  exists p,
    EventLog_props s = Some p
    /\ apiId p = Some (id c) /\ apiName p = Some (name c)
    /\ (name c <> [] -> token (config c) <> [] ->
        forallb (N.eqb 47) (apiUrl (config c)) = false -> identity_valid p = true)
    /\ (name c = [] \/ token (config c) = [] \/ apiUrl (config c) = [] ->
        identity_valid p = false
        /\ forall connected connecting st, exists st',
             useEffect_body p connected connecting st = (st', None)
             /\ uiConnectionStatus st' = ui_idle /\ events st' = []).
Proof.
  intros Hactive. destruct (active_config_is_found s c Hactive) as [Hfound Hid].
  unfold EventLog_props. rewrite Hactive. eexists. split; [reflexivity|].
  cbn [apiId apiName]. split; [done|]. split; [done|].
  match goal with |- (_ -> _ -> _ -> identity_valid ?r = true) /\ _ => set (p := r) end.
  assert (Hvalid : identity_valid p
                   = present (getApiRootUrl s (id c)) && present (getToken s (id c))
                     && present (Some (name c))).
  { unfold identity_valid, p. cbn [apiId apiName apiRoot apiToken]. by rewrite Hid. }
  rewrite Hvalid. unfold getApiRootUrl, getToken. rewrite Hfound. split.
  - intros Hname Htoken Hurl.
    destruct (name c) as [|n0 nm]; [done|]. destruct (token (config c)) as [|t0 tk]; [done|].
    destruct (apiUrl (config c)) as [|x u] eqn:Hu; [done|].
    destruct (strip_trailing_slashes (x :: u)) as [|y r] eqn:Hstrip;
      [apply strip_trailing_slashes_nil in Hstrip; congruence|].
    by destruct (present (prefixPath (config c)) && _).
  - intros Hcase.
    match goal with |- ?b = false /\ _ => assert (Hinvalid : b = false) end.
    { destruct Hcase as [->|[->| ->]]; cbn [present]; rewrite ?andb_false_r; done. }
    split; [done|]. intros connected connecting st.
    unfold getApiRootUrl, getToken in Hvalid. rewrite Hfound, Hinvalid in Hvalid.
    destruct (idle_entry p connected connecting st Hvalid) as ((st' & Hbody & Hidle & _ & _ & He & _) & _).
    by exists st'.
Qed.

End HomePage.

(** ** The URL of an instance *)

Section InstanceUrl.

Import ModifyInstanceDialog.

Implicit Types (a b s t : jsstring) (v : ModifyInstanceFormValues).

Lemma includes_char_app a b c :
  includes (a ++ b) [c] = includes a [c] || includes b [c].
Proof.
  induction a as [|x a IH].
  - cbn [app includes startsWith]. by destruct (includes b [c]).
  - cbn [app includes startsWith]. rewrite IH, !andb_true_r. by rewrite orb_assoc.
Qed.

Lemma indexOf_char a b c :
  includes a [c] = false -> indexOf (a ++ c :: b) [c] = Some (length a).
Proof.
  induction a as [|x a IH]; intros Ha.
  - cbn [app indexOf startsWith]. by rewrite N.eqb_refl.
  - apply orb_false_elim in Ha as [Hx Ha]. cbn [startsWith] in Hx. rewrite andb_true_r in Hx.
    cbn [app indexOf startsWith]. rewrite Hx. cbn [andb]. by rewrite (IH Ha).
Qed.

Lemma substring_prefix a b : substring (a ++ b) 0 (length a) = a.
Proof.
  unfold substring. rewrite length_app. rewrite Nat.min_0_l.
  rewrite (Nat.min_l (length a)) by lia. rewrite Nat.min_0_l, Nat.max_0_l, Nat.sub_0_r.
  rewrite drop_0. by rewrite take_app_length.
Qed.

(** The text [buildUrl] makes: the scheme, the two addresses, and a query. *)
Lemma buildUrl_shape v :
  exists tail,
    buildUrl v
    = form_instanceType v ++ utf16 "://" ++ form_tunnelAddress v ++ [47]
      ++ form_targetAddress v ++ [63] ++ tail.
Proof.
  unfold buildUrl.
  change (utf16 "/") with [47]. change (utf16 "?log=") with ([63] ++ utf16 "log=").
  destruct (_ && _); [destruct (str_eqb _ _)|]; eexists; rewrite <- ?app_assoc; reflexivity.
Qed.

Lemma server_letters : utf16 "server" = [115; 101; 114; 118; 101; 114].
Proof. by vm_compute. Qed.

Lemma client_letters : utf16 "client" = [99; 108; 105; 101; 110; 116].
Proof. by vm_compute. Qed.

Lemma separator_letters : utf16 "://" = [58; 47; 47].
Proof. by vm_compute. Qed.

Lemma scheme_found scheme rest :
  In scheme [utf16 "server"; utf16 "client"] ->
  match_scheme (scheme ++ utf16 "://" ++ rest) = Some (scheme, scheme ++ utf16 "://")
  /\ indexOf (scheme ++ utf16 "://" ++ rest) (utf16 "://") = Some (length scheme)
  /\ (str_eqb scheme (utf16 "server") || str_eqb scheme (utf16 "client")) = true.
Proof.
  intros [<-|[<-|[]]]; rewrite ?server_letters, ?client_letters, separator_letters;
    by vm_compute.
Qed.

(** X24.  [parseNodePassUrl] gives back what [buildUrl] was given: for a
    server or client form whose tunnel address holds no slash and no
    question mark and whose target address holds no question mark, the URL
    built parses to the same type, tunnel address and target address,
    whatever the query parameters are read as; a client has no TLS mode. *)
Theorem parsed_url_gives_back_the_addresses get v :
  In (form_instanceType v) [utf16 "server"; utf16 "client"] ->
  includes (form_tunnelAddress v) (utf16 "/") = false ->
  includes (form_tunnelAddress v) (utf16 "?") = false ->
  includes (form_targetAddress v) (utf16 "?") = false ->
  let parsed := parseNodePassUrl get (buildUrl v) in
  instanceType parsed = Some (form_instanceType v)
  /\ tunnelAddress parsed = form_tunnelAddress v
  /\ targetAddress parsed = form_targetAddress v
  /\ (form_instanceType v = utf16 "client" -> tlsMode parsed = None).
Proof.
  intros Htype Hslash Hquery Htarget.
  change (utf16 "/") with [47] in Hslash. change (utf16 "?") with [63] in Hquery, Htarget.
  destruct (buildUrl_shape v) as [tail Hurl]. cbv zeta. rewrite Hurl.
  set (scheme := form_instanceType v) in *. set (tunnel := form_tunnelAddress v) in *.
  set (target := form_targetAddress v) in *.
  destruct (scheme_found scheme (tunnel ++ [47] ++ target ++ [63] ++ tail) Htype)
    as (Hmatch & _ & Hknown).
  unfold parseNodePassUrl. rewrite Hmatch, Hknown.
  assert (is_empty (scheme ++ utf16 "://" ++ tunnel ++ [47] ++ target ++ [63] ++ tail) = false)
    as -> by (destruct Htype as [<-|[<-|[]]]; done).
  replace (scheme ++ utf16 "://" ++ tunnel ++ [47] ++ target ++ [63] ++ tail)
    with ((scheme ++ utf16 "://") ++ tunnel ++ [47] ++ target ++ [63] ++ tail)
    by (by rewrite <- app_assoc).
  rewrite substring_from_app.
  change (utf16 "?") with [63]. change (utf16 "/") with [47].
  assert (Hparts : split (tunnel ++ [47] ++ target ++ [63] ++ tail) [63]
                   = (tunnel ++ [47] ++ target) :: split_aux [63] 0 tail).
  { unfold split.
    replace (tunnel ++ [47] ++ target ++ [63] ++ tail)
      with ((tunnel ++ [47] ++ target) ++ [63] ++ tail) by (by rewrite <- !app_assoc).
    apply split_aux_char. rewrite !includes_char_app, Hquery, Htarget. done. }
  rewrite Hparts. cbn [lookup list_lookup default from_option Datatypes.id].
  assert (Haddr : split (tunnel ++ [47] ++ target) [47] = tunnel :: split_aux [47] 0 target).
  { unfold split. by apply split_aux_char. }
  rewrite Haddr.
  pose proof (split_aux_nonempty [47] 0 target) as Hne.
  destruct (split_aux [47] 0 target) as [|piece pieces] eqn:Hpieces; [done|].
  cbn [length Nat.ltb Nat.leb drop or_empty lookup list_lookup default from_option Datatypes.id].
  assert (Hjoin : join (piece :: pieces) [47] = target).
  { rewrite <- Hpieces. rewrite split_aux_join by (done || lia). apply drop_0. }
  rewrite Hjoin.
  destruct (present (split_aux [63] 0 tail !! 0%nat)); cbn [instanceType tunnelAddress
    targetAddress tlsMode]; (split; [done|]); (split; [done|]); (split; [done|]);
    intros ->; by vm_compute.
Qed.

(** X25.  The topology page reads the addresses of a built URL: under the
    same conditions [parseTargetAddr] gives the target address, and
    [parseTunnelAddr] gives the tunnel address when the [URL] constructor
    rejects the text. *)
Theorem topology_reads_the_addresses URL_host v :
  In (form_instanceType v) [utf16 "server"; utf16 "client"] ->
  includes (form_tunnelAddress v) (utf16 "/") = false ->
  includes (form_tunnelAddress v) (utf16 "?") = false ->
  includes (form_targetAddress v) (utf16 "?") = false ->
  Topology.parseTargetAddr (buildUrl v) = Some (form_targetAddress v)
  /\ (URL_host (buildUrl v) = None ->
      Topology.parseTunnelAddr URL_host (buildUrl v) = Some (form_tunnelAddress v)).
Proof.
  intros Htype Hslash Hquery Htarget.
  change (utf16 "/") with [47] in Hslash. change (utf16 "?") with [63] in Hquery, Htarget.
  destruct (buildUrl_shape v) as [tail Hurl]. rewrite Hurl.
  set (scheme := form_instanceType v) in *. set (tunnel := form_tunnelAddress v) in *.
  set (target := form_targetAddress v) in *.
  destruct (scheme_found scheme (tunnel ++ [47] ++ target ++ [63] ++ tail) Htype)
    as (_ & Hindex & _).
  assert (Hrest : substring_from (scheme ++ utf16 "://" ++ tunnel ++ [47] ++ target ++ [63] ++ tail)
                    (length scheme + length (utf16 "://"))
                  = tunnel ++ [47] ++ target ++ [63] ++ tail).
  { rewrite <- length_app.
    replace (scheme ++ utf16 "://" ++ tunnel ++ [47] ++ target ++ [63] ++ tail)
      with ((scheme ++ utf16 "://") ++ tunnel ++ [47] ++ target ++ [63] ++ tail)
      by (by rewrite <- app_assoc).
    apply substring_from_app. }
  assert (Hpath : indexOf (tunnel ++ [47] ++ target ++ [63] ++ tail) [47] = Some (length tunnel))
    by (by apply indexOf_char).
  assert (Hq : indexOf (tunnel ++ [47] ++ target ++ [63] ++ tail) [63]
               = Some (length (tunnel ++ [47] ++ target))).
  { replace (tunnel ++ [47] ++ target ++ [63] ++ tail)
      with ((tunnel ++ [47] ++ target) ++ 63 :: tail) by (by rewrite <- !app_assoc).
    apply indexOf_char. rewrite !includes_char_app, Hquery, Htarget. done. }
  split.
  - unfold Topology.parseTargetAddr. cbv zeta. rewrite Hindex, Hrest.
    change (utf16 "/") with [47]. change (utf16 "?") with [63]. rewrite Hpath.
    replace (tunnel ++ [47] ++ target ++ [63] ++ tail)
      with ((tunnel ++ [47]) ++ target ++ [63] ++ tail) by (by rewrite <- !app_assoc).
    replace (length tunnel + 1)%nat with (length (tunnel ++ [47]))
      by (rewrite length_app; simpl; lia).
    rewrite substring_from_app.
    rewrite (indexOf_char target tail 63 Htarget : indexOf (target ++ [63] ++ tail) [63] = _).
    by rewrite substring_prefix.
  - intros Hhost. unfold Topology.parseTunnelAddr. cbv zeta. rewrite Hhost, Hindex, Hrest.
    change (utf16 "/") with [47]. change (utf16 "?") with [63]. rewrite Hpath, Hq.
    rewrite Nat.min_l by (rewrite length_app; lia). by rewrite substring_prefix.
Qed.

End InstanceUrl.

(** * The theorems at concrete inputs

    Every run below is one of [sample_host]. *)

Lemma sample_system_reachable : @reachable sample_host sample_system.
Proof.
  assert (H1 : @reachable sample_host
                 (spawn (@useEffect_body sample_host sample_props false false mount) []))
    by exact (reachable_step _ _ reachable_mount (step_effect sample_props false false _)).
  assert (H2 : @reachable sample_host
                 (spawn (@resume sample_host sample_props (AwaitingFetch 0)
                           (ByFetch (FetchResponse true 200 (utf16 "OK") true))
                           (session (spawn (@useEffect_body sample_host sample_props false false mount) [])))
                    (base.delete 0%nat
                       (tasks (spawn (@useEffect_body sample_host sample_props false false mount) [])))))
    by (apply (reachable_step _ _ H1), step_resume; vm_compute; reflexivity).
  replace sample_system with
    (spawn (@resume sample_host sample_props (AwaitingFetch 0)
              (ByFetch (FetchResponse true 200 (utf16 "OK") true))
              (session (spawn (@useEffect_body sample_host sample_props false false mount) [])))
       (base.delete 0%nat (tasks (spawn (@useEffect_body sample_host sample_props false false mount) []))));
    [exact H2 | vm_compute; reflexivity].
Qed.

Lemma sample_disconnected_reachable : @reachable sample_host sample_disconnected.
Proof.
  exact (@reachable_step sample_host _ _ sample_system_reachable
           (@step_resume sample_host sample_props 0%nat (AwaitingRead 0 []) (ByRead ReadDone)
              sample_system eq_refl)).
Qed.


Lemma sample_mounted_reachable : @reachable sample_host sample_mounted.
Proof.
  exact (@reachable_step sample_host _ _ (@reachable_mount sample_host)
           (@step_effect sample_host sample_props false false _)).
Qed.

Lemma read_loop_buffers_until_separator_run :
  aborted
    (fst (@read_loop sample_host sample_props 0 []
            (map ReadChunk [example_chunk1; example_chunk2]) sample_connected)) 0
  = false
  /\ @read_loop sample_host sample_props 0 []
       (map ReadChunk [example_chunk1; example_chunk2]) sample_connected
     = (@process_blocks sample_host
          (removelast (split (concat [example_chunk1; example_chunk2]) (LF ++ LF)))
          sample_connected,
        Some (AwaitingRead 0
                (pop_or_empty (split (concat [example_chunk1; example_chunk2]) (LF ++ LF))))).
Proof.
  split; [vm_compute; reflexivity|].
  apply (@read_loop_buffers_until_separator sample_host sample_props 0
           [example_chunk1; example_chunk2] sample_connected).
  vm_compute; reflexivity.
Defined.

Lemma malformed_json_is_logged_run :
  scan_lines (instance_frame json_cut_short) = (utf16 "instance", json_cut_short)
  /\ JSON_parse json_cut_short = None
  /\ events (@processSseMessageData sample_host (instance_frame json_cut_short) sample_connected)
     = addEventToLog
         {| type := log; data := JString (utf16 "解析事件错误 (fetch): " ++ json_cut_short);
            instanceDetails := None; level := None;
            timestamp := JString (@clock sample_host (clock_reads sample_connected)) |}
         (events sample_connected).
Proof.
  split; [vm_compute; reflexivity|]. split; [vm_compute; reflexivity|].
  apply (@malformed_json_is_logged sample_host (instance_frame json_cut_short) json_cut_short
           sample_connected); [vm_compute; reflexivity | discriminate | vm_compute; reflexivity].
Defined.


(** Splits a conjunction of closed equations and evaluates each. *)
Ltac by_computation :=
  cbv zeta;
  repeat lazymatch goal with |- _ /\ _ => split end;
  vm_compute; reflexivity.

Lemma lifecycle_event_payload_run :
  exists ev,
    events (@processSseMessageData sample_host (instance_frame json_update_instance)
              sample_connected)
    = addEventToLog ev (events sample_connected)
    /\ type ev = update
    /\ data ev = JObject [(utf16 "id", JString (utf16 "a1"));
                          (utf16 "status", JString (utf16 "running"))].
Proof.
  destruct (@lifecycle_event_payload sample_host (instance_frame json_update_instance)
              json_update_instance
              (JObject [(utf16 "type", JString (utf16 "update"));
                        (utf16 "instance",
                         JObject [(utf16 "id", JString (utf16 "a1"));
                                  (utf16 "status", JString (utf16 "running"))])])
              update sample_connected)
    as (ev & Hev & Htype & Hdata & _);
    [vm_compute; reflexivity | discriminate | vm_compute; reflexivity
     | right; right; left; reflexivity | vm_compute; reflexivity |].
  exists ev. split; [exact Hev|]. split; [exact Htype|]. exact Hdata.
Defined.

(** C6 as stated fails: the frame [{"type":"update","data":0}] has no
    [instance] field and a [data] field, the number 0, yet the payload of
    the event is the empty object, because 0 is falsy. *)
Lemma payload_is_not_the_present_data_field :
  scan_lines (instance_frame json_update_zero) = (utf16 "instance", json_update_zero)
  /\ JSON_parse json_update_zero
     = Some (JObject [(utf16 "type", JString (utf16 "update"));
                      (utf16 "data", JNumber {| neg := false; mantissa := 0; exponent := 0 |})])
  /\ option_map payload_as_specified (JSON_parse json_update_zero)
     = Some (JNumber {| neg := false; mantissa := 0; exponent := 0 |})
  /\ map (fun ev => (type ev, data ev))
       (events (@processSseMessageData sample_host (instance_frame json_update_zero) mount))
     = [(update, JObject [])].
Proof. by_computation. Qed.



Lemma shutdown_frame_ends_the_stream_run :
  aborted
    (fst (@after_read sample_host sample_props 0 []
            (ReadChunk (instance_frame json_shutdown ++ LF ++ LF)) (session sample_system))) 0
  = true
  /\ exists st2,
       @after_read sample_host sample_props 0 [] ReadDone
         (fst (@after_read sample_host sample_props 0 []
                 (ReadChunk (instance_frame json_shutdown ++ LF ++ LF)) (session sample_system)))
       = (st2, None)
       /\ timers st2 = timers (session sample_system)
       /\ reconnectTimeoutRef st2 = reconnectTimeoutRef (session sample_system).
Proof.
  destruct (@shutdown_frame_ends_the_stream sample_host sample_system sample_props 0 []
              (instance_frame json_shutdown ++ LF ++ LF) [] (instance_frame json_shutdown) []
              json_shutdown (JObject [(utf16 "type", JString (utf16 "shutdown"))]))
    as (_ & _ & Hab & Hend);
    [exact sample_system_reachable | left; reflexivity | vm_compute; reflexivity
     | vm_compute; reflexivity | vm_compute; reflexivity | discriminate
     | vm_compute; reflexivity | vm_compute; reflexivity |].
  split; [exact Hab|].
  destruct (Hend [] ReadDone) as (st2 & Hread & _ & Ht & Hr & _).
  exists st2. split; [exact Hread|]. split; [exact Ht | exact Hr].
Defined.

(** C2 as stated fails: after a [shutdown] frame the stream ends, or the
    read fails with the reason of the abort, and in either case no timer is
    made and the retry counter stays 0, while the same end of stream
    without the frame schedules the reconnection. *)
Lemma shutdown_schedules_no_reconnection :
  (let st' := fst (@read_loop sample_host sample_props 0 []
                     [ReadChunk (instance_frame json_shutdown ++ LF ++ LF); ReadDone]
                     sample_connected) in
   map type (events st') = [shutdown; log] /\ aborted st' 0 = true
   /\ timers st' = [] /\ reconnectTimeoutRef st' = None /\ retryCountRef st' = 0%nat)
  /\ (let st' := fst (@read_loop sample_host sample_props 0 []
                        [ReadChunk (instance_frame json_shutdown ++ LF ++ LF);
                         ReadRejected {| error_name := None; error_message := None |}]
                        sample_connected) in
      timers st' = [] /\ reconnectTimeoutRef st' = None /\ retryCountRef st' = 0%nat)
  /\ (let st' := fst (@read_loop sample_host sample_props 0 [] [ReadDone] sample_connected) in
      timers st' = [Pending 5000] /\ reconnectTimeoutRef st' = Some 0%nat
      /\ retryCountRef st' = 1%nat).
Proof. by_computation. Qed.


Lemma invalid_identity_enters_idle_run :
  exists st',
    @useEffect_body sample_host cleared_props true false (session sample_system) = (st', None)
    /\ uiConnectionStatus st' = ui_idle /\ events st' = []
    /\ Forall (fun k => aborted st' (task_signal k) = true) (tasks sample_system)
    /\ reconnectTimeoutRef st' = None.
Proof.
  destruct (@invalid_identity_enters_idle sample_host sample_system cleared_props true false)
    as ((st' & Hbody & Hidle & _ & _ & Hevents & Habort & Href & _) & _);
    [exact sample_system_reachable | vm_compute; reflexivity |].
  exists st'. split; [exact Hbody|]. split; [exact Hidle|]. split; [exact Hevents|].
  split; [exact Habort | exact Href].
Defined.

(** C9 as stated fails: when the configuration of the connected sample
    session is cleared, the cleanup and the effect leave the session idle
    with an empty log; the diagnostic that the feed is disabled is not in
    it. *)
Lemma idle_entry_emits_no_diagnostic :
  length (events sample_connected) = 1%nat
  /\ (let st' := fst (@useEffect_body sample_host cleared_props true false
                        (useEffect_cleanup sample_connected)) in
      uiConnectionStatus st' = ui_idle /\ events st' = [])
  /\ map data (events (fst (@connectWithFetch sample_host cleared_props true mount)))
     = [JString (utf16 "API 配置无效，事件流禁用。")].
Proof. by_computation. Qed.

Lemma status_line_replaces_the_earlier_ones_run :
  addEventToLog (sample_event "事件流连接已由服务器关闭。")
    [sample_event "tick"; sample_event "事件流 (fetch) 已连接。"; sample_event "tock"]
  = [sample_event "事件流连接已由服务器关闭。"; sample_event "tick"; sample_event "tock"].
Proof.
  destruct (status_line_replaces_the_earlier_ones (sample_event "事件流连接已由服务器关闭。")
              [sample_event "tick"; sample_event "事件流 (fetch) 已连接。"; sample_event "tock"])
    as (Hlog & _); [vm_compute; reflexivity|].
  rewrite Hlog. vm_compute; reflexivity.
Defined.

(** C4 as stated fails: with 200 buffered events none of which is a status
    line, inserting a status line drops the oldest of them. *)
Lemma status_line_drops_the_oldest_plain_event :
  let prev := replicate 199 (sample_event "tick") ++ [sample_event "first"] in
  is_status_message (data (sample_event "事件流 (fetch) 已连接。")) = true
  /\ forallb plain prev = true
  /\ length prev = 200%nat
  /\ addEventToLog (sample_event "事件流 (fetch) 已连接。") prev
     = sample_event "事件流 (fetch) 已连接。" :: replicate 199 (sample_event "tick").
Proof. by_computation. Qed.

(** C5 as stated fails: a log of 200 events whose newest is a status line
    keeps its oldest event when a new status line is inserted. *)
Lemma full_log_keeps_its_oldest_event :
  let prev := sample_event "事件流 (fetch) 已连接。" :: replicate 198 (sample_event "tick")
              ++ [sample_event "first"] in
  length prev = 200%nat
  /\ List.last prev (sample_event "") = sample_event "first"
  /\ addEventToLog (sample_event "连接已断开") prev
     = sample_event "连接已断开" :: replicate 198 (sample_event "tick") ++ [sample_event "first"]
  /\ length (addEventToLog (sample_event "连接已断开") prev) = 200%nat.
Proof. by_computation. Qed.

(** ** The further properties at concrete inputs *)

Lemma sample_superseded_reachable : @reachable sample_host sample_superseded.
Proof.
  exact (@reachable_step sample_host _ _ sample_system_reachable
           (@step_effect sample_host other_props true false sample_system)).
Qed.

Lemma split_loses_nothing_run :
  join (split (utf16 "a" ++ LF ++ LF ++ LF ++ utf16 "b") (LF ++ LF)) (LF ++ LF)
  = utf16 "a" ++ LF ++ LF ++ LF ++ utf16 "b"
  /\ Forall (fun p => includes p (LF ++ LF) = false)
       (split (utf16 "a" ++ LF ++ LF ++ LF ++ utf16 "b") (LF ++ LF)).
Proof. apply (split_loses_nothing (utf16 "a" ++ LF ++ LF ++ LF ++ utf16 "b") (LF ++ LF)). discriminate. Defined.

Lemma last_line_wins_run :
  scan_lines (instance_frame json_log_hello ++ LF ++ utf16 "data:" ++ utf16 " [1]")
  = ((scan_lines (instance_frame json_log_hello)).1, trim (utf16 " [1]"))
  /\ scan_lines (instance_frame json_log_hello ++ LF ++ utf16 "event:" ++ utf16 " [1]")
     = (trim (utf16 " [1]"), (scan_lines (instance_frame json_log_hello)).2).
Proof.
  apply (last_line_wins (instance_frame json_log_hello) (utf16 " [1]")). vm_compute; reflexivity.
Defined.

Lemma block_without_data_is_ignored_run :
  @processSseMessageData sample_host keep_alive_block sample_connected = sample_connected.
Proof.
  apply (@block_without_data_is_ignored sample_host keep_alive_block sample_connected).
  replace (split keep_alive_block LF) with [utf16 ": keep-alive"; utf16 "event: instance"]
    by (vm_compute; reflexivity).
  constructor; [vm_compute; reflexivity|]. constructor; [vm_compute; reflexivity|]. constructor.
Defined.

Lemma one_connection_at_a_time_run :
  (forall i j k k',
     tasks sample_superseded !! i = Some k -> tasks sample_superseded !! j = Some k' ->
     aborted (session sample_superseded) (task_signal k) = false ->
     aborted (session sample_superseded) (task_signal k') = false -> i = j)
  /\ (forall c c',
        controllers (session sample_superseded) !! c = Some false ->
        controllers (session sample_superseded) !! c' = Some false -> c = c')
  /\ (forall t t' d d',
        timers (session sample_superseded) !! t = Some (Pending d) ->
        timers (session sample_superseded) !! t' = Some (Pending d') -> t = t').
Proof.
  exact (@one_connection_at_a_time sample_host sample_superseded sample_superseded_reachable).
Defined.

Lemma superseded_read_loop_is_inert_run :
  aborted (session sample_superseded) 0 = true
  /\ exists st',
       @after_read sample_host sample_props 0 [] (ReadChunk (instance_frame json_log_hello ++ LF ++ LF))
         (session sample_superseded) = (st', None)
       /\ events st' = events (session sample_superseded)
       /\ timers st' = timers (session sample_superseded)
       /\ reconnectTimeoutRef st' = reconnectTimeoutRef (session sample_superseded)
       /\ retryCountRef st' = retryCountRef (session sample_superseded).
Proof.
  apply (@superseded_read_loop_is_inert sample_host sample_superseded sample_props 0%nat []
           (ReadChunk (instance_frame json_log_hello ++ LF ++ LF)) sample_superseded_reachable).
  - vm_compute. left. reflexivity.
  - vm_compute. intros [=].
Defined.

Lemma new_attempt_supersedes_run :
  exists st',
    @connectWithFetch sample_host sample_props false (session sample_disconnected)
    = (st', Some (AwaitingFetch (length (controllers (session sample_disconnected)))))
    /\ aborted st' (length (controllers (session sample_disconnected))) = false
    /\ reconnectTimeoutRef st' = None
    /\ (forall t d, timers st' !! t <> Some (Pending d))
    /\ events st' = events (session sample_disconnected).
Proof.
  destruct (@new_attempt_supersedes sample_host sample_disconnected sample_props false)
    as (st' & Hcall & _ & Hlive & _ & Href & Hnone & _ & Hevents);
    [exact sample_disconnected_reachable | vm_compute; reflexivity |].
  exists st'. split; [exact Hcall|]. split; [exact Hlive|]. split; [exact Href|].
  split; [exact Hnone | exact Hevents].
Defined.

Lemma cleanup_leaves_nothing_running_run :
  Forall (fun k => aborted (useEffect_cleanup (session sample_superseded)) (task_signal k) = true)
    (tasks sample_superseded)
  /\ (forall t d, timers (useEffect_cleanup (session sample_disconnected)) !! t <> Some (Pending d)).
Proof.
  split.
  - apply (@cleanup_leaves_nothing_running sample_host sample_superseded
             sample_superseded_reachable).
  - apply (@cleanup_leaves_nothing_running sample_host sample_disconnected
             sample_disconnected_reachable).
Defined.

Lemma reconnection_that_succeeds_is_silent_run :
  exists st1 st2,
    @timer_fires sample_host sample_props 0 (session sample_disconnected)
    = (st1, Some (AwaitingFetch (length (controllers (session sample_disconnected)))))
    /\ @after_fetch sample_host sample_props (length (controllers (session sample_disconnected)))
         (FetchResponse true 200 (utf16 "OK") true) st1
       = (st2, Some (AwaitingRead (length (controllers (session sample_disconnected))) []))
    /\ events st2 = events (session sample_disconnected)
    /\ retryCountRef st2 = 0%nat.
Proof.
  destruct (@reconnection_that_succeeds_is_silent sample_host sample_props 0%nat 5000%nat
              200%nat (utf16 "OK") (session sample_disconnected))
    as (st1 & st2 & Hfire & Hfetch & Hevents & Hretry & _);
    [vm_compute; reflexivity | vm_compute; reflexivity | vm_compute; reflexivity |].
  exists st1, st2. split; [exact Hfire|]. split; [exact Hfetch|].
  split; [exact Hevents | exact Hretry].
Defined.

Lemma effect_run_again_starts_again_run :tasks sample_mounted = [AwaitingFetch 0]
  /\ currentApiIdRef (session sample_mounted) = apiId sample_props
  /\ exists st',
       @useEffect_body sample_host sample_props false false
         (useEffect_cleanup (session sample_mounted))
       = (st', Some (AwaitingFetch 1))
       /\ abortControllerRef st' = Some 1%nat /\ aborted st' 1 = false
       /\ Forall (fun k => aborted st' (task_signal k) = true) (tasks sample_mounted)
       /\ retryCountRef st' = 0%nat.
Proof.
  split; [vm_compute; reflexivity|]. split; [vm_compute; reflexivity|].
  destruct (@effect_run_again_starts_again sample_host sample_mounted sample_props)
    as (st' & Hbody & Href & Hlive & Haborted & _ & Hretry & _);
    [exact sample_mounted_reachable | vm_compute; reflexivity |].
  exists st'. split; [exact Hbody|]. split; [exact Href|]. split; [exact Hlive|].
  split; [exact Haborted | exact Hretry].
Defined.

Lemma new_identity_starts_afresh_run :
  exists st',
    @useEffect_body sample_host other_props true false (session sample_system)
    = (st', Some (AwaitingFetch (length (controllers (session sample_system)))))
    /\ events st'
       = [log_event (utf16 "正在初始化事件流 (fetch) 到 "
                     ++ @getEventsUrl sample_host (default [] (apiRoot other_props))
                     ++ utf16 " (携带 X-API-Key)...") None
            (@clock sample_host (clock_reads (session sample_system)))]
    /\ retryCountRef st' = 0%nat
    /\ Forall (fun k => aborted st' (task_signal k) = true) (tasks sample_system).
Proof.
  destruct (@new_identity_starts_afresh sample_host sample_system other_props true false)
    as (st' & Hbody & Hevents & Hretry & _ & _ & _ & _ & _ & _ & _ & Haborted & _);
    [exact sample_system_reachable | vm_compute; reflexivity | vm_compute; intros [=] |].
  exists st'. split; [exact Hbody|]. split; [exact Hevents|].
  split; [exact Hretry | exact Haborted].
Defined.

Lemma rerun_for_the_same_id_while_connected_run :
  @useEffect_body sample_host renamed_props true false
    (useEffect_cleanup (session sample_system))
  = (useEffect_cleanup (session sample_system), None)
  /\ Forall (fun k => aborted (useEffect_cleanup (session sample_system)) (task_signal k) = true)
       (tasks sample_system)
  /\ quiet (useEffect_cleanup (session sample_system)).
Proof.
  destruct (@rerun_for_the_same_id_while_connected sample_host sample_system renamed_props
              true false)
    as (Hbody & Haborted & Hquiet & _);
    [exact sample_system_reachable | vm_compute; reflexivity | vm_compute; reflexivity
     | left; reflexivity |].
  split; [exact Hbody|]. split; [exact Haborted | exact Hquiet].
Defined.

Lemma level_is_one_of_the_five_run :
  In (utf16 "ERROR") ALL_LOG_LEVELS /\ parseLogLevel (utf16 "ERROR") = Some (utf16 "ERROR").
Proof.
  apply (level_is_one_of_the_five (utf16 "2024 [error] disk") (utf16 "ERROR")).
  vm_compute; reflexivity.
Defined.

Lemma payload_that_is_no_object_run :
  @processSseMessageData sample_host (instance_frame json_null) sample_connected
  = @add_log sample_host (utf16 "解析事件错误 (fetch): " ++ json_null) None sample_connected.
Proof.
  destruct (@payload_that_is_no_object sample_host (instance_frame json_null) json_null JNull
              sample_connected) as [Hnull _];
    [vm_compute; reflexivity | discriminate | vm_compute; reflexivity | discriminate |].
  apply Hnull. reflexivity.
Defined.

Lemma reachable_log_is_bounded_run :
  (length (events (session sample_disconnected)) <= 200)%nat
  /\ (length (status_lines (events (session sample_disconnected))) <= 1)%nat.
Proof.
  exact (@reachable_log_is_bounded sample_host sample_disconnected sample_disconnected_reachable).
Defined.

Lemma expandable_decoded_events_run :
  exists ev,
    events (@processSseMessageData sample_host (instance_frame json_create_data) sample_connected)
    = addEventToLog ev (events sample_connected)
    /\ isExpandable ev = true.
Proof.
  destruct (@expandable_decoded_events sample_host (instance_frame json_create_data)
              json_create_data
              (JObject [(utf16 "type", JString (utf16 "create"));
                        (utf16 "data", JObject [(utf16 "id", JString (utf16 "b2"))])])
              sample_connected)
    as (ev & Hevents & Hlife & _);
    [vm_compute; reflexivity | discriminate | vm_compute; reflexivity | discriminate |].
  exists ev. split; [exact Hevents|].
  rewrite (Hlife create); [vm_compute; reflexivity | right; left; reflexivity
                           | vm_compute; reflexivity].
Defined.

Lemma status_text_after_a_failure_run :
  statusText sample_props
    (@after_read sample_host sample_props 0 [] ReadDone (session sample_system)).1
  = if (retryCountRef (session sample_system) =? 0)%nat
    then utf16 "尝试连接..." else utf16 "连接已断开".
Proof.
  apply (@status_text_after_a_failure sample_host sample_system sample_props
           (AwaitingRead 0 []) [] ReadDone);
    [exact sample_system_reachable | vm_compute; left; reflexivity | vm_compute; reflexivity
     | discriminate | vm_compute; reflexivity].
Defined.

Lemma root_url_ignores_slashes_run :
  ApiConfig.getApiRootUrl sample_store_slashed (utf16 "api-1")
  = ApiConfig.getApiRootUrl sample_store (utf16 "api-1")
  /\ ApiConfig.getApiRootUrl sample_store (utf16 "api-1")
     = Some (ApiConfig.strip_trailing_slashes (ApiConfig.apiUrl (ApiConfig.config sample_config))
             ++ utf16 "/" ++ trim (ApiConfig.strip_slashes (utf16 "api"))).
Proof.
  destruct (root_url_ignores_slashes sample_store sample_store_slashed (utf16 "api-1")
              sample_config sample_config_slashed 2 1 1 (utf16 "api"))
    as (Hsame & Hroot & _);
    [vm_compute; reflexivity | vm_compute; reflexivity | discriminate | discriminate
     | vm_compute; reflexivity | vm_compute; reflexivity | vm_compute; reflexivity |].
  split; [exact Hsame | exact Hroot].
Defined.

Lemma home_page_identity_run :
  exists p,
    ApiConfig.EventLog_props sample_store = Some p
    /\ apiId p = Some (ApiConfig.id sample_config)
    /\ identity_valid p = true.
Proof.
  destruct (@home_page_identity sample_host sample_store sample_config)
    as (p & Hprops & Hid & _ & Hvalid & _); [vm_compute; reflexivity|].
  exists p. split; [exact Hprops|]. split; [exact Hid|].
  apply Hvalid; [discriminate | discriminate | vm_compute; reflexivity].
Defined.

Lemma parsed_url_gives_back_the_addresses_run :
  ModifyInstanceDialog.instanceType
    (ModifyInstanceDialog.parseNodePassUrl (fun _ _ => None)
       (ModifyInstanceDialog.buildUrl sample_values))
  = Some (ModifyInstanceDialog.form_instanceType sample_values)
  /\ ModifyInstanceDialog.tunnelAddress
       (ModifyInstanceDialog.parseNodePassUrl (fun _ _ => None)
          (ModifyInstanceDialog.buildUrl sample_values))
     = ModifyInstanceDialog.form_tunnelAddress sample_values
  /\ ModifyInstanceDialog.targetAddress
       (ModifyInstanceDialog.parseNodePassUrl (fun _ _ => None)
          (ModifyInstanceDialog.buildUrl sample_values))
     = ModifyInstanceDialog.form_targetAddress sample_values.
Proof.
  destruct (parsed_url_gives_back_the_addresses (fun _ _ => None) sample_values)
    as (Htype & Htunnel & Htarget & _);
    [vm_compute; left; reflexivity | vm_compute; reflexivity | vm_compute; reflexivity
     | vm_compute; reflexivity |].
  split; [exact Htype|]. split; [exact Htunnel | exact Htarget].
Defined.

Lemma topology_reads_the_addresses_run :
  Topology.parseTargetAddr (ModifyInstanceDialog.buildUrl sample_values)
  = Some (ModifyInstanceDialog.form_targetAddress sample_values)
  /\ Topology.parseTunnelAddr (fun _ => None) (ModifyInstanceDialog.buildUrl sample_values)
     = Some (ModifyInstanceDialog.form_tunnelAddress sample_values).
Proof.
  destruct (topology_reads_the_addresses (fun _ => None) sample_values) as (Htarget & Htunnel);
    [vm_compute; left; reflexivity | vm_compute; reflexivity | vm_compute; reflexivity
     | vm_compute; reflexivity |].
  split; [exact Htarget | apply Htunnel; reflexivity].
Defined.
